(** * Bear Notes: the note model, tag extraction, filtering, rendering and
      persistence of the single-page note application, embedded from the
      client component [BearNotesApp].

    Representation. A JavaScript string is represented by a [string], the
    sequence of bytes of its UTF-8 text (well-formed text is assumed).
    The characters the program looks at are ASCII ([#], [*], the backquote,
    [-], [_], letters, digits, the line feed) or are matched as the byte
    sequences of their encoding (the Unicode blanks removed by [trim] and
    matched by [\s], the line separators that [.] refuses). One operation
    is modelled on the ASCII range only: [toLowerCase] maps [A-Z] to [a-z]
    and leaves every other byte as it is.
    A [Date] is the integer number of milliseconds since the epoch. *)

From Stdlib Require Import String Ascii List ZArith Lia Bool Arith.
From Stdlib Require Import DecimalString Decimal DecimalPos DecimalZ Sorted.
From Equations Require Import Equations.
Import ListNotations.

Local Open Scope list_scope.
Local Open Scope string_scope.

(** ** Strings as the program uses them *)

Module JSString.

Definition inRange (lo hi c : ascii) : bool :=
  (N.leb (N_of_ascii lo) (N_of_ascii c)
   && N.leb (N_of_ascii c) (N_of_ascii hi))%bool.

Definition isUpper (c : ascii) : bool := inRange "A" "Z" c.
Definition isLower (c : ascii) : bool := inRange "a" "z" c.
Definition isDigit (c : ascii) : bool := inRange "0" "9" c.

(** [\w] of a regular expression without the unicode flag. *)
Definition isWordChar (c : ascii) : bool :=
  (isUpper c || isLower c || isDigit c || Ascii.eqb c "_")%bool.

(** The character class [[\w-]]. *)
Definition isTagChar (c : ascii) : bool :=
  (isWordChar c || Ascii.eqb c "-")%bool.

Definition lowerChar (c : ascii) : ascii :=
  if isUpper c then ascii_of_N (N_of_ascii c + 32) else c.

(** [s.toLowerCase()] of a text of ASCII characters: the letters A to Z
    are folded and nothing else changes. The platform function also folds
    letters beyond ASCII, by the tables of Unicode; these are not
    embedded. [toLowerCase] stands for it where the text is ASCII by
    construction (the tokens of the tag expression, the fields of a new
    note); the filter engine below is written over the platform function
    left open, see [filteredNotesWith]. *)
Fixpoint toLowerCase (s : string) : string :=
  match s with
  | EmptyString => EmptyString
  | String c s' => String (lowerChar c) (toLowerCase s')
  end.

(** [s.startsWith(p)] *)
Definition startsWith (s p : string) : bool := String.prefix p s.

(** [s.includes(sub)]: [sub] occurs at some position of [s]. *)
Fixpoint includes (s sub : string) : bool :=
  match s with
  | EmptyString => String.prefix sub EmptyString
  | String _ s' => (String.prefix sub s || includes s' sub)%bool
  end.

(** [s.slice(n)] for a non-negative [n]. *)
Fixpoint slice (n : nat) (s : string) : string :=
  match n, s with
  | O, _ => s
  | S _, EmptyString => EmptyString
  | S n', String _ s' => slice n' s'
  end.

Fixpoint takeWhile (p : ascii -> bool) (s : string) : string :=
  match s with
  | EmptyString => EmptyString
  | String c s' => if p c then String c (takeWhile p s') else EmptyString
  end.

Fixpoint dropWhile (p : ascii -> bool) (s : string) : string :=
  match s with
  | EmptyString => EmptyString
  | String c s' => if p c then dropWhile p s' else s
  end.

Fixpoint forallb (p : ascii -> bool) (s : string) : bool :=
  match s with
  | EmptyString => true
  | String c s' => (p c && forallb p s')%bool
  end.

Lemma length_append (s t : string) :
  String.length (s ++ t) = String.length s + String.length t.
Proof. induction s as [|c s IH]; simpl; [reflexivity | now rewrite IH]. Qed.

Lemma prefix_slice p s :
  String.prefix p s = true -> s = p ++ slice (String.length p) s.
Proof.
  revert s; induction p as [|a p IH]; intros s H; [reflexivity|].
  destruct s as [|b s]; simpl in H; [discriminate|].
  destruct (ascii_dec a b) as [->|]; [|discriminate].
  simpl. f_equal. now apply IH.
Qed.

(** The text whose UTF-8 encoding is the given bytes. *)
Definition utf8 (bytes : list N) : string :=
  string_of_list_ascii (map ascii_of_N bytes).

(** The white space and line terminator characters, which [trim] removes
    and [\s] matches: U+0009 to U+000D, U+0020, U+00A0, U+1680, U+2000
    to U+200A, U+2028, U+2029, U+202F, U+205F, U+3000, U+FEFF. *)
Definition whiteSpace : list string :=
  map utf8
    [ [9]; [10]; [11]; [12]; [13]; [32]; [194; 160]; [225; 154; 128];
      [226; 128; 128]; [226; 128; 129]; [226; 128; 130]; [226; 128; 131];
      [226; 128; 132]; [226; 128; 133]; [226; 128; 134]; [226; 128; 135];
      [226; 128; 136]; [226; 128; 137]; [226; 128; 138];
      [226; 128; 168]; [226; 128; 169]; [226; 128; 175]; [226; 129; 159];
      [227; 128; 128]; [239; 187; 191] ]%N.

(** The line terminators, which [.] does not match: U+000A, U+000D,
    U+2028, U+2029. *)
Definition lineTerminators : list string :=
  map utf8 [ [10]; [13]; [226; 128; 168]; [226; 128; 169] ]%N.

(** [s] without the first of [ws] it begins with. *)
Fixpoint stripAny (ws : list string) (s : string) : option string :=
  match ws with
  | [] => None
  | w :: ws' =>
      if String.prefix w s then Some (slice (String.length w) s)
      else stripAny ws' s
  end.

Definition startsWithAny (ws : list string) (s : string) : bool :=
  match stripAny ws s with Some _ => true | None => false end.

(** [s] without the white space character it begins with. *)
Definition stripBlank (s : string) : option string := stripAny whiteSpace s.

Lemma stripAny_spec ws s r :
  stripAny ws s = Some r -> exists w, In w ws /\ s = w ++ r.
Proof.
  induction ws as [|w ws IH]; simpl; [discriminate|].
  destruct (String.prefix w s) eqn:Hp.
  - intros [= <-]. exists w. split; [now left | now apply prefix_slice].
  - intros H. destruct (IH H) as [w' [Hin E]]. exists w'. split; [now right | exact E].
Qed.

Lemma stripBlank_shorter s r :
  stripBlank s = Some r -> String.length r < String.length s.
Proof.
  unfold stripBlank. intros H. destruct (stripAny_spec _ _ _ H) as [w [Hin ->]].
  rewrite length_append.
  assert (Hw : 0 < String.length w).
  { revert Hin. generalize w. apply Forall_forall.
    unfold whiteSpace. repeat constructor. }
  lia.
Qed.

Definition inspect {A : Type} (a : A) : {b : A | a = b} := exist _ a eq_refl.

Opaque stripBlank.

(** [s.trim() === ""]: [s] is made of white space only. *)
Equations? trimIsEmpty (s : string) : bool by wf (String.length s) lt :=
  trimIsEmpty EmptyString := true;
  trimIsEmpty (String c s') with inspect (stripBlank (String c s')) => {
    | exist _ (Some rest) Heq := trimIsEmpty rest;
    | exist _ None _ := false }.
Proof.
  exact (stripBlank_shorter (String c s') rest Heq).
Qed.

(** [s] without the longest match of [\s*] at its start. *)
Equations? dropBlanks (s : string) : string by wf (String.length s) lt :=
  dropBlanks EmptyString := EmptyString;
  dropBlanks (String c s') with inspect (stripBlank (String c s')) => {
    | exist _ (Some rest) Heq := dropBlanks rest;
    | exist _ None _ := String c s' }.
Proof.
  exact (stripBlank_shorter (String c s') rest Heq).
Qed.

Transparent stripBlank.

(** [s.split("\n")]: the pieces between line feeds, at least one. *)
Fixpoint splitLines (s : string) : list string :=
  match s with
  | EmptyString => [EmptyString]
  | String c s' =>
      if Ascii.eqb c "010" then EmptyString :: splitLines s'
      else match splitLines s' with
           | [] => [String c EmptyString]
           | l :: ls => String c l :: ls
           end
  end.

(** A string is truthy when it is not empty. *)
Definition truthy (s : string) : bool :=
  match s with EmptyString => false | _ => true end.

End JSString.
Import JSString.

(** ** The data model *)

Definition Date := Z.

Record Note := mkNote {
  id : string;
  title : string;
  content : string;
  tags : list string;
  createdAt : Date;
  updatedAt : Date;
  isStarred : bool;
  isArchived : bool
}.

(** ** Tag extraction *)

(** One attempt of [/#[\w-]+/] at the start of [s]: the match and what
    follows it. *)
Definition matchTagAt (s : string) : option (string * string) :=
  match s with
  | EmptyString => None
  | String c rest =>
      if Ascii.eqb c "#" then
        match takeWhile isTagChar rest with
        | EmptyString => None
        | tok => Some (String c tok, dropWhile isTagChar rest)
        end
      else None
  end.

Lemma dropWhile_length p s : String.length (dropWhile p s) <= String.length s.
Proof.
  induction s as [|c s IH]; simpl; [lia|].
  destruct (p c); simpl; lia.
Qed.

Lemma matchTagAt_shorter s m rest :
  matchTagAt s = Some (m, rest) -> String.length rest < String.length s.
Proof.
  destruct s as [|c s]; simpl; [discriminate|].
  destruct (Ascii.eqb c "#"); [|discriminate].
  destruct (takeWhile isTagChar s); [discriminate|].
  intros H; injection H as _ <-.
  pose proof (dropWhile_length isTagChar s). lia.
Qed.

(** All the matches of the global regular expression [/#[\w-]+/g], left to
    right: after a match the scan resumes behind it, after a failure one
    character further. *)
Equations? matchAllTags (s : string) : list string by wf (String.length s) lt :=
  matchAllTags EmptyString := [];
  matchAllTags (String c s') with inspect (matchTagAt (String c s')) => {
    | exist _ (Some (m, rest)) Heq := m :: matchAllTags rest;
    | exist _ None _ := matchAllTags s' }.
Proof.
  exact (matchTagAt_shorter (String c s') m rest Heq).
Qed.

(** [content.match(tagRegex)]: [null] when nothing matches. *)
Definition String_match_tags (content : string) : option (list string) :=
  match matchAllTags content with
  | [] => None
  | ms => Some ms
  end.

Definition extractTags (content : string) : list string :=
  match String_match_tags content with
  | Some matches => map (fun tag => toLowerCase (slice 1 tag)) matches
  | None => []
  end.

(** ** The filter engine *)

(** [xs.includes(x)] on an array of strings. *)
Definition Array_includes (xs : list string) (x : string) : bool :=
  existsb (String.eqb x) xs.

(** The filter is written once, over [lower], which stands for
    [String.prototype.toLowerCase] of the platform: what is proved of
    [filteredNotesWith lower] for every [lower] holds of the code on every
    text, ASCII or not. *)
Section Lowercase.

Variable lower : string -> string.

(** The search predicate of [filteredNotes], the value returned under
    [if (searchTerm)]. *)
Definition matchesSearchWith (searchTerm : string) (note : Note) : bool :=
  (includes (lower (title note)) (lower searchTerm)
   || includes (lower (content note)) (lower searchTerm)
   || existsb (fun tag => includes (lower tag) (lower searchTerm))
              (tags note))%bool.

(** The callback given to [notes.filter]. *)
Definition keepNoteWith (selectedTag searchTerm : string) (note : Note) : bool :=
  if ((selectedTag =? "starred") && negb (isStarred note))%bool then false
  else if ((selectedTag =? "archived") && negb (isArchived note))%bool then false
  else if ((selectedTag =? "untagged") && Nat.ltb 0 (List.length (tags note)))%bool
  then false
  else if (negb (selectedTag =? "all") && negb (selectedTag =? "starred")
           && negb (selectedTag =? "archived")
           && negb (selectedTag =? "untagged")
           && negb (Array_includes (tags note) selectedTag))%bool
  then false
  else if truthy searchTerm then matchesSearchWith searchTerm note
  else (negb (isArchived note) || (selectedTag =? "archived"))%bool.

Definition filteredNotesWith (notes : list Note) (selectedTag searchTerm : string)
  : list Note :=
  filter (keepNoteWith selectedTag searchTerm) notes.

End Lowercase.

(** The filter on text of ASCII characters, where the platform function is
    [toLowerCase]. *)
Definition matchesSearch (searchTerm : string) (note : Note) : bool :=
  matchesSearchWith toLowerCase searchTerm note.

Definition keepNote (selectedTag searchTerm : string) (note : Note) : bool :=
  keepNoteWith toLowerCase selectedTag searchTerm note.

Definition filteredNotes (notes : list Note) (selectedTag searchTerm : string)
  : list Note :=
  filter (keepNote selectedTag searchTerm) notes.

(** ** The renderer *)

Inductive Block :=
| Heading (level : nat) (text : string)
| ListItem (text : string)
| LineBreak
| Paragraph (html : string).

(** A rendered element: the React key (the line's index) and the block. *)
Record Element := mkElement { key : nat; block : Block }.

(** The three delimited inline markers, in the order they are applied. *)
Inductive Marker := Bold | Italic | Code.

Definition dquote : string := String "034" EmptyString.

Definition delimiter (m : Marker) : string :=
  match m with Bold => "**" | Italic => "*" | Code => "`" end.

(** The replacement text, with [$1] standing for [inner]. *)
Definition wrap (m : Marker) (inner : string) : string :=
  match m with
  | Bold => "<strong>" ++ inner ++ "</strong>"
  | Italic => "<em>" ++ inner ++ "</em>"
  | Code => "<code class=" ++ dquote ++ "bg-gray-100 px-1 py-0.5 rounded text-sm"
            ++ dquote ++ ">" ++ inner ++ "</code>"
  end.

(** The lazy group [(.*?)] followed by the closing delimiter: the shortest
    run of characters other than line terminators after which [delim]
    stands. Returns the group and the text behind the closing delimiter. *)
Fixpoint findClose (delim s : string) : option (string * string) :=
  if String.prefix delim s then Some (EmptyString, slice (String.length delim) s)
  else match s with
       | EmptyString => None
       | String c s' =>
           if startsWithAny lineTerminators s then None
           else match findClose delim s' with
                | Some (inner, rest) => Some (String c inner, rest)
                | None => None
                end
       end.

(** One attempt of [delim(.*?)delim] at the start of [s]. *)
Definition matchDelimitedAt (m : Marker) (s : string) : option (string * string) :=
  if String.prefix (delimiter m) s
  then findClose (delimiter m) (slice (String.length (delimiter m)) s)
  else None.

Lemma findClose_spec delim s inner rest :
  findClose delim s = Some (inner, rest) -> s = inner ++ delim ++ rest.
Proof.
  revert inner rest; induction s as [|c s IH]; intros inner rest.
  - cbn [findClose]. destruct (String.prefix delim "") eqn:Hp; [|discriminate].
    intros H; injection H as <- <-. now apply prefix_slice.
  - cbn [findClose]. destruct (String.prefix delim (String c s)) eqn:Hp.
    + intros H; injection H as <- <-. now apply prefix_slice.
    + destruct (startsWithAny lineTerminators (String c s)); [discriminate|].
      destruct (findClose delim s) as [[i r]|]; [|discriminate].
      intros H; injection H as <- <-. simpl. f_equal. now apply IH.
Qed.

Lemma matchDelimitedAt_spec m s inner rest :
  matchDelimitedAt m s = Some (inner, rest) ->
  s = delimiter m ++ inner ++ delimiter m ++ rest.
Proof.
  unfold matchDelimitedAt.
  destruct (String.prefix (delimiter m) s) eqn:Hp; [|discriminate].
  intros H. apply findClose_spec in H.
  rewrite (prefix_slice _ _ Hp) at 1. now rewrite H.
Qed.

Lemma matchDelimitedAt_shorter m s inner rest :
  matchDelimitedAt m s = Some (inner, rest) ->
  String.length rest < String.length s.
Proof.
  intros H. apply matchDelimitedAt_spec in H. rewrite H.
  rewrite !length_append. destruct m; simpl; lia.
Qed.

(** [s.replace(/delim(.*?)delim/g, wrap)]: every match, left to right, is
    replaced; the scan resumes behind a match, and one character further
    where there is none. *)
Equations? replaceDelimited (m : Marker) (s : string) : string
  by wf (String.length s) lt :=
  replaceDelimited m EmptyString := EmptyString;
  replaceDelimited m (String c s') with inspect (matchDelimitedAt m (String c s')) => {
    | exist _ (Some (inner, rest)) Heq := wrap m inner ++ replaceDelimited m rest;
    | exist _ None _ := String c (replaceDelimited m s') }.
Proof.
  exact (matchDelimitedAt_shorter m (String c s') inner rest Heq).
Qed.

Definition spanOpen : string :=
  "<span class=" ++ dquote ++ "text-blue-600 font-medium" ++ dquote ++ ">".

(** [s.replace(/#([\w-]+)/g, '<span class=...>#$1</span>')] *)
Equations? replaceTags (s : string) : string by wf (String.length s) lt :=
  replaceTags EmptyString := EmptyString;
  replaceTags (String c s') with inspect (matchTagAt (String c s')) => {
    | exist _ (Some (m, rest)) Heq :=
        spanOpen ++ "#" ++ slice 1 m ++ "</span>" ++ replaceTags rest;
    | exist _ None _ := String c (replaceTags s') }.
Proof.
  exact (matchTagAt_shorter (String c s') m rest Heq).
Qed.

(** The inline substitutions of a paragraph line: bold, italic, code, tags. *)
Definition formatInline (line : string) : string :=
  replaceTags (replaceDelimited Code (replaceDelimited Italic (replaceDelimited Bold line))).

(** The body of the callback given to [content.split("\n").map]. *)
Definition renderLine (line : string) : Block :=
  if startsWith line "# " then Heading 1 (slice 2 line)
  else if startsWith line "## " then Heading 2 (slice 3 line)
  else if startsWith line "### " then Heading 3 (slice 4 line)
  else if startsWith line "- " then ListItem (slice 2 line)
  else if trimIsEmpty line then LineBreak
  else Paragraph (formatInline line).

Fixpoint mapi_from {A B : Type} (f : A -> nat -> B) (i : nat) (xs : list A) : list B :=
  match xs with
  | [] => []
  | x :: xs' => f x i :: mapi_from f (S i) xs'
  end.

(** [xs.map((x, index) => f(x, index))] *)
Definition Array_mapi {A B : Type} (f : A -> nat -> B) (xs : list A) : list B :=
  mapi_from f 0 xs.

Definition renderContent (content : string) : list Element :=
  Array_mapi (fun line index => mkElement index (renderLine line))
             (splitLines content).

(** ** Serialization: [JSON.stringify] of a note list *)

Module JSON.

(** [n.toString()] of an integer. *)
Definition Number_toString (n : Z) : string :=
  NilZero.string_of_int (Z.to_int n).

Definition digitChar (d : Z) : ascii := ascii_of_N (48 + Z.to_N d).

(** The last [width] decimal digits of [n], zero padded. *)
Fixpoint padded (width : nat) (n : Z) : string :=
  match width with
  | O => EmptyString
  | S w => padded w (n / 10) ++ String (digitChar (n mod 10)) EmptyString
  end.

(** Year, month and day of a day number counted from 1970-01-01. *)
Definition civilFromDays (days : Z) : Z * Z * Z :=
  let z := (days + 719468)%Z in
  let era := (z / 146097)%Z in
  let doe := (z - era * 146097)%Z in
  let yoe := ((doe - doe / 1460 + doe / 36524 - doe / 146096) / 365)%Z in
  let doy := (doe - (365 * yoe + yoe / 4 - yoe / 100))%Z in
  let mp := ((5 * doy + 2) / 153)%Z in
  let d := (doy - (153 * mp + 2) / 5 + 1)%Z in
  let m := (if mp <? 10 then mp + 3 else mp - 9)%Z in
  let y := (yoe + era * 400 + (if m <=? 2 then 1 else 0))%Z in
  (y, m, d).

(** [date.toISOString()], which [JSON.stringify] calls through [toJSON]. *)
Definition toISOString (t : Date) : string :=
  let '(y, m, d) := civilFromDays (t / 86400000) in
  let tod := (t mod 86400000)%Z in
  let year :=
    if ((0 <=? y) && (y <=? 9999))%Z%bool then padded 4 y
    else (if (y <? 0)%Z then "-" else "+") ++ padded 6 (Z.abs y) in
  year ++ "-" ++ padded 2 m ++ "-" ++ padded 2 d ++ "T"
  ++ padded 2 (tod / 3600000) ++ ":" ++ padded 2 (tod / 60000 mod 60) ++ ":"
  ++ padded 2 (tod / 1000 mod 60) ++ "." ++ padded 3 (tod mod 1000) ++ "Z".

Definition hexChar (d : N) : ascii :=
  if (d <? 10)%N then ascii_of_N (48 + d) else ascii_of_N (87 + d).

Definition backslash : string := String "092" EmptyString.

Definition escapeChar (c : ascii) : string :=
  if Ascii.eqb c "034" then backslash ++ dquote
  else if Ascii.eqb c "092" then backslash ++ backslash
  else if Ascii.eqb c "008" then backslash ++ "b"
  else if Ascii.eqb c "009" then backslash ++ "t"
  else if Ascii.eqb c "010" then backslash ++ "n"
  else if Ascii.eqb c "012" then backslash ++ "f"
  else if Ascii.eqb c "013" then backslash ++ "r"
  else if (N_of_ascii c <? 32)%N then
    backslash ++ "u00" ++ String (hexChar (N_of_ascii c / 16))
                                 (String (hexChar (N_of_ascii c mod 16)) EmptyString)
  else String c EmptyString.

Fixpoint escape (s : string) : string :=
  match s with
  | EmptyString => EmptyString
  | String c s' => escapeChar c ++ escape s'
  end.

Definition quote (s : string) : string := dquote ++ escape s ++ dquote.

Definition stringifyBool (b : bool) : string := if b then "true" else "false".

Definition stringifyArray {A : Type} (f : A -> string) (xs : list A) : string :=
  "[" ++ String.concat "," (map f xs) ++ "]".

Definition member (name value : string) : string := quote name ++ ":" ++ value.

Definition stringifyNote (note : Note) : string :=
  "{" ++ String.concat ","
    [ member "id" (quote (id note));
      member "title" (quote (title note));
      member "content" (quote (content note));
      member "tags" (stringifyArray quote (tags note));
      member "createdAt" (quote (toISOString (createdAt note)));
      member "updatedAt" (quote (toISOString (updatedAt note)));
      member "isStarred" (stringifyBool (isStarred note));
      member "isArchived" (stringifyBool (isArchived note)) ]
  ++ "}".

(** [JSON.stringify(notes)] *)
Definition stringify (notes : list Note) : string :=
  stringifyArray stringifyNote notes.

(** *** [JSON.parse]: the syntax tree of a JSON text.
    Numbers and strings keep their lexemes as written. *)

#[warnings="-register-all"]
Inductive value :=
| JNull
| JBool (b : bool)
| JNumber (lexeme : string)
| JString (lexeme : string)
| JArray (items : list value)
| JObject (members : list (string * value)).

Definition isWs (c : ascii) : bool :=
  (Ascii.eqb c " " || Ascii.eqb c "009" || Ascii.eqb c "010" || Ascii.eqb c "013")%bool.

Definition skipWs (s : string) : string := dropWhile isWs s.

Definition isHex (c : ascii) : bool :=
  (isDigit c || inRange "a" "f" c || inRange "A" "F" c)%bool.

Definition isSimpleEscape (c : ascii) : bool :=
  (Ascii.eqb c "034" || Ascii.eqb c "092" || Ascii.eqb c "/" || Ascii.eqb c "b"
   || Ascii.eqb c "f" || Ascii.eqb c "n" || Ascii.eqb c "r" || Ascii.eqb c "t")%bool.

Definition consLexeme (p : string) (r : option (string * string))
  : option (string * string) :=
  match r with
  | Some (lexeme, rest) => Some (p ++ lexeme, rest)
  | None => None
  end.

(** The characters of a string behind its opening quote, up to the
    closing quote. *)
Fixpoint parseChars (s : string) : option (string * string) :=
  match s with
  | EmptyString => None
  | String c r =>
      if Ascii.eqb c "034" then Some (EmptyString, r)
      else if Ascii.eqb c "092" then
        match r with
        | EmptyString => None
        | String e r1 =>
            if isSimpleEscape e then
              consLexeme (String c (String e EmptyString)) (parseChars r1)
            else if Ascii.eqb e "u" then
              match r1 with
              | String h1 (String h2 (String h3 (String h4 r2))) =>
                  if (isHex h1 && isHex h2 && isHex h3 && isHex h4)%bool then
                    consLexeme
                      (String c (String e (String h1 (String h2
                         (String h3 (String h4 EmptyString))))))
                      (parseChars r2)
                  else None
              | _ => None
              end
            else None
        end
      else if (N_of_ascii c <? 32)%N then None
      else consLexeme (String c EmptyString) (parseChars r)
  end.

Definition optional (p : string -> option (string * string)) (s : string)
  : option (string * string) :=
  match p s with
  | Some r => Some r
  | None => Some (EmptyString, s)
  end.

Definition digits1 (s : string) : option (string * string) :=
  match takeWhile isDigit s with
  | EmptyString => None
  | ds => Some (ds, dropWhile isDigit s)
  end.

Definition intPart (s : string) : option (string * string) :=
  match s with
  | String c r =>
      if Ascii.eqb c "0" then Some ("0", r) else digits1 s
  | EmptyString => None
  end.

Definition charIn (cs : string) (s : string) : option (string * string) :=
  match s with
  | String c r =>
      if includes cs (String c EmptyString) then Some (String c EmptyString, r)
      else None
  | EmptyString => None
  end.

(** Sequencing of two lexeme parsers. *)
Definition andThen (p q : string -> option (string * string)) (s : string)
  : option (string * string) :=
  match p s with
  | Some (a, r) => consLexeme a (q r)
  | None => None
  end.

Definition parseNumber : string -> option (string * string) :=
  andThen (optional (charIn "-"))
    (andThen intPart
       (andThen (optional (andThen (charIn ".") digits1))
          (optional (andThen (charIn "eE")
                       (andThen (optional (charIn "+-")) digits1))))).

(** The rest of an array behind its first element. *)
Fixpoint parseItems (pv : string -> option (value * string)) (n : nat) (s : string)
  : option (list value * string) :=
  match n with
  | O => None
  | S n' =>
      match skipWs s with
      | String c r =>
          if Ascii.eqb c "]" then Some ([], r)
          else if Ascii.eqb c "," then
            match pv r with
            | Some (v, r1) =>
                match parseItems pv n' r1 with
                | Some (vs, r2) => Some (v :: vs, r2)
                | None => None
                end
            | None => None
            end
          else None
      | EmptyString => None
      end
  end.

(** One member [ "name" : value ] of an object. *)
Definition parseMember (pv : string -> option (value * string)) (s : string)
  : option ((string * value) * string) :=
  match skipWs s with
  | String c r =>
      if Ascii.eqb c "034" then
        match parseChars r with
        | Some (name, r1) =>
            match skipWs r1 with
            | String c1 r2 =>
                if Ascii.eqb c1 ":" then
                  match pv r2 with
                  | Some (v, r3) => Some ((name, v), r3)
                  | None => None
                  end
                else None
            | EmptyString => None
            end
        | None => None
        end
      else None
  | EmptyString => None
  end.

(** The rest of an object behind its first member. *)
Fixpoint parseMembers (pv : string -> option (value * string)) (n : nat) (s : string)
  : option (list (string * value) * string) :=
  match n with
  | O => None
  | S n' =>
      match skipWs s with
      | String c r =>
          if Ascii.eqb c "}" then Some ([], r)
          else if Ascii.eqb c "," then
            match parseMember pv r with
            | Some (m, r1) =>
                match parseMembers pv n' r1 with
                | Some (ms, r2) => Some (m :: ms, r2)
                | None => None
                end
            | None => None
            end
          else None
      | EmptyString => None
      end
  end.

Definition literal (word : string) (v : value) (s : string)
  : option (value * string) :=
  if String.prefix word s then Some (v, slice (String.length word) s) else None.

(** A value with blanks before and none consumed behind. [fuel] bounds the
    nesting depth. *)
Fixpoint parseValue (fuel : nat) (s : string) : option (value * string) :=
  match fuel with
  | O => None
  | S fuel' =>
      match skipWs s with
      | EmptyString => None
      | String c r =>
          if Ascii.eqb c "[" then
            match skipWs r with
            | String c1 r1 =>
                if Ascii.eqb c1 "]" then Some (JArray [], r1)
                else
                  match parseValue fuel' r with
                  | Some (v, r2) =>
                      match parseItems (parseValue fuel') (String.length r2) r2 with
                      | Some (vs, r3) => Some (JArray (v :: vs), r3)
                      | None => None
                      end
                  | None => None
                  end
            | EmptyString => None
            end
          else if Ascii.eqb c "{" then
            match skipWs r with
            | String c1 r1 =>
                if Ascii.eqb c1 "}" then Some (JObject [], r1)
                else
                  match parseMember (parseValue fuel') r with
                  | Some (m, r2) =>
                      match parseMembers (parseValue fuel') (String.length r2) r2 with
                      | Some (ms, r3) => Some (JObject (m :: ms), r3)
                      | None => None
                      end
                  | None => None
                  end
            | EmptyString => None
            end
          else if Ascii.eqb c "034" then
            match parseChars r with
            | Some (lexeme, r1) => Some (JString lexeme, r1)
            | None => None
            end
          else if Ascii.eqb c "t" then literal "true" (JBool true) (String c r)
          else if Ascii.eqb c "f" then literal "false" (JBool false) (String c r)
          else if Ascii.eqb c "n" then literal "null" JNull (String c r)
          else
            match parseNumber (String c r) with
            | Some (lexeme, r1) => Some (JNumber lexeme, r1)
            | None => None
            end
      end
  end.

(** [JSON.parse(text)]; [None] stands for the [SyntaxError] it throws. *)
Definition parse (text : string) : option value :=
  match parseValue (S (String.length text)) text with
  | Some (v, rest) =>
      match skipWs rest with
      | EmptyString => Some v
      | _ => None
      end
  | None => None
  end.

End JSON.

(** ** The note repository: the component's state and its handlers *)

(** The state of [BearNotesApp] together with the entry ["bear-notes"] of
    [localStorage]. ([sidebarOpen] and the textarea reference only drive
    the layout and are left out.) *)
Record AppState := mkState {
  notes : list Note;
  selectedNote : option Note;
  searchTerm : string;
  selectedTag : string;
  isEditing : bool;
  editContent : string;
  localStorage : option string
}.

Definition setNotes (ns : list Note) (st : AppState) : AppState :=
  mkState ns (selectedNote st) (searchTerm st) (selectedTag st)
          (isEditing st) (editContent st) (localStorage st).

Definition setSelectedNote (n : option Note) (st : AppState) : AppState :=
  mkState (notes st) n (searchTerm st) (selectedTag st)
          (isEditing st) (editContent st) (localStorage st).

Definition setSearchTerm (t : string) (st : AppState) : AppState :=
  mkState (notes st) (selectedNote st) t (selectedTag st)
          (isEditing st) (editContent st) (localStorage st).

Definition setSelectedTag (t : string) (st : AppState) : AppState :=
  mkState (notes st) (selectedNote st) (searchTerm st) t
          (isEditing st) (editContent st) (localStorage st).

Definition setIsEditing (b : bool) (st : AppState) : AppState :=
  mkState (notes st) (selectedNote st) (searchTerm st) (selectedTag st)
          b (editContent st) (localStorage st).

Definition setEditContent (c : string) (st : AppState) : AppState :=
  mkState (notes st) (selectedNote st) (searchTerm st) (selectedTag st)
          (isEditing st) c (localStorage st).

Definition localStorage_setItem (v : string) (st : AppState) : AppState :=
  mkState (notes st) (selectedNote st) (searchTerm st) (selectedTag st)
          (isEditing st) (editContent st) (Some v).

Definition welcomeContent : string :=
"# Welcome to Bear Notes! 🐻

This is your personal note hosting platform inspired by Bear.

## Features
- **Markdown support** for beautiful formatting
- **Tag organization** using #hashtags
- **Quick search** to find anything instantly
- **Star important notes** ⭐
- **Archive old notes** 📦

## Getting Started
1. Create a new note with the + button
2. Use #tags to organize your thoughts
3. Star important notes for quick access
4. Use the search to find anything instantly

## Markdown Examples
You can use **bold**, *italic*, and `code` formatting.

### Lists
- Item one
- Item two
- Item three

### Tags
Add tags anywhere in your notes: #personal #work #ideas

Happy note-taking! 📝

#welcome #getting-started".

(** The clock is read once per handler: [now] stands for every
    [new Date()] and [Date.now()] of one invocation, which is exact for
    what does not compare the readings of one invocation with each other.
    The readings are told apart in [welcomeNoteAt], [createNoteAt] and
    [updateNoteAt] below. *)
Definition welcomeNote (now : Date) : Note :=
  {| id := "welcome";
     title := "Welcome to Bear Notes";
     content := welcomeContent;
     tags := ["welcome"; "getting-started"];
     createdAt := now;
     updatedAt := now;
     isStarred := true;
     isArchived := false |}.

(** The save effect, run after every render in which [notes] changed. *)
Definition saveEffect (st : AppState) : AppState :=
  if Nat.ltb 0 (List.length (notes st))
  then localStorage_setItem (JSON.stringify (notes st)) st
  else st.

(** *** Loading *)

Inductive JSException := SyntaxError | TypeError.

(** What the load effect does with the stored entry. [Restored items]
    stands for [setNotes] of the array holding, for each [note] of [items],
    the object [{...note, createdAt: new Date(note.createdAt),
    updatedAt: new Date(note.updatedAt)}]. *)
Inductive LoadOutcome :=
| Thrown (e : JSException)
| Restored (items : list JSON.value)
| Seeded.

(** The character a simple escape stands for. *)
Definition unescapeSimple (e : ascii) : N :=
  if Ascii.eqb e "b" then 8
  else if Ascii.eqb e "f" then 12
  else if Ascii.eqb e "n" then 10
  else if Ascii.eqb e "r" then 13
  else if Ascii.eqb e "t" then 9
  else N_of_ascii e.

Definition hexValue (c : ascii) : N :=
  if isDigit c then N_of_ascii c - 48
  else if inRange "a" "f" c then N_of_ascii c - 87
  else N_of_ascii c - 55.

(** What the lexeme of a string stands for: the code unit of each
    character written as an escape, and the bytes of the others. For a
    text of ASCII characters these are its code units, so the comparison
    with an ASCII name is exact. *)
Fixpoint unescape (lexeme : string) : list N :=
  match lexeme with
  | EmptyString => []
  | String c r =>
      if Ascii.eqb c "092" then
        match r with
        | EmptyString => []
        | String e r1 =>
            if Ascii.eqb e "u" then
              match r1 with
              | String h1 (String h2 (String h3 (String h4 r2))) =>
                  (4096 * hexValue h1 + 256 * hexValue h2
                   + 16 * hexValue h3 + hexValue h4)%N :: unescape r2
              | _ => []
              end
            else unescapeSimple e :: unescape r1
        end
      else N_of_ascii c :: unescape r
  end.

Fixpoint sameUnits (xs ys : list N) : bool :=
  match xs, ys with
  | [], [] => true
  | x :: xs', y :: ys' => (N.eqb x y && sameUnits xs' ys')%bool
  | _, _ => false
  end.

(** The member name written as [lexeme] is the ASCII word [name]. *)
Definition named (name lexeme : string) : bool :=
  sameUnits (unescape lexeme) (map N_of_ascii (list_ascii_of_string name)).

(** [object.name] for an own property of an object that [JSON.parse]
    made: of several members with one name the last is kept. [None]
    stands for [undefined]. *)
Fixpoint getMember (name : string) (members : list (string * JSON.value))
  : option JSON.value :=
  match members with
  | [] => None
  | (k, v) :: rest =>
      match getMember name rest with
      | Some v' => Some v'
      | None => if named name k then Some v else None
      end
  end.

(** Converting a parsed value to a primitive throws a [TypeError] in two
    cases. An object converts through [valueOf] and [toString]:
    [Object.prototype.valueOf] returns the object itself, so the result
    comes from [toString], and a member named [toString] hides the one of
    the prototype behind a value that cannot be called. An array converts
    through [join], which converts every element that is not [null] to a
    string. (Whether the hint is a number or a string changes the order of
    the two methods and not the outcome.) *)
Fixpoint toPrimitiveThrows (v : JSON.value) : bool :=
  match v with
  | JSON.JObject members =>
      match getMember "toString" members with Some _ => true | None => false end
  | JSON.JArray items => existsb toPrimitiveThrows items
  | _ => false
  end.

(** [new Date(value)] converts an object to a primitive first and throws
    when that does; on a primitive it never throws. *)
Definition newDateThrows (value : option JSON.value) : bool :=
  match value with
  | Some v => toPrimitiveThrows v
  | None => false
  end.

(** [note.createdAt]: reading a property of [null] throws; an object
    gives its member or [undefined], every other value [undefined]. *)
Definition propertyOf (name : string) (note : JSON.value) : option JSON.value :=
  match note with
  | JSON.JObject members => getMember name members
  | _ => None
  end.

(** The callback of the load effect returns for [note], without a
    [TypeError]. *)
Definition revivable (note : JSON.value) : bool :=
  match note with
  | JSON.JNull => false
  | _ => (negb (newDateThrows (propertyOf "createdAt" note))
          && negb (newDateThrows (propertyOf "updatedAt" note)))%bool
  end.

Definition loadEffect (savedNotes : option string) : LoadOutcome :=
  match savedNotes with
  | None => Seeded
  | Some text =>
      if truthy text then
        match JSON.parse text with
        | None => Thrown SyntaxError
        | Some (JSON.JArray items) =>
            if List.forallb revivable items then Restored items
            else Thrown TypeError
        | Some _ => Thrown TypeError
        end
      else Seeded
  end.



Definition initialState (stored : option string) : AppState :=
  mkState [] None "" "all" false "" stored.

(** The state after the first render and its effects when the store had
    no entry: the welcome note is seeded, selected and saved. *)
Definition seededState (now : Date) : AppState :=
  saveEffect (setSelectedNote (Some (welcomeNote now))
                (setNotes [welcomeNote now] (saveEffect (initialState None)))).

(** *** Handlers *)

Definition createNote (now : Date) (st : AppState) : AppState :=
  let newNote :=
    {| id := JSON.Number_toString now;
       title := "Untitled Note";
       content := "";
       tags := [];
       createdAt := now;
       updatedAt := now;
       isStarred := false;
       isArchived := false |} in
  setEditContent "" (setIsEditing true
    (setSelectedNote (Some newNote) (setNotes (newNote :: notes st) st))).

(** [Partial<Note>]: each field is present or not. *)
Record NoteUpdates := mkUpdates {
  u_id : option string;
  u_title : option string;
  u_content : option string;
  u_tags : option (list string);
  u_createdAt : option Date;
  u_updatedAt : option Date;
  u_isStarred : option bool;
  u_isArchived : option bool
}.

Definition noUpdates : NoteUpdates :=
  mkUpdates None None None None None None None None.

Definition orElse {A : Type} (u : option A) (old : A) : A :=
  match u with Some v => v | None => old end.

(** [{ ...note, ...updates, updatedAt: new Date() }] *)
Definition merge (note : Note) (updates : NoteUpdates) (now : Date) : Note :=
  {| id := orElse (u_id updates) (id note);
     title := orElse (u_title updates) (title note);
     content := orElse (u_content updates) (content note);
     tags := orElse (u_tags updates) (tags note);
     createdAt := orElse (u_createdAt updates) (createdAt note);
     updatedAt := now;
     isStarred := orElse (u_isStarred updates) (isStarred note);
     isArchived := orElse (u_isArchived updates) (isArchived note) |}.

Definition updateNote (noteId : string) (updates : NoteUpdates) (now : Date)
  (st : AppState) : AppState :=
  let st1 :=
    setNotes (map (fun note => if id note =? noteId then merge note updates now
                               else note) (notes st)) st in
  match selectedNote st with
  | Some sel =>
      if id sel =? noteId
      then setSelectedNote (Some (merge sel updates now)) st1
      else st1
  | None => st1
  end.

(** [editContent.split("\n")[0].replace(/^#\s*/, "") || "Untitled Note"] *)
Definition deriveTitle (editContent : string) : string :=
  let firstLine := hd EmptyString (splitLines editContent) in
  let stripped :=
    match firstLine with
    | String c r => if Ascii.eqb c "#" then dropBlanks r else firstLine
    | EmptyString => firstLine
    end in
  if truthy stripped then stripped else "Untitled Note".

(** [saveNote]; [None] when it returns before touching the state. *)
Definition saveNote (now : Date) (st : AppState) : option AppState :=
  match selectedNote st with
  | None => None
  | Some sel =>
      let tags := extractTags (editContent st) in
      let title := deriveTitle (editContent st) in
      Some (setIsEditing false
              (updateNote (id sel)
                 (mkUpdates None (Some title) (Some (editContent st)) (Some tags)
                            None None None None) now st))
  end.

Definition deleteNote (noteId : string) (st : AppState) : AppState :=
  let st1 := setNotes (filter (fun note => negb (id note =? noteId)) (notes st)) st in
  match selectedNote st with
  | Some sel => if id sel =? noteId then setSelectedNote None st1 else st1
  | None => st1
  end.

(** [!notes.find((n) => n.id === noteId)?.field]: [true] when no note has
    the id. *)
Definition negatedFlag (field : Note -> bool) (noteId : string) (ns : list Note) : bool :=
  match find (fun n => id n =? noteId) ns with
  | Some n => negb (field n)
  | None => true
  end.

Definition toggleStar (noteId : string) (now : Date) (st : AppState) : AppState :=
  updateNote noteId
    (mkUpdates None None None None None None
               (Some (negatedFlag isStarred noteId (notes st))) None) now st.

Definition toggleArchive (noteId : string) (now : Date) (st : AppState) : AppState :=
  updateNote noteId
    (mkUpdates None None None None None None None
               (Some (negatedFlag isArchived noteId (notes st)))) now st.

Definition startEditing (st : AppState) : AppState :=
  match selectedNote st with
  | Some sel => setIsEditing true (setEditContent (content sel) st)
  | None => st
  end.

Definition cancelEditing (st : AppState) : AppState :=
  setEditContent "" (setIsEditing false st).

(** A click on the [index]-th entry of the displayed list. *)
Definition selectNote (index : nat) (st : AppState) : AppState :=
  match nth_error (filteredNotes (notes st) (selectedTag st) (searchTerm st)) index with
  | Some note => setIsEditing false (setSelectedNote (Some note) st)
  | None => st
  end.

(** *** The user's actions *)

Inductive Action :=
| NewNote (now : Date)
| Save (now : Date)
| Star (noteId : string) (now : Date)
| Archive (noteId : string) (now : Date)
| Delete (noteId : string)
| Edit
| Cancel
| TypeText (text : string)
| Search (term : string)
| PickTag (tag : string)
| PickNote (index : nat).

(** One action: the handler, then the save effect when the handler called
    [setNotes]. *)
Definition step (st : AppState) (a : Action) : AppState :=
  match a with
  | NewNote now => saveEffect (createNote now st)
  | Save now =>
      match saveNote now st with
      | Some st' => saveEffect st'
      | None => st
      end
  | Star noteId now => saveEffect (toggleStar noteId now st)
  | Archive noteId now => saveEffect (toggleArchive noteId now st)
  | Delete noteId => saveEffect (deleteNote noteId st)
  | Edit => startEditing st
  | Cancel => cancelEditing st
  | TypeText text => setEditContent text st
  | Search term => setSearchTerm term st
  | PickTag tag => setSelectedTag tag st
  | PickNote index => selectNote index st
  end.

Definition run (st : AppState) (actions : list Action) : AppState :=
  fold_left step actions st.

(** The states the application reaches from its first start. *)
Inductive Reachable : AppState -> Prop :=
| reach_seed (now : Date) : Reachable (seededState now)
| reach_step (st : AppState) (a : Action) :
    Reachable st -> Reachable (step st a).

(** *** Every reading of the clock on its own

    The handlers above give one reading to all the [new Date()] and
    [Date.now()] of an invocation. Here each of them takes the next value
    of the clock: [clock k] is the [k]-th value read since the start, and
    a handler returns the state with the number of readings taken so far.
    The user's gestures carry no time. *)
Section Clock.

Variable clock : nat -> Date.

(** [welcomeNote]: [createdAt: new Date(), updatedAt: new Date()]. *)
Definition welcomeNoteAt (k : nat) : Note * nat :=
  ({| id := "welcome";
      title := "Welcome to Bear Notes";
      content := welcomeContent;
      tags := ["welcome"; "getting-started"];
      createdAt := clock k;
      updatedAt := clock (S k);
      isStarred := true;
      isArchived := false |}, S (S k)).

(** The first render and its effects on an empty store. *)
Definition seededAt : AppState * nat :=
  let (welcome, k) := welcomeNoteAt 0 in
  (saveEffect (setSelectedNote (Some welcome)
                 (setNotes [welcome] (saveEffect (initialState None)))), k).

(** [createNote]: [Date.now()] for the id, then a [new Date()] for each
    of the two times. *)
Definition createNoteAt (k : nat) (st : AppState) : AppState * nat :=
  let newNote :=
    {| id := JSON.Number_toString (clock k);
       title := "Untitled Note";
       content := "";
       tags := [];
       createdAt := clock (S k);
       updatedAt := clock (S (S k));
       isStarred := false;
       isArchived := false |} in
  (setEditContent "" (setIsEditing true
     (setSelectedNote (Some newNote) (setNotes (newNote :: notes st) st))),
   S (S (S k))).

(** The callback of [notes.map] in [updateNote]: a [new Date()] for each
    note of the given id, in the order of the list. *)
Fixpoint mergeEachAt (noteId : string) (updates : NoteUpdates)
  (ns : list Note) (k : nat) : list Note * nat :=
  match ns with
  | [] => ([], k)
  | note :: rest =>
      if id note =? noteId then
        let (rest', k') := mergeEachAt noteId updates rest (S k) in
        (merge note updates (clock k) :: rest', k')
      else
        let (rest', k') := mergeEachAt noteId updates rest k in
        (note :: rest', k')
  end.

(** [updateNote]: the list first, then one more [new Date()] for the
    selected note when it has the id. *)
Definition updateNoteAt (noteId : string) (updates : NoteUpdates) (k : nat)
  (st : AppState) : AppState * nat :=
  let (ns, k1) := mergeEachAt noteId updates (notes st) k in
  let st1 := setNotes ns st in
  match selectedNote st with
  | Some sel =>
      if id sel =? noteId
      then (setSelectedNote (Some (merge sel updates (clock k1))) st1, S k1)
      else (st1, k1)
  | None => (st1, k1)
  end.

Definition saveNoteAt (k : nat) (st : AppState) : option (AppState * nat) :=
  match selectedNote st with
  | None => None
  | Some sel =>
      let tags := extractTags (editContent st) in
      let title := deriveTitle (editContent st) in
      let (st', k') :=
        updateNoteAt (id sel)
          (mkUpdates None (Some title) (Some (editContent st)) (Some tags)
                     None None None None) k st in
      Some (setIsEditing false st', k')
  end.

Definition toggleStarAt (noteId : string) (k : nat) (st : AppState)
  : AppState * nat :=
  updateNoteAt noteId
    (mkUpdates None None None None None None
               (Some (negatedFlag isStarred noteId (notes st))) None) k st.

Definition toggleArchiveAt (noteId : string) (k : nat) (st : AppState)
  : AppState * nat :=
  updateNoteAt noteId
    (mkUpdates None None None None None None None
               (Some (negatedFlag isArchived noteId (notes st)))) k st.

Inductive Gesture :=
| ClickNew
| ClickSave
| ClickStar (noteId : string)
| ClickArchive (noteId : string)
| ClickDelete (noteId : string)
| ClickEdit
| ClickCancel
| Typing (text : string)
| Searching (term : string)
| ClickTag (tag : string)
| ClickNote (index : nat).

(** The save effect behind a handler that read the clock. *)
Definition thenSave (r : AppState * nat) : AppState * nat :=
  (saveEffect (fst r), snd r).

(** One gesture: the handler, then the save effect when the handler
    called [setNotes]. *)
Definition stepAt (r : AppState * nat) (g : Gesture) : AppState * nat :=
  let (st, k) := r in
  match g with
  | ClickNew => thenSave (createNoteAt k st)
  | ClickSave =>
      match saveNoteAt k st with
      | Some r' => thenSave r'
      | None => (st, k)
      end
  | ClickStar noteId => thenSave (toggleStarAt noteId k st)
  | ClickArchive noteId => thenSave (toggleArchiveAt noteId k st)
  | ClickDelete noteId => (saveEffect (deleteNote noteId st), k)
  | ClickEdit => (startEditing st, k)
  | ClickCancel => (cancelEditing st, k)
  | Typing text => (setEditContent text st, k)
  | Searching term => (setSearchTerm term st, k)
  | ClickTag tag => (setSelectedTag tag st, k)
  | ClickNote index => (selectNote index st, k)
  end.

Definition runAt (gestures : list Gesture) : AppState * nat :=
  fold_left stepAt gestures seededAt.

End Clock.

(** ** The sidebar: tag list, counts and dates *)

(** [Array.from(new Set(xs))]: the elements in the order of their first
    occurrence. *)
Fixpoint dedupe (xs : list string) : list string :=
  match xs with
  | [] => []
  | x :: xs' => x :: filter (fun y => negb (y =? x)) (dedupe xs')
  end.

(** The two code units of a character beyond U+FFFF, [n] being its code
    point less 65536. *)
Definition surrogates (n : N) : list N := [55296 + n / 1024; 56320 + n mod 1024]%N.

(** The UTF-16 code units of the text whose UTF-8 encoding is [s]: the
    code point of each sequence of one to three bytes, and the surrogate
    pair of each sequence of four. (A byte that opens no well-formed
    sequence is taken as it is.) *)
Fixpoint codeUnits (s : string) : list N :=
  match s with
  | EmptyString => []
  | String b1 r1 =>
      let n1 := N_of_ascii b1 in
      if (n1 <? 192)%N then n1 :: codeUnits r1
      else
        match r1 with
        | EmptyString => [n1]
        | String b2 r2 =>
            let n2 := (N_of_ascii b2 mod 64)%N in
            if (n1 <? 224)%N then (n1 mod 32 * 64 + n2)%N :: codeUnits r2
            else
              match r2 with
              | EmptyString => n1 :: codeUnits r1
              | String b3 r3 =>
                  let n3 := (N_of_ascii b3 mod 64)%N in
                  if (n1 <? 240)%N
                  then (n1 mod 16 * 4096 + n2 * 64 + n3)%N :: codeUnits r3
                  else
                    match r3 with
                    | EmptyString => n1 :: codeUnits r1
                    | String b4 r4 =>
                        let n4 := (N_of_ascii b4 mod 64)%N in
                        (surrogates (n1 mod 8 * 262144 + n2 * 4096 + n3 * 64 + n4
                                     - 65536)
                         ++ codeUnits r4)%list
                    end
              end
        end
  end.

(** [xs] does not come behind [ys] in the lexicographic order. *)
Fixpoint lexLeb (xs ys : list N) : bool :=
  match xs, ys with
  | [], _ => true
  | _ :: _, [] => false
  | x :: xs', y :: ys' =>
      if (x <? y)%N then true
      else if (y <? x)%N then false
      else lexLeb xs' ys'
  end.

(** The order of the default [sort]: strings are compared by their UTF-16
    code units. [codeUnitsLeb x y] is [!(y < x)]. *)
Definition codeUnitsLeb (x y : string) : bool := lexLeb (codeUnits x) (codeUnits y).

(** The place of [x] in an ascending list. *)
Fixpoint insertSorted (x : string) (l : list string) : list string :=
  match l with
  | [] => [x]
  | y :: l' => if codeUnitsLeb x y then x :: l else y :: insertSorted x l'
  end.

(** [xs.sort()]: ascending in the order of the code units. *)
Definition Array_sort (xs : list string) : list string :=
  fold_right insertSorted [] xs.

(** [Array.from(new Set(notes.flatMap((note) => note.tags))).sort()] *)
Definition allTags (notes : list Note) : list string :=
  Array_sort (dedupe (flat_map tags notes)).

(** The counts shown beside the selectors of the sidebar. *)
Definition countAll (notes : list Note) : nat :=
  List.length (filter (fun n => negb (isArchived n)) notes).

Definition countStarred (notes : list Note) : nat :=
  List.length (filter (fun n => (isStarred n && negb (isArchived n))%bool) notes).

Definition countUntagged (notes : list Note) : nat :=
  List.length (filter (fun n => (Nat.eqb (List.length (tags n)) 0
                                 && negb (isArchived n))%bool) notes).

Definition countArchived (notes : list Note) : nat :=
  List.length (filter (fun n => isArchived n) notes).

Definition countTag (tag : string) (notes : list Note) : nat :=
  List.length (filter (fun n => (Array_includes (tags n) tag
                                 && negb (isArchived n))%bool) notes).

(** What [formatDate] returns: a fixed text, or the date in the en-US
    locale, whose text depends on the time zone of the browser. *)
Inductive DateText :=
| Text (s : string)
| LocaleDate (date now : Date).

Definition millisecondsPerDay : Z := (1000 * 60 * 60 * 24)%Z.

(** [Math.ceil(diffTime / (1000 * 60 * 60 * 24))]. The quotient is
    rounded to a double before [Math.ceil]; for a whole number of
    milliseconds no rounding crosses a whole number of days up to the
    eighth, the only ones [formatDate] tells apart. *)
Definition ceilDays (diffTime : Z) : Z := (- ((- diffTime) / millisecondsPerDay))%Z.

Definition formatDate (now date : Date) : DateText :=
  let diffTime := Z.abs (now - date) in
  let diffDays := ceilDays diffTime in
  if (diffDays =? 1)%Z then Text "Today"
  else if (diffDays =? 2)%Z then Text "Yesterday"
  else if (diffDays <=? 7)%Z
       then Text (JSON.Number_toString (diffDays - 1) ++ " days ago")
  else LocaleDate date now.

(** * Properties *)

(** ** Strings *)

Lemma append_assoc (s t u : string) : (s ++ t) ++ u = s ++ t ++ u.
Proof. induction s as [|c s IH]; simpl; [reflexivity | now rewrite IH]. Qed.

Lemma append_nil_r (s : string) : s ++ "" = s.
Proof. induction s as [|c s IH]; simpl; [reflexivity | now rewrite IH]. Qed.

Lemma prefix_append p s : String.prefix p (p ++ s) = true.
Proof.
  induction p as [|a p IH]; simpl; [now destruct s|].
  destruct (ascii_dec a a); [exact IH | congruence].
Qed.

Lemma prefix_iff p s : String.prefix p s = true <-> exists post, s = p ++ post.
Proof.
  split.
  - intros H. eexists. now apply prefix_slice.
  - intros [post ->]. apply prefix_append.
Qed.

(** [t] occurs in [s]. *)
Definition Substring (t s : string) : Prop :=
  exists pre post, s = pre ++ t ++ post.

Lemma includes_iff s sub : includes s sub = true <-> Substring sub s.
Proof.
  unfold Substring. induction s as [|c s IH]; cbn [includes].
  - rewrite prefix_iff. split.
    + intros [post H]. now exists "", post.
    + intros [[|a pre] [post H]]; [now exists post | discriminate].
  - rewrite orb_true_iff, prefix_iff, IH. split.
    + intros [[post H] | [pre [post H]]].
      * now exists "", post.
      * exists (String c pre), post. simpl. now rewrite H.
    + intros [[|a pre] [post H]].
      * left. now exists post.
      * right. simpl in H. injection H as _ H. now exists pre, post.
Qed.

(** ** C1, C8: the filter engine *)

Section SearchWith.

Variable lower : string -> string.

(** Occurrence of [term] in [text] after both went through [lower]: what
    the code has for a case-insensitive match. *)
Definition ContainsIgnoringCase (text term : string) : Prop :=
  Substring (lower term) (lower text).

(** The search predicate in the words of the specification: the term
    occurs, case-insensitively, in the title, the content or some tag. *)
Definition SearchMatch (term : string) (note : Note) : Prop :=
  ContainsIgnoringCase (title note) term
  \/ ContainsIgnoringCase (content note) term
  \/ exists tag, In tag (tags note) /\ ContainsIgnoringCase tag term.

Lemma matchesSearchWith_iff term note :
  matchesSearchWith lower term note = true <-> SearchMatch term note.
Proof.
  unfold matchesSearchWith, SearchMatch, ContainsIgnoringCase.
  rewrite !orb_true_iff, !includes_iff, existsb_exists.
  split.
  - intros [[H|H]|[tag [Hin H]]]; auto.
    right; right. exists tag. now rewrite <- includes_iff.
  - intros [H|[H|[tag [Hin H]]]]; auto.
    right. exists tag. now rewrite includes_iff.
Qed.

Lemma keepNoteWith_all term note :
  keepNoteWith lower "all" term note =
  if truthy term then matchesSearchWith lower term note else negb (isArchived note).
Proof.
  unfold keepNoteWith. cbn.
  destruct (truthy term); [reflexivity|]. now rewrite orb_false_r.
Qed.

End SearchWith.

(** C1. Under the selector "all": with an empty search term the result
    holds exactly the notes that are not archived; with a non-empty term it
    holds exactly the notes, archived or not, in which the term occurs
    case-insensitively in the title, the content or a tag. This holds
    whatever the lowercasing function of the platform does, so on every
    text. *)
Theorem filter_all_search_overrides_archive
  (lower : string -> string)
  (notes : list Note) (searchTerm : string) (note : Note) :
  In note (filteredNotesWith lower notes "all" searchTerm) <->
  In note notes /\
  match searchTerm with
  | EmptyString => isArchived note = false
  | _ => SearchMatch lower searchTerm note
  end.
Proof.
  unfold filteredNotesWith. rewrite filter_In, keepNoteWith_all.
  destruct searchTerm as [|c term]; cbn [truthy].
  - now rewrite negb_true_iff.
  - now rewrite matchesSearchWith_iff.
Qed.

(** A title in capitals beyond ASCII: under any lowercasing function that
    folds it to the term, as the one of the platform does, the archived
    note is found. *)
Example filter_all_folds_beyond_ascii (lower : string -> string) :
  let capitals := utf8 [195; 137]%N ++ "COLE" in
  let term := utf8 [195; 169]%N ++ "cole" in
  let note := mkNote "1" capitals "" [] 1%Z 2%Z false true in
  lower capitals = term -> lower term = term ->
  filteredNotesWith lower [note] "all" term = [note].
Proof.
  intros capitals term note Ht Hs.
  unfold filteredNotesWith. cbn [filter]. rewrite keepNoteWith_all.
  change (truthy term) with true. cbv iota.
  assert (Hm : matchesSearchWith lower term note = true).
  { apply matchesSearchWith_iff. left. unfold ContainsIgnoringCase.
    change (title note) with capitals. rewrite Ht, Hs.
    now exists "", "". }
  now rewrite Hm.
Qed.

(** [xs] is [ys] with some elements left out, the others in order. *)
Inductive Subsequence {A : Type} : list A -> list A -> Prop :=
| sub_nil : Subsequence [] []
| sub_keep x xs ys : Subsequence xs ys -> Subsequence (x :: xs) (x :: ys)
| sub_drop y xs ys : Subsequence xs ys -> Subsequence xs (y :: ys).

Lemma filter_Subsequence {A : Type} (f : A -> bool) (xs : list A) :
  Subsequence (filter f xs) xs.
Proof.
  induction xs as [|x xs IH]; simpl; [constructor|].
  destruct (f x); now constructor.
Qed.

(** C8. The filtered list is a subsequence of the note list, in the same
    relative order, whatever the selector and the search term; under
    "archived" with an empty term it is exactly the archived notes. *)
Theorem filter_preserves_order
  (notes : list Note) (selectedTag searchTerm : string) :
  Subsequence (filteredNotes notes selectedTag searchTerm) notes
  /\ filteredNotes notes "archived" "" = filter isArchived notes.
Proof.
  split; [apply filter_Subsequence|].
  unfold filteredNotes. apply filter_ext. intros n.
  unfold keepNote. cbn. destruct (isArchived n); reflexivity.
Qed.

(** ** C7: the renderer *)

Definition newline : string := String "010" EmptyString.

(** Every character of [s] satisfies [p]. *)
Definition AllChars (p : ascii -> bool) (s : string) : Prop :=
  forall c, In c (list_ascii_of_string s) -> p c = true.

Lemma forallb_iff p s : JSString.forallb p s = true <-> AllChars p s.
Proof.
  unfold AllChars. induction s as [|a s IH]; simpl.
  - split; [intros _ c [] | reflexivity].
  - rewrite andb_true_iff, IH. split.
    + intros [Ha Hs] c [<-|Hc]; auto.
    + intros H. split; [apply H; now left | intros c Hc; apply H; now right].
Qed.

Definition notLineFeed (c : ascii) : bool := negb (Ascii.eqb c "010").

Lemma splitLines_nonempty s : splitLines s <> [].
Proof.
  destruct s as [|c s]; simpl; [discriminate|].
  destruct (Ascii.eqb c "010"); [discriminate|].
  destruct (splitLines s); discriminate.
Qed.

(** The lines joined by line feeds give the text back. *)
Lemma splitLines_concat s : String.concat newline (splitLines s) = s.
Proof.
  induction s as [|c s IH]; [reflexivity|].
  cbn [splitLines]. destruct (Ascii.eqb_spec c "010") as [->|Hc].
  - pose proof (splitLines_nonempty s) as Hne.
    cbn [String.concat]. destruct (splitLines s) as [|l ls] eqn:E; [congruence|].
    rewrite IH. reflexivity.
  - destruct (splitLines s) as [|l ls] eqn:E.
    + now destruct (splitLines_nonempty s).
    + rewrite <- IH. destruct ls; reflexivity.
Qed.

Lemma splitLines_no_newline s :
  Forall (fun line => JSString.forallb notLineFeed line = true) (splitLines s).
Proof.
  induction s as [|c s IH]; [repeat constructor|].
  cbn [splitLines]. destruct (Ascii.eqb c "010") eqn:Hc.
  - constructor; [reflexivity | exact IH].
  - assert (Hn : notLineFeed c = true) by (unfold notLineFeed; now rewrite Hc).
    destruct (splitLines s) as [|l ls]; inversion IH; subst;
      constructor; try assumption; cbn [JSString.forallb]; rewrite Hn; auto.
Qed.

Lemma mapi_from_block (i : nat) (lines : list string) :
  map block (mapi_from (fun line index => mkElement index (renderLine line)) i lines)
  = map renderLine lines.
Proof.
  revert i; induction lines as [|l ls IH]; intros i; simpl; [reflexivity|].
  now rewrite IH.
Qed.

Lemma mapi_from_key (i : nat) (lines : list string) :
  map key (mapi_from (fun line index => mkElement index (renderLine line)) i lines)
  = seq i (List.length lines).
Proof.
  revert i; induction lines as [|l ls IH]; intros i; simpl; [reflexivity|].
  now rewrite IH.
Qed.

(** A line of white space only. *)
Inductive Blank : string -> Prop :=
| blank_nil : Blank ""
| blank_cons w rest : In w whiteSpace -> Blank rest -> Blank (w ++ rest).

Lemma trimIsEmpty_step c s :
  trimIsEmpty (String c s) =
  match stripBlank (String c s) with
  | Some rest => trimIsEmpty rest
  | None => false
  end.
Proof.
  simp trimIsEmpty.
  destruct (inspect (stripBlank (String c s))) as [[rest|] Heq];
    simp trimIsEmpty; rewrite Heq; reflexivity.
Qed.

(** No element of [ws] is the beginning of another. *)
Definition prefixFree (ws : list string) : bool :=
  List.forallb (fun a => List.forallb (fun b => implb (String.prefix a b) (a =? b)) ws) ws.

Lemma prefix_comparable a b s :
  String.prefix a s = true -> String.prefix b s = true ->
  String.prefix a b = true \/ String.prefix b a = true.
Proof.
  revert b s; induction a as [|x a IH]; intros b s Ha Hb; [left; now destruct b|].
  destruct b as [|y b]; [right; reflexivity|].
  destruct s as [|z s]; [discriminate|].
  cbn [String.prefix] in *.
  destruct (ascii_dec x z) as [->|]; [|discriminate].
  destruct (ascii_dec y z) as [->|]; [|discriminate].
  destruct (ascii_dec z z); [|congruence].
  now apply (IH b s).
Qed.

Lemma slice_append w r : slice (String.length w) (w ++ r) = r.
Proof. induction w as [|c w IH]; [reflexivity | exact IH]. Qed.

Lemma stripAny_complete ws w r :
  prefixFree ws = true -> In w ws -> stripAny ws (w ++ r) = Some r.
Proof.
  intros Hfree Hin.
  assert (Hpf : forall a b, In a ws -> In b ws -> String.prefix a b = true -> a = b).
  { intros a b Ha Hb Hp. unfold prefixFree in Hfree.
    rewrite forallb_forall in Hfree. specialize (Hfree a Ha).
    rewrite forallb_forall in Hfree. specialize (Hfree b Hb).
    rewrite Hp in Hfree. now apply String.eqb_eq. }
  clear Hfree.
  assert (Hgen : forall l, (forall a, In a l -> In a ws) -> In w l ->
                           stripAny l (w ++ r) = Some r).
  { induction l as [|w0 l IH]; intros Hsub Hl; [destruct Hl|].
    cbn [stripAny]. destruct (String.prefix w0 (w ++ r)) eqn:Hp.
    - assert (E : w0 = w).
      { destruct (prefix_comparable w0 w (w ++ r) Hp (prefix_append w r)) as [H|H].
        - apply Hpf; auto. apply Hsub. now left.
        - symmetry. apply Hpf; auto. apply Hsub. now left. }
      subst w0. now rewrite slice_append.
    - destruct Hl as [->|Hl]; [now rewrite prefix_append in Hp|].
      apply IH; [|exact Hl]. intros a Ha. apply Hsub. now right. }
  now apply Hgen.
Qed.

Lemma whiteSpace_prefixFree : prefixFree whiteSpace = true.
Proof. vm_compute. reflexivity. Qed.

Lemma whiteSpace_nonempty w : In w whiteSpace -> exists c w', w = String c w'.
Proof.
  revert w. apply Forall_forall. unfold whiteSpace.
  repeat constructor; eexists _, _; reflexivity.
Qed.

(** [trimIsEmpty] holds of the lines of white space only. *)
Lemma trimIsEmpty_iff s : trimIsEmpty s = true <-> Blank s.
Proof.
  split.
  - remember (String.length s) as n eqn:Hn. revert s Hn.
    induction n as [n IH] using lt_wf_ind. intros s Hn H.
    destruct s as [|c s]; [constructor|].
    rewrite trimIsEmpty_step in H.
    destruct (stripBlank (String c s)) as [rest|] eqn:E; [|discriminate].
    pose proof (stripBlank_shorter _ _ E) as Hlt.
    destruct (stripAny_spec _ _ _ E) as [w [Hin ->]].
    constructor; [exact Hin|].
    apply (IH (String.length rest)); [lia | reflexivity | exact H].
  - induction 1 as [|w rest Hin _ IH]; [reflexivity|].
    destruct (whiteSpace_nonempty w Hin) as [c [w' E]].
    pose proof (stripAny_complete whiteSpace w rest whiteSpace_prefixFree Hin) as Hs.
    rewrite E in *. cbn [append] in *. rewrite trimIsEmpty_step.
    unfold stripBlank. now rewrite Hs.
Qed.

(** The classification of one line in the words of the specification. *)
Inductive LineClass : string -> Block -> Prop :=
| class_h1 rest : LineClass ("# " ++ rest) (Heading 1 rest)
| class_h2 rest : LineClass ("## " ++ rest) (Heading 2 rest)
| class_h3 rest : LineClass ("### " ++ rest) (Heading 3 rest)
| class_item rest : LineClass ("- " ++ rest) (ListItem rest)
| class_break line : Blank line -> LineClass line LineBreak
| class_paragraph line :
    ~ Blank line ->
    (forall p, In p ["# "; "## "; "### "; "- "] -> forall rest, line <> p ++ rest) ->
    LineClass line (Paragraph (formatInline line)).

Lemma startsWith_false line p :
  startsWith line p = false -> forall rest, line <> p ++ rest.
Proof.
  intros H rest ->. unfold startsWith in H. now rewrite prefix_append in H.
Qed.

Lemma blank_no_prefix line p rest :
  In p ["# "; "## "; "### "; "- "] -> Blank line -> line <> p ++ rest.
Proof.
  intros Hp Hb ->. apply trimIsEmpty_iff in Hb.
  assert (H : exists c s, p ++ rest = String c s
                          /\ stripBlank (String c s) = None).
  { destruct Hp as [<-|[<-|[<-|[<-|[]]]]]; eexists _, _; split; reflexivity. }
  destruct H as [c [s [E Hc]]]. rewrite E, trimIsEmpty_step, Hc in Hb.
  discriminate.
Qed.

Lemma renderLine_classified line : LineClass line (renderLine line).
Proof.
  unfold renderLine.
  destruct (startsWith line "# ") eqn:H1.
  { apply prefix_slice in H1. rewrite H1 at 1. constructor. }
  destruct (startsWith line "## ") eqn:H2.
  { apply prefix_slice in H2. rewrite H2 at 1. constructor. }
  destruct (startsWith line "### ") eqn:H3.
  { apply prefix_slice in H3. rewrite H3 at 1. constructor. }
  destruct (startsWith line "- ") eqn:H4.
  { apply prefix_slice in H4. rewrite H4 at 1. constructor. }
  destruct (trimIsEmpty line) eqn:Hb.
  - constructor. now apply trimIsEmpty_iff.
  - constructor.
    + rewrite <- trimIsEmpty_iff. congruence.
    + intros p [<-|[<-|[<-|[<-|[]]]]]; now apply startsWith_false.
Qed.

Lemma renderLine_prefixed rest :
  renderLine ("# " ++ rest) = Heading 1 rest
  /\ renderLine ("## " ++ rest) = Heading 2 rest
  /\ renderLine ("### " ++ rest) = Heading 3 rest
  /\ renderLine ("- " ++ rest) = ListItem rest.
Proof.
  unfold renderLine, startsWith. repeat split.
  - now rewrite (prefix_append "# ").
  - now rewrite (prefix_append "## ").
  - now rewrite (prefix_append "### ").
  - now rewrite (prefix_append "- ").
Qed.

Lemma LineClass_functional line b : LineClass line b -> b = renderLine line.
Proof.
  intros H. destruct H as [rest|rest|rest|rest|line Hb|line Hnb Hp].
  - symmetry. apply renderLine_prefixed.
  - symmetry. apply renderLine_prefixed.
  - symmetry. apply renderLine_prefixed.
  - symmetry. apply renderLine_prefixed.
  - pose proof (renderLine_classified line) as Hc.
    inversion Hc as [r E|r E|r E|r E|l Hb' E|l Hnb E]; subst;
      try reflexivity; try contradiction;
      exfalso; eapply blank_no_prefix; try exact Hb; try reflexivity; simpl; tauto.
  - pose proof (renderLine_classified line) as Hc.
    inversion Hc as [r E|r E|r E|r E|l Hb' E|l Hnb' Hp' E]; subst;
      try reflexivity; try contradiction;
      exfalso; eapply Hp; try reflexivity; simpl; tauto.
Qed.

(** C7. [renderContent] splits its input on line feeds (the lines joined
    by line feeds are the input, and no line holds one), yields one element
    per line, keyed by the line's index, whose block depends on that line
    alone, and classifies a line as the specification says: the prefixes
    "# ", "## ", "### " give headings 1, 2, 3 of the remainder, "- " a list
    item of the remainder, a line of blanks only a line break, any other
    line a paragraph. So "# Hello" gives one heading 1 "Hello" and
    "- item" one list item "item". *)
Theorem render_line_by_line :
  (forall content,
      String.concat newline (splitLines content) = content
      /\ Forall (fun line => AllChars notLineFeed line) (splitLines content)
      /\ map block (renderContent content) = map renderLine (splitLines content)
      /\ map key (renderContent content) = seq 0 (List.length (splitLines content)))
  /\ (forall line block, LineClass line block <-> block = renderLine line)
  /\ renderContent "# Hello" = [mkElement 0 (Heading 1 "Hello")]
  /\ renderContent "- item" = [mkElement 0 (ListItem "item")].
Proof.
  split; [|split; [|split; reflexivity]].
  - intros content. split; [apply splitLines_concat|]. split.
    + eapply Forall_impl; [|apply splitLines_no_newline].
      intros line H. now apply forallb_iff.
    + split; [apply mapi_from_block | apply mapi_from_key].
  - intros line b. split; [apply LineClass_functional|].
    intros ->. apply renderLine_classified.
Qed.

(** ** C2: tag extraction *)

(** [s] begins with a character satisfying [p]. *)
Definition HeadSatisfies (p : ascii -> bool) (s : string) : Prop :=
  exists c r, s = String c r /\ p c = true.

Lemma takeWhile_dropWhile p s : takeWhile p s ++ dropWhile p s = s.
Proof.
  induction s as [|c s IH]; simpl; [reflexivity|].
  destruct (p c); simpl; [now rewrite IH | reflexivity].
Qed.

Lemma takeWhile_all p s : AllChars p (takeWhile p s).
Proof.
  induction s as [|c s IH]; simpl; [intros c []|].
  destruct (p c) eqn:Hc; [|intros c' []].
  intros c' [<-|H]; auto.
Qed.

Lemma dropWhile_head p s : ~ HeadSatisfies p (dropWhile p s).
Proof.
  induction s as [|c s IH]; simpl.
  - intros [c [r [H _]]]; discriminate.
  - destruct (p c) eqn:Hc; [exact IH|].
    intros [c' [r [H Hc']]]. injection H as <- _. congruence.
Qed.

Lemma span_unique p tok rest :
  AllChars p tok -> ~ HeadSatisfies p rest ->
  takeWhile p (tok ++ rest) = tok /\ dropWhile p (tok ++ rest) = rest.
Proof.
  intros Htok Hrest. induction tok as [|c tok IH]; simpl.
  - destruct rest as [|c r]; simpl; [auto|].
    destruct (p c) eqn:Hc; [|auto].
    destruct Hrest. now exists c, r.
  - rewrite (Htok c (or_introl eq_refl)).
    destruct IH as [IH1 IH2]; [intros c' H; apply Htok; now right|].
    now rewrite IH1, IH2.
Qed.

(** The tokens of a text in the words of the specification: read from the
    left, each [#] directly followed by word characters or hyphens opens a
    token made of the longest such run; every other character is passed
    over. The tokens are listed without their [#], one per occurrence. *)
Inductive TagScan : string -> list string -> Prop :=
| scan_end : TagScan "" []
| scan_other c s toks :
    c <> "#"%char \/ ~ HeadSatisfies isTagChar s ->
    TagScan s toks -> TagScan (String c s) toks
| scan_token tok rest toks :
    tok <> "" -> AllChars isTagChar tok -> ~ HeadSatisfies isTagChar rest ->
    TagScan rest toks -> TagScan ("#" ++ tok ++ rest) (tok :: toks).

Lemma matchAllTags_step c s :
  matchAllTags (String c s) =
  match matchTagAt (String c s) with
  | Some (m, rest) => m :: matchAllTags rest
  | None => matchAllTags s
  end.
Proof.
  simp matchAllTags.
  destruct (inspect (matchTagAt (String c s))) as [[[m rest]|] Heq];
    simp matchAllTags; rewrite Heq; reflexivity.
Qed.

Lemma matchTagAt_token tok rest :
  tok <> "" -> AllChars isTagChar tok -> ~ HeadSatisfies isTagChar rest ->
  matchTagAt ("#" ++ tok ++ rest) = Some ("#" ++ tok, rest).
Proof.
  intros Hne Htok Hrest. cbn [append matchTagAt].
  destruct (span_unique isTagChar tok rest Htok Hrest) as [-> ->].
  cbn. destruct tok; [congruence | reflexivity].
Qed.

Lemma matchTagAt_other c s :
  c <> "#"%char \/ ~ HeadSatisfies isTagChar s -> matchTagAt (String c s) = None.
Proof.
  intros H. cbn [matchTagAt]. destruct (Ascii.eqb_spec c "#") as [->|Hc]; [|reflexivity].
  destruct H as [H|H]; [congruence|].
  destruct s as [|a s]; [reflexivity|]. cbn [takeWhile].
  destruct (isTagChar a) eqn:Ha; [|reflexivity].
  destruct H. now exists a, s.
Qed.

Lemma matchTagAt_inv s m rest :
  matchTagAt s = Some (m, rest) ->
  exists tok, m = "#" ++ tok /\ s = "#" ++ tok ++ rest /\ tok <> ""
              /\ AllChars isTagChar tok /\ ~ HeadSatisfies isTagChar rest.
Proof.
  destruct s as [|c s]; cbn [matchTagAt]; [discriminate|].
  destruct (Ascii.eqb_spec c "#") as [->|Hc]; [|discriminate].
  pose proof (takeWhile_dropWhile isTagChar s) as Hsplit.
  pose proof (takeWhile_all isTagChar s) as Hall.
  destruct (takeWhile isTagChar s) as [|a tok] eqn:E; [discriminate|].
  intros H; injection H as <- <-.
  exists (String a tok). split; [reflexivity|]. split; [|split; [|split]].
  - cbn. f_equal. symmetry. exact Hsplit.
  - discriminate.
  - exact Hall.
  - apply dropWhile_head.
Qed.

Lemma TagScan_matches text toks :
  TagScan text toks -> matchAllTags text = map (String "#") toks.
Proof.
  induction 1 as [|c s toks Hc _ IH|tok rest toks Hne Htok Hrest _ IH].
  - reflexivity.
  - now rewrite matchAllTags_step, matchTagAt_other.
  - change ("#" ++ tok ++ rest) with (String "#" (tok ++ rest)).
    rewrite matchAllTags_step.
    change (String "#" (tok ++ rest)) with ("#" ++ tok ++ rest).
    rewrite matchTagAt_token by assumption. now rewrite IH.
Qed.

Lemma TagScan_total text : exists toks, TagScan text toks.
Proof.
  remember (String.length text) as n eqn:Hn.
  revert text Hn. induction n as [n IH] using lt_wf_ind. intros text Hn.
  destruct text as [|c s]; [exists []; constructor|].
  destruct (matchTagAt (String c s)) as [[m rest]|] eqn:E.
  - pose proof (matchTagAt_shorter _ _ _ E) as Hlt.
    destruct (matchTagAt_inv _ _ _ E) as [tok [-> [Hs [Hne [Htok Hrest]]]]].
    destruct (IH (String.length rest)) with (text := rest) as [toks Htoks];
      [lia | reflexivity |].
    exists (tok :: toks). rewrite Hs. now constructor.
  - destruct (IH (String.length s)) with (text := s) as [toks Htoks];
      [simpl in Hn; lia | reflexivity |].
    exists toks. constructor; [|assumption].
    destruct (Ascii.eqb_spec c "#") as [->|Hc]; [|now left].
    right. intros [a [r [-> Ha]]].
    cbn in E. rewrite Ha in E. discriminate.
Qed.

Lemma extractTags_matches text :
  extractTags text = map (fun tag => toLowerCase (slice 1 tag)) (matchAllTags text).
Proof.
  unfold extractTags, String_match_tags.
  destruct (matchAllTags text); reflexivity.
Qed.

(** C2, as the code has it. [extractTags] returns one tag for each token
    [#[A-Za-z0-9_-]+] of the text, in the order of occurrence: the token
    without its [#], lowercased. A token that occurs several times gives
    its tag several times. *)
Theorem extractTags_one_tag_per_token (text : string) :
  (exists toks, TagScan text toks)
  /\ (forall toks, TagScan text toks -> extractTags text = map toLowerCase toks).
Proof.
  split; [apply TagScan_total|].
  intros toks H. rewrite extractTags_matches, (TagScan_matches _ _ H), map_map.
  reflexivity.
Qed.

Lemma extractTags_one_tag_per_token_witness :
  TagScan "#a #a" ["a"; "a"] /\ extractTags "#a #a" = ["a"; "a"].
Proof.
  assert (H : TagScan "#a #a" ["a"; "a"]).
  { apply (scan_token "a" " #a" ["a"]); [discriminate | | |].
    - intros c [<-|[]]; reflexivity.
    - intros [c [r [E Hc]]]. injection E as <- _. discriminate.
    - apply scan_other; [left; discriminate|].
      apply (scan_token "a" "" []); [discriminate | | |constructor].
      + intros c [<-|[]]; reflexivity.
      + intros [c [r [E _]]]. discriminate. }
  split; [exact H|].
  exact (proj2 (extractTags_one_tag_per_token "#a #a") ["a"; "a"] H).
Defined.

(** C2 fails as stated: the same token twice gives the same tag twice. *)
Lemma extractTags_keeps_duplicates :
  extractTags "#a #a" = ["a"; "a"] /\ ~ NoDup (extractTags "#a #a").
Proof.
  split; [reflexivity|].
  change (extractTags "#a #a") with ["a"; "a"].
  intros H. inversion H as [|x l Hnin _]; subst. apply Hnin. now left.
Qed.

(** ** C5: [updateNote] *)

(** What an update does to one note of the list, in the words of the
    specification: a note with the given id gets the fields carried by the
    update and the current time as [updatedAt], and keeps its [id] and
    [createdAt]; any other note stays as it is. *)
Definition UpdatedAs (noteId : string) (updates : NoteUpdates) (now : Date)
  (old new : Note) : Prop :=
  if id old =? noteId then
    id new = id old
    /\ createdAt new = createdAt old
    /\ updatedAt new = now
    /\ title new = orElse (u_title updates) (title old)
    /\ content new = orElse (u_content updates) (content old)
    /\ tags new = orElse (u_tags updates) (tags old)
    /\ isStarred new = orElse (u_isStarred updates) (isStarred old)
    /\ isArchived new = orElse (u_isArchived updates) (isArchived old)
  else new = old.

Lemma notes_updateNote noteId updates now st :
  notes (updateNote noteId updates now st) =
  map (fun note => if id note =? noteId then merge note updates now else note)
      (notes st).
Proof.
  unfold updateNote. destruct (selectedNote st) as [sel|]; [|reflexivity].
  destruct (id sel =? noteId); reflexivity.
Qed.

Lemma localStorage_updateNote noteId updates now st :
  localStorage (updateNote noteId updates now st) = localStorage st.
Proof.
  unfold updateNote. destruct (selectedNote st) as [sel|]; [|reflexivity].
  destruct (id sel =? noteId); reflexivity.
Qed.

(** C5, as the code has it. When the update carries neither [id] nor
    [createdAt], every note with the given id gets the carried fields and
    [updatedAt = now] and keeps its [id] and [createdAt], and every other
    note is unchanged. When no note has the id, the list is unchanged,
    whatever the update carries. *)
Theorem updateNote_frame
  (noteId : string) (updates : NoteUpdates) (now : Date) (st : AppState) :
  (u_id updates = None -> u_createdAt updates = None ->
   Forall2 (UpdatedAs noteId updates now)
           (notes st) (notes (updateNote noteId updates now st)))
  /\ ((forall n, In n (notes st) -> id n <> noteId) ->
      notes (updateNote noteId updates now st) = notes st).
Proof.
  rewrite notes_updateNote. split.
  - intros Hid Hcreated.
    induction (notes st) as [|n ns IH]; simpl; constructor; [|exact IH].
    unfold UpdatedAs. destruct (id n =? noteId); [|reflexivity].
    unfold merge; simpl. rewrite Hid, Hcreated. simpl. tauto.
  - intros Habsent. induction (notes st) as [|n ns IH]; simpl; [reflexivity|].
    rewrite IH by (intros n' Hn'; apply Habsent; now right).
    destruct (String.eqb_spec (id n) noteId) as [E|_]; [|reflexivity].
    destruct (Habsent n (or_introl eq_refl) E).
Qed.

Definition identityUpdate : NoteUpdates :=
  mkUpdates (Some "other") None None None (Some 0%Z) None None None.

Definition starUpdate : NoteUpdates :=
  mkUpdates None None None None None None (Some true) None.

Lemma updateNote_frame_witness :
  Forall2 (UpdatedAs "welcome" starUpdate 9%Z)
          (notes (seededState 5%Z))
          (notes (updateNote "welcome" starUpdate 9%Z (seededState 5%Z)))
  /\ notes (updateNote "absent" identityUpdate 9%Z (seededState 5%Z))
     = notes (seededState 5%Z).
Proof.
  split.
  - exact (proj1 (updateNote_frame "welcome" starUpdate 9%Z (seededState 5%Z))
                 eq_refl eq_refl).
  - apply (proj2 (updateNote_frame "absent" identityUpdate 9%Z (seededState 5%Z))).
    intros n [<-|[]]. discriminate.
Defined.

(** C5 fails as stated: an update that carries [id] and [createdAt]
    overwrites both in the matching note. *)
Lemma updateNote_overwrites_identity :
  map id (notes (seededState 5%Z)) = ["welcome"]
  /\ map createdAt (notes (seededState 5%Z)) = [5%Z]
  /\ map id (notes (updateNote "welcome" identityUpdate 9%Z (seededState 5%Z)))
     = ["other"]
  /\ map createdAt (notes (updateNote "welcome" identityUpdate 9%Z (seededState 5%Z)))
     = [0%Z]
  /\ ~ Forall2 (UpdatedAs "welcome" identityUpdate 9%Z)
         (notes (seededState 5%Z))
         (notes (updateNote "welcome" identityUpdate 9%Z (seededState 5%Z))).
Proof.
  repeat (split; [reflexivity|]).
  intros H. inversion H as [|old new olds news Hu _]; subst.
  unfold UpdatedAs in Hu. cbn in Hu. destruct Hu as [Hid _]. discriminate.
Qed.

(** ** C4: persistence *)

(** The actions whose handler calls [setNotes]: create, update, delete. *)
Definition mutates (st : AppState) (a : Action) : bool :=
  match a with
  | NewNote _ | Star _ _ | Archive _ _ | Delete _ => true
  | Save _ => match selectedNote st with Some _ => true | None => false end
  | _ => false
  end.

Lemma saveEffect_cases st :
  notes (saveEffect st) = notes st
  /\ match notes st with
     | [] => localStorage (saveEffect st) = localStorage st
     | _ => localStorage (saveEffect st) = Some (JSON.stringify (notes st))
     end.
Proof.
  unfold saveEffect. destruct (notes st) as [|n ns] eqn:E; simpl.
  - now rewrite E.
  - split; [exact E | reflexivity].
Qed.

Lemma localStorage_deleteNote noteId st :
  localStorage (deleteNote noteId st) = localStorage st.
Proof.
  unfold deleteNote. destruct (selectedNote st) as [sel|]; [|reflexivity].
  destruct (id sel =? noteId); reflexivity.
Qed.

(** The state in which the save effect runs, and it leaves the store as the
    state before the action had it. *)
Lemma mutates_step st a :
  mutates st a = true ->
  exists st1, step st a = saveEffect st1 /\ localStorage st1 = localStorage st.
Proof.
  destruct a as [now|now|noteId now|noteId now|noteId| | |text|term|tag|index];
    cbn [mutates step]; try discriminate; intros H.
  - eexists; split; reflexivity.
  - unfold saveNote. destruct (selectedNote st) as [sel|]; [|discriminate].
    eexists; split; [reflexivity|].
    cbn. apply localStorage_updateNote.
  - eexists; split; [reflexivity | apply localStorage_updateNote].
  - eexists; split; [reflexivity | apply localStorage_updateNote].
  - eexists; split; [reflexivity | apply localStorage_deleteNote].
Qed.

(** C4, as the code has it. After a create, update or delete that leaves
    at least one note, the store holds the serialization of the whole
    current list; when the list has become empty nothing is written and
    the store keeps what it held. *)
Theorem mutation_writes_nonempty_list (st : AppState) (a : Action) :
  mutates st a = true ->
  match notes (step st a) with
  | [] => localStorage (step st a) = localStorage st
  | _ => localStorage (step st a) = Some (JSON.stringify (notes (step st a)))
  end.
Proof.
  intros H. destruct (mutates_step st a H) as [st1 [-> Hst1]].
  destruct (saveEffect_cases st1) as [Hn Hs]. rewrite Hn.
  destruct (notes st1); [now rewrite Hs | exact Hs].
Qed.

Lemma mutation_writes_nonempty_list_witness :
  localStorage (step (seededState 5%Z) (NewNote 7%Z))
  = Some (JSON.stringify (notes (step (seededState 5%Z) (NewNote 7%Z)))).
Proof.
  exact (mutation_writes_nonempty_list (seededState 5%Z) (NewNote 7%Z) eq_refl).
Defined.

(** C4 fails as stated: deleting the only note leaves an empty list, the
    save effect writes nothing, and the store still holds the welcome
    note. *)
Lemma delete_last_note_writes_nothing :
  notes (step (seededState 5%Z) (Delete "welcome")) = []
  /\ localStorage (step (seededState 5%Z) (Delete "welcome"))
     = Some (JSON.stringify [welcomeNote 5%Z])
  /\ localStorage (step (seededState 5%Z) (Delete "welcome"))
     <> Some (JSON.stringify (notes (step (seededState 5%Z) (Delete "welcome")))).
Proof.
  split; [reflexivity|]. split; [reflexivity|].
  vm_compute. discriminate.
Qed.

(** ** The parser model and its fuel *)

Module JSONFacts.
Import JSON.

(** A lexeme parser that leaves no more than it was given. *)
Definition Shrinks {A : Type} (p : string -> option (A * string)) : Prop :=
  forall s a r, p s = Some (a, r) -> String.length r <= String.length s.

(** A parser that consumes at least one character. *)
Definition Consumes {A : Type} (p : string -> option (A * string)) : Prop :=
  forall s a r, p s = Some (a, r) -> String.length r < String.length s.

Lemma Consumes_Shrinks {A} (p : string -> option (A * string)) :
  Consumes p -> Shrinks p.
Proof. intros H s a r E. specialize (H s a r E). lia. Qed.

Lemma skipWs_length s : String.length (skipWs s) <= String.length s.
Proof. apply dropWhile_length. Qed.

Lemma consLexeme_inv p x l r :
  consLexeme p x = Some (l, r) -> exists l', x = Some (l', r).
Proof.
  destruct x as [[l' r']|]; simpl; [|discriminate].
  intros [= _ <-]. now exists l'.
Qed.

Lemma parseChars_consumes : Consumes parseChars.
Proof.
  assert (H : forall n s, String.length s <= n -> forall l r,
                parseChars s = Some (l, r) -> String.length r < String.length s).
  { induction n as [|n IH]; intros s Hn l r.
    - destruct s; [discriminate | simpl in Hn; lia].
    - destruct s as [|c s]; cbn [parseChars]; [discriminate|].
      destruct (Ascii.eqb c "034"); [intros [= _ <-]; simpl; lia|].
      destruct (Ascii.eqb c "092").
      + destruct s as [|e s]; [discriminate|].
        destruct (isSimpleEscape e).
        * intros H. apply consLexeme_inv in H. destruct H as [l' H].
          apply IH in H; simpl in *; lia.
        * destruct (Ascii.eqb e "u"); [|discriminate].
          destruct s as [|h1 [|h2 [|h3 [|h4 s]]]]; try discriminate.
          destruct (isHex h1 && isHex h2 && isHex h3 && isHex h4)%bool; [|discriminate].
          intros H. apply consLexeme_inv in H. destruct H as [l' H].
          apply IH in H; simpl in *; lia.
      + destruct (N_of_ascii c <? 32)%N; [discriminate|].
        intros H. apply consLexeme_inv in H. destruct H as [l' H].
        apply IH in H; simpl in *; lia. }
  intros s l r. now apply (H (String.length s)).
Qed.

Lemma optional_shrinks p : Shrinks p -> Shrinks (optional p).
Proof.
  intros Hp s a r. unfold optional. destruct (p s) as [[a' r']|] eqn:E.
  - intros [= <- <-]. now apply (Hp s a').
  - intros [= _ <-]. lia.
Qed.

Lemma andThen_shrinks p q : Shrinks p -> Shrinks q -> Shrinks (andThen p q).
Proof.
  intros Hp Hq s a r. unfold andThen. destruct (p s) as [[a' r']|] eqn:E; [|discriminate].
  intros H. apply consLexeme_inv in H. destruct H as [l' H].
  apply Hp in E. apply Hq in H. lia.
Qed.

Lemma andThen_consumes_l p q : Consumes p -> Shrinks q -> Consumes (andThen p q).
Proof.
  intros Hp Hq s a r. unfold andThen. destruct (p s) as [[a' r']|] eqn:E; [|discriminate].
  intros H. apply consLexeme_inv in H. destruct H as [l' H].
  apply Hp in E. apply Hq in H. lia.
Qed.

Lemma andThen_consumes_r p q : Shrinks p -> Consumes q -> Consumes (andThen p q).
Proof.
  intros Hp Hq s a r. unfold andThen. destruct (p s) as [[a' r']|] eqn:E; [|discriminate].
  intros H. apply consLexeme_inv in H. destruct H as [l' H].
  apply Hp in E. apply Hq in H. lia.
Qed.

Lemma charIn_consumes cs : Consumes (charIn cs).
Proof.
  intros [|c s] a r; cbn [charIn]; [discriminate|].
  destruct (includes cs _); [|discriminate]. intros [= _ <-]. simpl; lia.
Qed.

Lemma digits1_consumes : Consumes digits1.
Proof.
  intros s a r. unfold digits1.
  pose proof (takeWhile_dropWhile isDigit s) as E.
  destruct (takeWhile isDigit s) as [|d ds]; [discriminate|].
  intros [= _ <-]. rewrite <- E at 2. rewrite length_append. simpl. lia.
Qed.

Lemma intPart_consumes : Consumes intPart.
Proof.
  intros [|c s] a r; cbn [intPart]; [discriminate|].
  destruct (Ascii.eqb c "0"); [intros [= _ <-]; simpl; lia|].
  apply digits1_consumes.
Qed.

Lemma parseNumber_consumes : Consumes parseNumber.
Proof.
  unfold parseNumber.
  apply andThen_consumes_r; [apply optional_shrinks, Consumes_Shrinks, charIn_consumes|].
  apply andThen_consumes_l; [apply intPart_consumes|].
  apply andThen_shrinks; apply optional_shrinks, Consumes_Shrinks.
  - apply andThen_consumes_l; [apply charIn_consumes | apply Consumes_Shrinks, digits1_consumes].
  - apply andThen_consumes_l; [apply charIn_consumes|].
    apply andThen_shrinks; [|apply Consumes_Shrinks, digits1_consumes].
    apply optional_shrinks, Consumes_Shrinks, charIn_consumes.
Qed.

Lemma literal_consumes word v :
  word <> "" -> Consumes (literal word v).
Proof.
  intros Hw s a r. unfold literal.
  destruct (String.prefix word s) eqn:Hp; [|discriminate].
  intros [= _ <-]. rewrite (prefix_slice _ _ Hp) at 2. rewrite length_append.
  destruct word; [congruence | simpl; lia].
Qed.

Lemma skipWs_cons s c r :
  skipWs s = String c r -> String.length r < String.length s.
Proof.
  intros E. pose proof (skipWs_length s) as H. rewrite E in H. simpl in H. lia.
Qed.

Lemma parseItems_consumes pv n : Consumes pv -> Consumes (parseItems pv n).
Proof.
  intros Hpv. induction n as [|n IH]; intros s vs r; cbn [parseItems]; [discriminate|].
  destruct (skipWs s) as [|c r0] eqn:E; [discriminate|].
  apply skipWs_cons in E.
  destruct (Ascii.eqb c "]"); [intros [= _ <-]; lia|].
  destruct (Ascii.eqb c ","); [|discriminate].
  destruct (pv r0) as [[v r1]|] eqn:E1; [|discriminate].
  destruct (parseItems pv n r1) as [[vs' r2]|] eqn:E2; [|discriminate].
  intros [= _ <-]. apply Hpv in E1. apply IH in E2. lia.
Qed.

Lemma parseMember_consumes pv : Consumes pv -> Consumes (parseMember pv).
Proof.
  intros Hpv s m r. unfold parseMember.
  destruct (skipWs s) as [|c r0] eqn:E; [discriminate|]. apply skipWs_cons in E.
  destruct (Ascii.eqb c "034"); [|discriminate].
  destruct (parseChars r0) as [[name r1]|] eqn:E1; [|discriminate].
  apply parseChars_consumes in E1.
  destruct (skipWs r1) as [|c1 r2] eqn:E2; [discriminate|]. apply skipWs_cons in E2.
  destruct (Ascii.eqb c1 ":"); [|discriminate].
  destruct (pv r2) as [[v r3]|] eqn:E3; [|discriminate].
  intros [= _ <-]. apply Hpv in E3. lia.
Qed.

Lemma parseMembers_consumes pv n : Consumes pv -> Consumes (parseMembers pv n).
Proof.
  intros Hpv. induction n as [|n IH]; intros s ms r; cbn [parseMembers]; [discriminate|].
  destruct (skipWs s) as [|c r0] eqn:E; [discriminate|].
  apply skipWs_cons in E.
  destruct (Ascii.eqb c "}"); [intros [= _ <-]; lia|].
  destruct (Ascii.eqb c ","); [|discriminate].
  destruct (parseMember pv r0) as [[m r1]|] eqn:E1; [|discriminate].
  destruct (parseMembers pv n r1) as [[ms' r2]|] eqn:E2; [|discriminate].
  intros [= _ <-]. apply (parseMember_consumes pv Hpv) in E1. apply IH in E2. lia.
Qed.

Lemma parseValue_consumes fuel : Consumes (parseValue fuel).
Proof.
  induction fuel as [|fuel IH]; intros s v r; cbn [parseValue]; [discriminate|].
  destruct (skipWs s) as [|c r0] eqn:E; [discriminate|].
  pose proof (skipWs_length s) as Hs. rewrite E in Hs.
  assert (Hr0 : String.length r0 < String.length s) by (simpl in Hs; lia).
  destruct (Ascii.eqb c "[").
  { destruct (skipWs r0) as [|c1 r1] eqn:E1; [discriminate|]. apply skipWs_cons in E1.
    destruct (Ascii.eqb c1 "]"); [intros [= _ <-]; lia|].
    destruct (parseValue fuel r0) as [[v0 r2]|] eqn:E2; [|discriminate].
    destruct (parseItems _ _ r2) as [[vs r3]|] eqn:E3; [|discriminate].
    intros [= _ <-]. apply IH in E2. apply (parseItems_consumes _ _ IH) in E3. lia. }
  destruct (Ascii.eqb c "{").
  { destruct (skipWs r0) as [|c1 r1] eqn:E1; [discriminate|]. apply skipWs_cons in E1.
    destruct (Ascii.eqb c1 "}"); [intros [= _ <-]; lia|].
    destruct (parseMember _ r0) as [[m r2]|] eqn:E2; [|discriminate].
    destruct (parseMembers _ _ r2) as [[ms r3]|] eqn:E3; [|discriminate].
    intros [= _ <-]. apply (parseMember_consumes _ IH) in E2.
    apply (parseMembers_consumes _ _ IH) in E3. lia. }
  destruct (Ascii.eqb c "034").
  { destruct (parseChars r0) as [[l r1]|] eqn:E1; [|discriminate].
    intros [= _ <-]. apply parseChars_consumes in E1. lia. }
  assert (Hlit : forall word v0, word <> "" ->
            literal word v0 (String c r0) = Some (v, r) ->
            String.length r < String.length s).
  { intros word v0 Hw H. apply (literal_consumes word v0 Hw) in H. lia. }
  destruct (Ascii.eqb c "t"); [apply Hlit; discriminate|].
  destruct (Ascii.eqb c "f"); [apply Hlit; discriminate|].
  destruct (Ascii.eqb c "n"); [apply Hlit; discriminate|].
  destruct (parseNumber (String c r0)) as [[l r1]|] eqn:E1; [|discriminate].
  intros [= _ <-]. apply parseNumber_consumes in E1. lia.
Qed.

(** Two parsers that agree on every text shorter than [n]. *)
Definition AgreeBelow {A : Type} (n : nat) (p q : string -> option (A * string)) : Prop :=
  forall s, String.length s < n -> p s = q s.

Lemma AgreeBelow_le {A} n m (p q : string -> option (A * string)) :
  m <= n -> AgreeBelow n p q -> AgreeBelow m p q.
Proof. intros Hm H s Hs. apply H. lia. Qed.

Lemma parseItems_agree pv pv' : Consumes pv ->
  forall k s, AgreeBelow (String.length s) pv pv' ->
              parseItems pv k s = parseItems pv' k s.
Proof.
  intros Hpv. induction k as [|k IH]; intros s Hag; cbn [parseItems]; [reflexivity|].
  destruct (skipWs s) as [|c r0] eqn:E; [reflexivity|]. apply skipWs_cons in E.
  destruct (Ascii.eqb c "]"); [reflexivity|].
  destruct (Ascii.eqb c ","); [|reflexivity].
  rewrite <- (Hag r0 E).
  destruct (pv r0) as [[v r1]|] eqn:E1; [|reflexivity].
  apply Hpv in E1. rewrite (IH r1); [reflexivity|].
  apply (AgreeBelow_le (String.length s)); [lia | exact Hag].
Qed.

Lemma parseItems_fuel pv : Consumes pv ->
  forall k k' s, String.length s <= k -> String.length s <= k' ->
                 parseItems pv k s = parseItems pv k' s.
Proof.
  intros Hpv. induction k as [|k IH]; intros k' s Hk Hk'.
  - destruct s; [|simpl in Hk; lia]. destruct k'; reflexivity.
  - destruct k' as [|k']; [destruct s; [reflexivity | simpl in Hk'; lia]|].
    cbn [parseItems].
    destruct (skipWs s) as [|c r0] eqn:E; [reflexivity|]. apply skipWs_cons in E.
    destruct (Ascii.eqb c "]"); [reflexivity|].
    destruct (Ascii.eqb c ","); [|reflexivity].
    destruct (pv r0) as [[v r1]|] eqn:E1; [|reflexivity].
    apply Hpv in E1. rewrite (IH k' r1); [reflexivity | lia | lia].
Qed.

Lemma parseMember_agree pv pv' s :
  AgreeBelow (String.length s) pv pv' -> parseMember pv s = parseMember pv' s.
Proof.
  intros Hag. unfold parseMember.
  destruct (skipWs s) as [|c r0] eqn:E; [reflexivity|]. apply skipWs_cons in E.
  destruct (Ascii.eqb c "034"); [|reflexivity].
  destruct (parseChars r0) as [[name r1]|] eqn:E1; [|reflexivity].
  apply parseChars_consumes in E1.
  destruct (skipWs r1) as [|c1 r2] eqn:E2; [reflexivity|]. apply skipWs_cons in E2.
  destruct (Ascii.eqb c1 ":"); [|reflexivity].
  rewrite (Hag r2) by lia. reflexivity.
Qed.

Lemma parseMembers_agree pv pv' : Consumes pv ->
  forall k s, AgreeBelow (String.length s) pv pv' ->
              parseMembers pv k s = parseMembers pv' k s.
Proof.
  intros Hpv. induction k as [|k IH]; intros s Hag; cbn [parseMembers]; [reflexivity|].
  destruct (skipWs s) as [|c r0] eqn:E; [reflexivity|]. apply skipWs_cons in E.
  destruct (Ascii.eqb c "}"); [reflexivity|].
  destruct (Ascii.eqb c ","); [|reflexivity].
  rewrite <- (parseMember_agree pv pv' r0)
    by (apply (AgreeBelow_le (String.length s)); [lia | exact Hag]).
  destruct (parseMember pv r0) as [[m r1]|] eqn:E1; [|reflexivity].
  apply (parseMember_consumes pv Hpv) in E1. rewrite (IH r1); [reflexivity|].
  apply (AgreeBelow_le (String.length s)); [lia | exact Hag].
Qed.

Lemma parseMembers_fuel pv : Consumes pv ->
  forall k k' s, String.length s <= k -> String.length s <= k' ->
                 parseMembers pv k s = parseMembers pv k' s.
Proof.
  intros Hpv. induction k as [|k IH]; intros k' s Hk Hk'.
  - destruct s; [|simpl in Hk; lia]. destruct k'; reflexivity.
  - destruct k' as [|k']; [destruct s; [reflexivity | simpl in Hk'; lia]|].
    cbn [parseMembers].
    destruct (skipWs s) as [|c r0] eqn:E; [reflexivity|]. apply skipWs_cons in E.
    destruct (Ascii.eqb c "}"); [reflexivity|].
    destruct (Ascii.eqb c ","); [|reflexivity].
    destruct (parseMember pv r0) as [[m r1]|] eqn:E1; [|reflexivity].
    apply (parseMember_consumes pv Hpv) in E1.
    rewrite (IH k' r1); [reflexivity | lia | lia].
Qed.

(** With more fuel than characters the parser's answer no longer depends
    on the fuel. *)
Lemma parseValue_fuel : forall n s f f',
  String.length s <= n -> String.length s < f -> String.length s < f' ->
  parseValue f s = parseValue f' s.
Proof.
  induction n as [|n IH]; intros s f f' Hn Hf Hf'.
  - destruct s; [|simpl in Hn; lia].
    destruct f, f'; try lia. reflexivity.
  - destruct f as [|f]; [lia|]. destruct f' as [|f']; [lia|].
    cbn [parseValue].
    destruct (skipWs s) as [|c r0] eqn:E; [reflexivity|]. apply skipWs_cons in E.
    assert (Hag : AgreeBelow (String.length s) (parseValue f) (parseValue f')).
    { intros t Ht. apply IH; lia. }
    destruct (Ascii.eqb c "[").
    { destruct (skipWs r0) as [|c1 r1] eqn:E1; [reflexivity|].
      destruct (Ascii.eqb c1 "]"); [reflexivity|].
      rewrite <- (Hag r0 E).
      destruct (parseValue f r0) as [[v0 r2]|] eqn:E2; [|reflexivity].
      apply parseValue_consumes in E2.
      rewrite (parseItems_agree (parseValue f) (parseValue f'));
        [reflexivity | apply parseValue_consumes|].
      apply (AgreeBelow_le (String.length s)); [lia | exact Hag]. }
    destruct (Ascii.eqb c "{"); [|reflexivity].
    destruct (skipWs r0) as [|c1 r1] eqn:E1; [reflexivity|].
    destruct (Ascii.eqb c1 "}"); [reflexivity|].
    rewrite <- (parseMember_agree (parseValue f) (parseValue f') r0)
      by (apply (AgreeBelow_le (String.length s)); [lia | exact Hag]).
    destruct (parseMember (parseValue f) r0) as [[m r2]|] eqn:E2; [|reflexivity].
    apply (parseMember_consumes _ (parseValue_consumes f)) in E2.
    rewrite (parseMembers_agree (parseValue f) (parseValue f'));
      [reflexivity | apply parseValue_consumes|].
    apply (AgreeBelow_le (String.length s)); [lia | exact Hag].
Qed.

(** [JSON.parse] never fails for want of fuel: any larger bound on the
    nesting depth, and any larger bound on the number of elements, gives
    the same answer. *)
Theorem parse_fuel_independent (text : string) (fuel : nat) :
  String.length text < fuel ->
  parseValue fuel text = parseValue (S (String.length text)) text.
Proof. intros H. apply (parseValue_fuel (String.length text)); lia. Qed.

End JSONFacts.

(** ** C6: loading *)







(** Induction on a parsed value, through the elements of its arrays. *)
Section ValueInduction.

Variable P : JSON.value -> Prop.
Hypothesis Hnull : P JSON.JNull.
Hypothesis Hbool : forall b, P (JSON.JBool b).
Hypothesis Hnumber : forall l, P (JSON.JNumber l).
Hypothesis Hstring : forall l, P (JSON.JString l).
Hypothesis Harray : forall items, Forall P items -> P (JSON.JArray items).
Hypothesis Hobject : forall members, P (JSON.JObject members).


End ValueInduction.






(** A name may be written with escapes, and the last of several members
    with one name is the one read. *)
Example getMember_reads_names :
  getMember "tags" [("t" ++ JSON.backslash ++ "u0061gs", JSON.JBool true)]
  = Some (JSON.JBool true)
  /\ getMember "tags" [("tags", JSON.JBool true); ("tags", JSON.JNull)]
     = Some JSON.JNull
  /\ getMember "tags" [("Tags", JSON.JNull)] = None.
Proof. repeat split; vm_compute; reflexivity. Qed.



(** ** The note list along the actions *)

Lemma notes_saveEffect st : notes (saveEffect st) = notes st.
Proof. apply saveEffect_cases. Qed.

Lemma notes_deleteNote noteId st :
  notes (deleteNote noteId st) = filter (fun note => negb (id note =? noteId)) (notes st).
Proof.
  unfold deleteNote. destruct (selectedNote st) as [sel|]; [|reflexivity].
  destruct (id sel =? noteId); reflexivity.
Qed.

Lemma notes_selectNote index st : notes (selectNote index st) = notes st.
Proof. unfold selectNote. now destruct (nth_error _ index). Qed.

Lemma notes_startEditing st : notes (startEditing st) = notes st.
Proof. unfold startEditing. now destruct (selectedNote st). Qed.

(** The list after one action: a note put in front, the notes of one id
    merged with an update that carries neither [id] nor [createdAt], the
    notes of one id removed, or the same list. *)
Inductive NotesChange (ns : list Note) : list Note -> Prop :=
| change_create now :
    NotesChange ns
      (mkNote (JSON.Number_toString now) "Untitled Note" "" [] now now false false :: ns)
| change_save noteId text now :
    NotesChange ns
      (map (fun note =>
              if id note =? noteId
              then merge note (mkUpdates None (Some (deriveTitle text)) (Some text)
                                         (Some (extractTags text)) None None None None) now
              else note) ns)
| change_flag noteId star archive now :
    NotesChange ns
      (map (fun note =>
              if id note =? noteId
              then merge note (mkUpdates None None None None None None star archive) now
              else note) ns)
| change_delete noteId :
    NotesChange ns (filter (fun note => negb (id note =? noteId)) ns)
| change_none : NotesChange ns ns.

Lemma step_NotesChange st a : NotesChange (notes st) (notes (step st a)).
Proof.
  destruct a as [now|now|noteId now|noteId now|noteId| | |text|term|tag|index];
    cbn [step].
  - rewrite notes_saveEffect. apply change_create.
  - unfold saveNote. destruct (selectedNote st) as [sel|]; [|apply change_none].
    rewrite notes_saveEffect. cbn [setIsEditing notes].
    rewrite notes_updateNote. apply change_save.
  - rewrite notes_saveEffect. unfold toggleStar. rewrite notes_updateNote.
    apply change_flag.
  - rewrite notes_saveEffect. unfold toggleArchive. rewrite notes_updateNote.
    apply change_flag.
  - rewrite notes_saveEffect, notes_deleteNote. apply change_delete.
  - rewrite notes_startEditing. apply change_none.
  - apply change_none.
  - apply change_none.
  - apply change_none.
  - apply change_none.
  - rewrite notes_selectNote. apply change_none.
Qed.

(** The reachable states are the runs from a seeded start. *)
Lemma run_snoc st actions a : run st (actions ++ [a])%list = step (run st actions) a.
Proof. unfold run. now rewrite fold_left_app. Qed.

Lemma Reachable_iff_run st :
  Reachable st <-> exists now0 actions, st = run (seededState now0) actions.
Proof.
  split.
  - induction 1 as [now|st a _ [now0 [actions ->]]].
    + now exists now, [].
    + exists now0, (actions ++ [a])%list. now rewrite run_snoc.
  - intros [now0 [actions ->]].
    induction actions as [|a actions IH] using rev_ind; [apply reach_seed|].
    rewrite run_snoc. now apply reach_step.
Qed.

(** ** C3: tags and content *)

Definition TagsDerived (n : Note) : Prop := tags n = extractTags (content n).

(** The welcome note as seeded, not saved since. *)
Definition UnsavedWelcome (n : Note) : Prop :=
  id n = "welcome" /\ content n = welcomeContent
  /\ tags n = ["welcome"; "getting-started"].

Lemma NotesChange_tags ns ns' :
  NotesChange ns ns' ->
  Forall (fun n => TagsDerived n \/ UnsavedWelcome n) ns ->
  Forall (fun n => TagsDerived n \/ UnsavedWelcome n) ns'.
Proof.
  intros Hc H. destruct Hc as [now|noteId text now|noteId star archive now|noteId|].
  - constructor; [left; reflexivity | exact H].
  - rewrite Forall_forall in *. intros n' Hin.
    apply in_map_iff in Hin. destruct Hin as [n [<- Hin]].
    destruct (id n =? noteId); [left; reflexivity | now apply H].
  - rewrite Forall_forall in *. intros n' Hin.
    apply in_map_iff in Hin. destruct Hin as [n [<- Hin]].
    destruct (id n =? noteId); [|now apply H].
    destruct (H n Hin) as [Hd|Hw]; [left | right]; exact Hd || exact Hw.
  - rewrite Forall_forall in *. intros n Hin.
    apply filter_In in Hin. now apply H.
  - exact H.
Qed.

(** C3, as the code has it. In every state reached from the seeded start,
    each note's [tags] is [extractTags] of its [content] (one tag per
    token, in order, repeated tokens repeated); the one note this does not
    cover is the seeded welcome note for as long as it has not been
    saved. *)
Theorem reachable_tags_follow_content (st : AppState) :
  Reachable st ->
  forall n, In n (notes st) -> TagsDerived n \/ UnsavedWelcome n.
Proof.
  intros Hr. rewrite <- Forall_forall. induction Hr as [now|st a _ IH].
  - change (notes (seededState now)) with [welcomeNote now].
    constructor; [|constructor]. right. repeat split.
  - eapply NotesChange_tags; [apply step_NotesChange | exact IH].
Qed.

Lemma reachable_tags_follow_content_witness :
  TagsDerived (mkNote "7" "Hi #There #there" "# Hi #There #there" ["there"; "there"] 7%Z 8%Z false false)
  \/ UnsavedWelcome (mkNote "7" "Hi #There #there" "# Hi #There #there" ["there"; "there"] 7%Z 8%Z false false).
Proof.
  apply (reachable_tags_follow_content
           (step (step (step (seededState 5%Z) (NewNote 7%Z))
                       (TypeText "# Hi #There #there")) (Save 8%Z))).
  - repeat apply reach_step. apply reach_seed.
  - left. reflexivity.
Defined.

(** The invariant in the words of the specification: the tags, without
    duplicates, are exactly the tags extracted from the content. *)
Definition TagsAreExtractedSet (n : Note) : Prop :=
  NoDup (tags n) /\ forall t, In t (tags n) <-> In t (extractTags (content n)).

(** C3 fails as stated, already in the seeded state: the welcome note's
    content holds five tokens that its tags do not list. *)
Lemma seeded_welcome_tags_not_extracted :
  Reachable (seededState 5%Z)
  /\ In (welcomeNote 5%Z) (notes (seededState 5%Z))
  /\ tags (welcomeNote 5%Z) = ["welcome"; "getting-started"]
  /\ extractTags (content (welcomeNote 5%Z))
     = ["hashtags"; "tags"; "personal"; "work"; "ideas"; "welcome"; "getting-started"]
  /\ ~ TagsAreExtractedSet (welcomeNote 5%Z).
Proof.
  split; [apply reach_seed|]. split; [now left|]. split; [reflexivity|].
  assert (E : extractTags (content (welcomeNote 5%Z))
              = ["hashtags"; "tags"; "personal"; "work"; "ideas"; "welcome";
                 "getting-started"]) by (vm_compute; reflexivity).
  split; [exact E|].
  intros [_ H]. specialize (H "hashtags"). rewrite E in H.
  destruct (proj2 H (or_introl eq_refl)) as [H'|[H'|[]]]; discriminate.
Qed.

(** A saved note keeps a repeated token repeated. *)
Example saved_note_repeats_tag :
  map tags (notes (run (seededState 5%Z)
                       [NewNote 7%Z; TypeText "# Hi #There #there"; Save 8%Z]))
  = [["there"; "there"]; ["welcome"; "getting-started"]].
Proof. reflexivity. Qed.

(** ** C9: note ids *)

Definition ids (st : AppState) : list string := map id (notes st).

(** The clock readings of the create actions, in order. *)
Definition createTimes (actions : list Action) : list Date :=
  flat_map (fun a => match a with NewNote now => [now] | _ => [] end) actions.

Lemma to_int_proper n : Z.to_int n <> Decimal.Pos Nil /\ Z.to_int n <> Decimal.Neg Nil.
Proof.
  destruct n as [|p|p]; simpl; split; try discriminate;
    intros H; injection H as H; now apply DecimalPos.Unsigned.to_uint_nonnil in H.
Qed.

Lemma Number_toString_parses n :
  NilZero.int_of_string (JSON.Number_toString n) = Some (Z.to_int n).
Proof.
  unfold JSON.Number_toString. destruct (to_int_proper n). now apply NilZero.isi.
Qed.

Lemma Number_toString_inj a b :
  JSON.Number_toString a = JSON.Number_toString b -> a = b.
Proof.
  intros H. apply DecimalZ.to_int_inj.
  apply (f_equal NilZero.int_of_string) in H.
  rewrite !Number_toString_parses in H. now injection H.
Qed.

Lemma Number_toString_not_welcome n : JSON.Number_toString n <> "welcome".
Proof.
  intros H. apply (f_equal NilZero.int_of_string) in H.
  rewrite Number_toString_parses in H. discriminate.
Qed.

Lemma map_id_merge noteId updates now ns :
  u_id updates = None ->
  map id (map (fun note => if id note =? noteId then merge note updates now
                           else note) ns) = map id ns.
Proof.
  intros Hu. rewrite map_map. apply map_ext. intros n.
  destruct (id n =? noteId); [|reflexivity].
  unfold merge; simpl. now rewrite Hu.
Qed.

Lemma map_id_filter noteId ns :
  map id (filter (fun note => negb (id note =? noteId)) ns)
  = filter (fun i => negb (i =? noteId)) (map id ns).
Proof.
  induction ns as [|n ns IH]; simpl; [reflexivity|].
  destruct (id n =? noteId); simpl; now rewrite IH.
Qed.

(** What one action does to the list of ids. *)
Definition idsAfter (a : Action) (before : list string) : list string :=
  match a with
  | NewNote now => JSON.Number_toString now :: before
  | Delete noteId => filter (fun i => negb (i =? noteId)) before
  | _ => before
  end.

Lemma ids_step st a : ids (step st a) = idsAfter a (ids st).
Proof.
  unfold ids.
  destruct a as [now|now|noteId now|noteId now|noteId| | |text|term|tag|index];
    cbn [step idsAfter].
  - now rewrite notes_saveEffect.
  - unfold saveNote. destruct (selectedNote st) as [sel|]; [|reflexivity].
    rewrite notes_saveEffect. cbn [setIsEditing notes].
    rewrite notes_updateNote. now apply map_id_merge.
  - rewrite notes_saveEffect. unfold toggleStar.
    rewrite notes_updateNote. now apply map_id_merge.
  - rewrite notes_saveEffect. unfold toggleArchive.
    rewrite notes_updateNote. now apply map_id_merge.
  - rewrite notes_saveEffect, notes_deleteNote. apply map_id_filter.
  - now rewrite notes_startEditing.
  - reflexivity.
  - reflexivity.
  - reflexivity.
  - reflexivity.
  - now rewrite notes_selectNote.
Qed.

(** The ids are distinct and each is the welcome id or the rendering of a
    clock reading already used. *)
Definition IdsFrom (seen : list Date) (st : AppState) : Prop :=
  NoDup (ids st)
  /\ forall i, In i (ids st) ->
               i = "welcome" \/ exists t, In t seen /\ i = JSON.Number_toString t.

Lemma IdsFrom_step seen st a :
  IdsFrom seen st ->
  NoDup (seen ++ createTimes [a]) ->
  IdsFrom (seen ++ createTimes [a]) (step st a).
Proof.
  intros [Hnd Hfrom] Hfresh. unfold IdsFrom. rewrite ids_step.
  assert (Hweak : forall i, In i (ids st) ->
            i = "welcome" \/ exists t, In t (seen ++ createTimes [a])
                                       /\ i = JSON.Number_toString t).
  { intros i Hi. destruct (Hfrom i Hi) as [->|[t [Ht ->]]]; [now left|].
    right. exists t. split; [|reflexivity]. apply in_or_app. now left. }
  destruct a as [now|now|noteId now|noteId now|noteId| | |text|term|tag|index];
    cbn [idsAfter]; try (split; assumption).
  - cbn [createTimes flat_map app] in *. split.
    + constructor; [|exact Hnd]. intros Hin.
      destruct (Hfrom _ Hin) as [Hw|[t [Ht E]]].
      * now apply Number_toString_not_welcome in Hw.
      * apply Number_toString_inj in E. subst t.
        apply NoDup_remove_2 in Hfresh. apply Hfresh.
        rewrite app_nil_r. exact Ht.
    + intros i [<-|Hi]; [|now apply Hweak].
      right. exists now. split; [|reflexivity].
      apply in_or_app. right. now left.
  - split.
    + now apply NoDup_filter.
    + intros i Hi. apply filter_In in Hi. now apply Hweak.
Qed.

Lemma createTimes_cons a actions :
  createTimes (a :: actions) = (createTimes [a] ++ createTimes actions)%list.
Proof. unfold createTimes. simpl. now rewrite app_nil_r. Qed.

Lemma IdsFrom_run actions : forall seen st,
  IdsFrom seen st ->
  NoDup (seen ++ createTimes actions) ->
  NoDup (ids (run st actions)).
Proof.
  induction actions as [|a actions IH]; intros seen st Hinv Hfresh.
  - apply Hinv.
  - cbn [run fold_left]. rewrite createTimes_cons, app_assoc in Hfresh.
    apply (IH (seen ++ createTimes [a])%list); [|exact Hfresh].
    apply IdsFrom_step; [exact Hinv|].
    eapply NoDup_app_remove_r. exact Hfresh.
Qed.

(** C9, as the code has it. No action changes the id of a note that is in
    the list: an update keeps the list of ids, a delete removes the given
    id, a create puts the rendering of its clock reading in front. From
    the seeded start the ids stay pairwise distinct as long as the clock
    readings of the create actions are pairwise distinct. *)
Theorem ids_stable_and_distinct_for_distinct_clock :
  (forall st a, ids (step st a) = idsAfter a (ids st))
  /\ (forall now0 actions,
        NoDup (createTimes actions) ->
        NoDup (ids (run (seededState now0) actions))).
Proof.
  split; [apply ids_step|].
  intros now0 actions Hfresh. apply (IdsFrom_run actions []); [|exact Hfresh].
  split.
  - repeat constructor. intros [].
  - intros i [<-|[]]. now left.
Qed.

Lemma ids_stable_and_distinct_for_distinct_clock_witness :
  NoDup (ids (run (seededState 5%Z) [NewNote 7%Z; Star "7" 8%Z; NewNote 9%Z])).
Proof.
  apply (proj2 ids_stable_and_distinct_for_distinct_clock 5%Z
           [NewNote 7%Z; Star "7" 8%Z; NewNote 9%Z]).
  cbn. constructor.
  - intros [H|[]]. discriminate.
  - constructor; [intros [] | constructor].
Defined.

(** C9 fails as stated: two creates at one clock reading give two notes
    with one id. *)
Lemma creates_in_one_millisecond_share_id :
  Reachable (run (seededState 5%Z) [NewNote 7%Z; NewNote 7%Z])
  /\ ids (run (seededState 5%Z) [NewNote 7%Z; NewNote 7%Z]) = ["7"; "7"; "welcome"]
  /\ ~ NoDup (ids (run (seededState 5%Z) [NewNote 7%Z; NewNote 7%Z])).
Proof.
  split; [repeat apply reach_step; apply reach_seed|].
  split; [reflexivity|].
  change (ids (run (seededState 5%Z) [NewNote 7%Z; NewNote 7%Z]))
    with ["7"; "7"; "welcome"].
  intros H. inversion H as [|x l Hnin _]; subst. apply Hnin. now left.
Qed.

(** ** C10: the inline substitutions do not escape markup *)

Lemma Substring_empty s : Substring "" s.
Proof. now exists "", s. Qed.

Lemma Substring_refl s : Substring s s.
Proof. exists "", "". simpl. now rewrite append_nil_r. Qed.

Lemma Substring_app_r t x y : Substring t y -> Substring t (x ++ y).
Proof.
  intros [pre [post ->]]. exists (x ++ pre), post. now rewrite append_assoc.
Qed.

Lemma Substring_app_l t x y : Substring t x -> Substring t (x ++ y).
Proof.
  intros [pre [post ->]]. exists pre, (post ++ y). now rewrite !append_assoc.
Qed.

Lemma Substring_cons t c s : Substring t s -> Substring t (String c s).
Proof. apply (Substring_app_r t (String c "")). Qed.

(** The character [d] does not occur in [s]. *)
Definition NoChar (d : ascii) (s : string) : Prop :=
  AllChars (fun c => negb (Ascii.eqb c d)) s.

Lemma NoChar_cons d c s : NoChar d (String c s) -> c <> d /\ NoChar d s.
Proof.
  intros H. split.
  - intros ->. specialize (H d (or_introl eq_refl)). cbn in H.
    now rewrite Ascii.eqb_refl in H.
  - intros x Hx. apply H. now right.
Qed.

(** A piece without [d] that occurs behind a [d] occurs behind it. *)
Lemma Substring_skip_char d t y :
  NoChar d t -> Substring t (String d y) -> Substring t y.
Proof.
  intros Hd [[|a pre] [post H]]; simpl in H.
  - destruct t as [|c t]; [apply Substring_empty|].
    simpl in H. injection H as -> _.
    now destruct (proj1 (NoChar_cons _ _ _ Hd)).
  - injection H as _ ->. now exists pre, post.
Qed.

Lemma prefix_before_char d t post x y :
  NoChar d t -> t ++ post = x ++ String d y -> exists post', x = t ++ post'.
Proof.
  revert x. induction t as [|c t IH]; intros x Hd H; [now exists x|].
  destruct (NoChar_cons _ _ _ Hd) as [Hc Ht].
  destruct x as [|a x]; simpl in H.
  - injection H as -> _. congruence.
  - injection H as <- H. destruct (IH x Ht H) as [post' ->]. now exists post'.
Qed.

(** A piece without [d] does not straddle a [d]. *)
Lemma Substring_split_at_char d t x y :
  NoChar d t -> Substring t (x ++ String d y) -> Substring t x \/ Substring t y.
Proof.
  intros Hd. induction x as [|a x IH]; intros H.
  - right. now apply (Substring_skip_char d).
  - destruct H as [[|b pre] [post H]].
    + left. simpl in H. change (String a (x ++ String d y)) with ((String a x) ++ String d y) in H.
      symmetry in H. destruct (prefix_before_char d t post _ _ Hd H) as [post' ->].
      now exists "", post'.
    + simpl in H. injection H as _ H.
      destruct IH as [H'|H']; [now exists pre, post | |now right].
      left. now apply Substring_cons.
Qed.

Lemma replaceDelimited_step m c s :
  replaceDelimited m (String c s) =
  match matchDelimitedAt m (String c s) with
  | Some (inner, rest) => wrap m inner ++ replaceDelimited m rest
  | None => String c (replaceDelimited m s)
  end.
Proof.
  simp replaceDelimited.
  destruct (inspect (matchDelimitedAt m (String c s))) as [[[inner rest]|] Heq];
    simp replaceDelimited; rewrite Heq; reflexivity.
Qed.

Lemma replaceTags_step c s :
  replaceTags (String c s) =
  match matchTagAt (String c s) with
  | Some (m, rest) => spanOpen ++ "#" ++ slice 1 m ++ "</span>" ++ replaceTags rest
  | None => String c (replaceTags s)
  end.
Proof.
  simp replaceTags.
  destruct (inspect (matchTagAt (String c s))) as [[[m rest]|] Heq];
    simp replaceTags; rewrite Heq; reflexivity.
Qed.

(** The character every delimiter is made of. *)
Definition markerChar (m : Marker) : ascii :=
  match m with Bold | Italic => "*" | Code => "`" end%char.

Lemma matchDelimitedAt_other m c s :
  c <> markerChar m -> matchDelimitedAt m (String c s) = None.
Proof.
  intros Hc. unfold matchDelimitedAt.
  assert (Hp : String.prefix (delimiter m) (String c s) = false).
  { destruct m; cbn [delimiter String.prefix markerChar] in *;
      (destruct (ascii_dec _ c) as [E|_]; [now destruct Hc | reflexivity]). }
  now rewrite Hp.
Qed.

(** A stretch without the marker's character passes through unchanged. *)
Lemma replaceDelimited_plain m t post :
  NoChar (markerChar m) t ->
  replaceDelimited m (t ++ post) = t ++ replaceDelimited m post.
Proof.
  induction t as [|c t IH]; intros Hd; [reflexivity|].
  destruct (NoChar_cons _ _ _ Hd) as [Hc Ht].
  cbn [append]. rewrite replaceDelimited_step, matchDelimitedAt_other by exact Hc.
  now rewrite IH.
Qed.

Lemma replaceTags_plain t post :
  NoChar "#" t -> replaceTags (t ++ post) = t ++ replaceTags post.
Proof.
  induction t as [|c t IH]; intros Hd; [reflexivity|].
  destruct (NoChar_cons _ _ _ Hd) as [Hc Ht].
  cbn [append]. rewrite replaceTags_step, matchTagAt_other by now left.
  now rewrite IH.
Qed.

Lemma Substring_inside_delimiters m t inner rest :
  NoChar (markerChar m) t ->
  Substring t (delimiter m ++ inner ++ delimiter m ++ rest) ->
  Substring t inner \/ Substring t rest.
Proof.
  intros Hd H. destruct m; cbn [delimiter markerChar append] in *.
  - do 2 apply (Substring_skip_char _ _ _ Hd) in H.
    apply (Substring_split_at_char _ _ _ _ Hd) in H.
    destruct H as [H|H]; [now left|].
    right. now apply (Substring_skip_char _ _ _ Hd) in H.
  - apply (Substring_skip_char _ _ _ Hd) in H.
    apply (Substring_split_at_char _ _ _ _ Hd) in H. exact H.
  - apply (Substring_skip_char _ _ _ Hd) in H.
    apply (Substring_split_at_char _ _ _ _ Hd) in H. exact H.
Qed.

Lemma Substring_wrap m t inner : Substring t inner -> Substring t (wrap m inner).
Proof.
  intros H. destruct m; cbn [wrap].
  - apply Substring_app_r. now apply Substring_app_l.
  - apply Substring_app_r. now apply Substring_app_l.
  - do 5 apply Substring_app_r. now apply Substring_app_l.
Qed.

(** A piece without the marker's character survives the substitution. *)
Lemma replaceDelimited_keeps m t s :
  NoChar (markerChar m) t -> Substring t s -> Substring t (replaceDelimited m s).
Proof.
  intros Hd. remember (String.length s) as n eqn:Hn. revert s Hn.
  induction n as [n IH] using lt_wf_ind. intros s Hn Hsub.
  destruct s as [|c s]; [exact Hsub|].
  destruct (matchDelimitedAt m (String c s)) as [[inner rest]|] eqn:E.
  - rewrite replaceDelimited_step, E.
    pose proof (matchDelimitedAt_shorter _ _ _ _ E) as Hlt.
    rewrite (matchDelimitedAt_spec _ _ _ _ E) in Hsub.
    destruct (Substring_inside_delimiters _ _ _ _ Hd Hsub) as [H|H].
    + apply Substring_app_l. now apply Substring_wrap.
    + apply Substring_app_r.
      apply (IH (String.length rest)); [lia | reflexivity | exact H].
  - destruct Hsub as [[|a pre] [post H]].
    + cbn [append] in H. rewrite H, replaceDelimited_plain by exact Hd.
      now exists "", (replaceDelimited m post).
    + rewrite replaceDelimited_step, E.
      cbn [append] in H. injection H as _ H.
      apply Substring_cons.
      apply (IH (String.length s)); [simpl in Hn; lia | reflexivity|].
      now exists pre, post.
Qed.

(** A piece that does not begin with a tag character and occurs in a
    token followed by [rest] occurs in [rest]. *)
Lemma Substring_past_token tok rest t :
  AllChars isTagChar tok -> ~ HeadSatisfies isTagChar t ->
  Substring t (tok ++ rest) -> Substring t rest.
Proof.
  intros Htok Ht. induction tok as [|a tok IH]; intros H; [exact H|].
  assert (Ha : isTagChar a = true) by (apply Htok; now left).
  assert (Htok' : AllChars isTagChar tok) by (intros c Hc; apply Htok; now right).
  destruct H as [[|b pre] [post H]]; cbn [append] in H.
  - destruct t as [|c t]; [apply Substring_empty|].
    cbn [append] in H. injection H as -> _.
    destruct Ht. now exists c, t.
  - injection H as _ H. apply (IH Htok'). now exists pre, post.
Qed.

(** A piece without [#] that does not begin with a tag character survives
    the tag highlighting. *)
Lemma replaceTags_keeps t s :
  NoChar "#" t -> ~ HeadSatisfies isTagChar t ->
  Substring t s -> Substring t (replaceTags s).
Proof.
  intros Hd Ht. remember (String.length s) as n eqn:Hn. revert s Hn.
  induction n as [n IH] using lt_wf_ind. intros s Hn Hsub.
  destruct s as [|c s]; [exact Hsub|].
  destruct (matchTagAt (String c s)) as [[m rest]|] eqn:E.
  - rewrite replaceTags_step, E.
    pose proof (matchTagAt_shorter _ _ _ E) as Hlt.
    destruct (matchTagAt_inv _ _ _ E) as [tok [-> [Hs [_ [Htok _]]]]].
    rewrite Hs in Hsub. cbn [append] in Hsub.
    apply (Substring_skip_char _ _ _ Hd) in Hsub.
    apply (Substring_past_token _ _ _ Htok Ht) in Hsub.
    do 4 apply Substring_app_r.
    apply (IH (String.length rest)); [lia | reflexivity | exact Hsub].
  - destruct Hsub as [[|a pre] [post H]].
    + cbn [append] in H. rewrite H, replaceTags_plain by exact Hd.
      now exists "", (replaceTags post).
    + rewrite replaceTags_step, E.
      cbn [append] in H. injection H as _ H.
      apply Substring_cons.
      apply (IH (String.length s)); [simpl in Hn; lia | reflexivity|].
      now exists pre, post.
Qed.

(** The characters the inline substitutions react to. *)
Definition isMarkerChar (c : ascii) : bool :=
  (Ascii.eqb c "*" || Ascii.eqb c "`" || Ascii.eqb c "#")%bool.

Definition notMarkerChar (c : ascii) : bool := negb (isMarkerChar c).

Lemma notMarker_NoChar t :
  AllChars notMarkerChar t -> NoChar "*" t /\ NoChar "`" t /\ NoChar "#" t.
Proof.
  intros H. repeat split; intros c Hc; specialize (H c Hc);
    unfold notMarkerChar, isMarkerChar in H; cbn;
    destruct (Ascii.eqb c "*"), (Ascii.eqb c "`"), (Ascii.eqb c "#");
    try discriminate; reflexivity.
Qed.

Lemma formatInline_keeps t line :
  AllChars notMarkerChar t -> ~ HeadSatisfies isTagChar t ->
  Substring t line -> Substring t (formatInline line).
Proof.
  intros Hm Ht H. destruct (notMarker_NoChar t Hm) as [Hstar [Hquote Hhash]].
  unfold formatInline. apply replaceTags_keeps; try assumption.
  apply (replaceDelimited_keeps Code); [exact Hquote|].
  apply (replaceDelimited_keeps Italic); [exact Hstar|].
  apply (replaceDelimited_keeps Bold); [exact Hstar|].
  exact H.
Qed.

(** A line without marker characters is its own fragment. *)
Lemma formatInline_plain line :
  AllChars notMarkerChar line -> formatInline line = line.
Proof.
  intros Hm. destruct (notMarker_NoChar line Hm) as [Hstar [Hquote Hhash]].
  unfold formatInline. rewrite <- (append_nil_r line).
  rewrite (replaceDelimited_plain Bold), (replaceDelimited_plain Italic),
    (replaceDelimited_plain Code), replaceTags_plain by assumption.
  reflexivity.
Qed.

Lemma renderLine_paragraph line html :
  renderLine line = Paragraph html -> html = formatInline line.
Proof.
  unfold renderLine.
  destruct (startsWith line "# "); [discriminate|].
  destruct (startsWith line "## "); [discriminate|].
  destruct (startsWith line "### "); [discriminate|].
  destruct (startsWith line "- "); [discriminate|].
  destruct (trimIsEmpty line); [discriminate|].
  now intros [= <-].
Qed.

(** C10, as the code has it. The fragment of a paragraph line is the raw
    line after four plain string replacements, and nothing is escaped:
    every piece of the line that holds none of the marker characters [*],
    backquote and [#], and does not begin with a letter, a digit, [_] or
    [-] (markup begins with [<]), stands unchanged in the fragment. *)
Theorem paragraph_keeps_markup_verbatim (line piece html : string) :
  renderLine line = Paragraph html ->
  Substring piece line ->
  AllChars notMarkerChar piece ->
  ~ HeadSatisfies isTagChar piece ->
  Substring piece html.
Proof.
  intros Hp Hsub Hm Ht. apply renderLine_paragraph in Hp. subst html.
  now apply formatInline_keeps.
Qed.

Lemma paragraph_keeps_markup_verbatim_witness :
  Substring "<script>alert(1)</script>"
            (formatInline "Hello <script>alert(1)</script> *there* #x").
Proof.
  apply (paragraph_keeps_markup_verbatim
           "Hello <script>alert(1)</script> *there* #x"
           "<script>alert(1)</script>").
  - reflexivity.
  - now exists "Hello ", " *there* #x".
  - apply forallb_iff. reflexivity.
  - intros [c [r [E Hc]]]. injection E as <- _. discriminate.
Defined.

(** C10 fails as stated: markup that holds a marker character is rewritten
    like any other text. The anchor of this line does not stand in its
    fragment, a [span] element having been put inside the tag. *)
Lemma markup_with_hash_is_rewritten :
  renderLine "<a href=#top>top</a>"
  = Paragraph ("<a href=" ++ spanOpen ++ "#top</span>>top</a>")
  /\ Substring "<a href=#top>" "<a href=#top>top</a>"
  /\ ~ Substring "<a href=#top>" ("<a href=" ++ spanOpen ++ "#top</span>>top</a>").
Proof.
  split; [reflexivity|]. split; [now exists "", "top</a>"|].
  rewrite <- includes_iff. vm_compute. discriminate.
Qed.


(** ** The testable properties of the specification, on concrete inputs *)

Definition fooNote : Note :=
  mkNote "1" "My Foo list" "nothing here" [] 1%Z 2%Z false true.

Definition barNote : Note :=
  mkNote "2" "Bar" "plain #Bar" ["bar"] 3%Z 4%Z true false.

Example filter_empty : forall tag term, filteredNotes [] tag term = [].
Proof. reflexivity. Qed.

Example filter_all_finds_archived_by_title :
  filteredNotes [barNote; fooNote] "all" "foo" = [fooNote]
  /\ filteredNotes [barNote; fooNote] "all" "" = [barNote]
  /\ filteredNotes [barNote; fooNote] "archived" "" = [fooNote]
  /\ filteredNotes [barNote; fooNote] "bar" "" = [barNote]
  /\ filteredNotes [barNote; fooNote] "starred" "BAR" = [barNote].
Proof. repeat split; reflexivity. Qed.

Example render_bold_and_italic :
  renderContent "**bold** and *italic*"
  = [mkElement 0 (Paragraph "<strong>bold</strong> and <em>italic</em>")].
Proof. vm_compute. reflexivity. Qed.

Example render_blank_lines :
  map block (renderContent ("a" ++ newline ++ "  " ++ newline ++ utf8 [194; 160]%N))
  = [Paragraph "a"; LineBreak; LineBreak].
Proof. vm_compute. reflexivity. Qed.

Example delete_then_delete :
  ids (run (seededState 5%Z) [NewNote 7%Z; Delete "7"]) = ["welcome"]
  /\ run (seededState 5%Z) [NewNote 7%Z; Delete "7"; Delete "7"]
     = run (seededState 5%Z) [NewNote 7%Z; Delete "7"].
Proof. split; vm_compute; reflexivity. Qed.

(** What the application stored is read back on the next start. *)
Example stored_notes_are_restored :
  exists item,
    loadEffect (localStorage (run (seededState 5%Z) [Star "welcome" 6%Z]))
    = Restored [item].
Proof. eexists. vm_compute. reflexivity. Qed.

Example toISOString_known_instants :
  JSON.toISOString 0%Z = "1970-01-01T00:00:00.000Z"
  /\ JSON.toISOString 951782400000%Z = "2000-02-29T00:00:00.000Z"
  /\ JSON.toISOString 1700000000000%Z = "2023-11-14T22:13:20.000Z"
  /\ JSON.toISOString (-1)%Z = "1969-12-31T23:59:59.999Z"
  /\ JSON.Number_toString 1700000000000%Z = "1700000000000".
Proof. repeat split; vm_compute; reflexivity. Qed.

Example deriveTitle_cases :
  deriveTitle ("#  Plan" ++ newline ++ "body") = "Plan"
  /\ deriveTitle "no hash" = "no hash"
  /\ deriveTitle "# " = "Untitled Note"
  /\ deriveTitle "" = "Untitled Note"
  /\ deriveTitle "## Two" = "# Two".
Proof. repeat split; vm_compute; reflexivity. Qed.

(** * Further properties of the code *)

(** ** The filter under every selector *)

Definition reservedSelectors : list string :=
  ["all"; "starred"; "archived"; "untagged"].

(** What a selector asks of a note: the star, the archive flag, no tag at
    all, or, for any word that is not a reserved selector, that tag. *)
Definition Selects (selectedTag : string) (note : Note) : Prop :=
  (selectedTag = "starred" -> isStarred note = true)
  /\ (selectedTag = "archived" -> isArchived note = true)
  /\ (selectedTag = "untagged" -> tags note = [])
  /\ (~ In selectedTag reservedSelectors -> In selectedTag (tags note)).

Definition selectsb (selectedTag : string) (note : Note) : bool :=
  (negb ((selectedTag =? "starred") && negb (isStarred note))
   && negb ((selectedTag =? "archived") && negb (isArchived note))
   && negb ((selectedTag =? "untagged") && Nat.ltb 0 (List.length (tags note)))
   && negb (negb (selectedTag =? "all") && negb (selectedTag =? "starred")
            && negb (selectedTag =? "archived") && negb (selectedTag =? "untagged")
            && negb (Array_includes (tags note) selectedTag)))%bool.

Lemma Array_includes_iff xs x : Array_includes xs x = true <-> In x xs.
Proof.
  unfold Array_includes. rewrite existsb_exists. split.
  - intros [y [Hy E]]. apply String.eqb_eq in E. now subst.
  - intros H. exists x. split; [exact H | apply String.eqb_refl].
Qed.

Lemma reserved_iff sel :
  In sel reservedSelectors <->
  ((sel =? "all") || (sel =? "starred") || (sel =? "archived")
   || (sel =? "untagged"))%bool = true.
Proof.
  unfold reservedSelectors. rewrite !orb_true_iff, !String.eqb_eq. simpl.
  intuition congruence.
Qed.

Ltac selector_cases :=
  repeat split;
  try (let E := fresh in intros E; discriminate E);
  try (let E := fresh in intros E; exfalso; apply E; simpl; tauto);
  auto.

Lemma selectsb_iff sel note : selectsb sel note = true <-> Selects sel note.
Proof.
  unfold selectsb, Selects, reservedSelectors.
  destruct (String.eqb_spec sel "starred") as [->|Hs].
  { cbn. destruct (isStarred note); cbn; split.
    - intros _. selector_cases.
    - reflexivity.
    - discriminate.
    - intros [H _]. now apply H. }
  destruct (String.eqb_spec sel "archived") as [->|Har].
  { cbn. destruct (isArchived note); cbn; split.
    - intros _. selector_cases.
    - reflexivity.
    - discriminate.
    - intros [_ [H _]]. now apply H. }
  destruct (String.eqb_spec sel "untagged") as [->|Hu].
  { cbn. destruct (tags note) as [|t ts]; cbn; split.
    - intros _. selector_cases.
    - reflexivity.
    - discriminate.
    - intros [_ [_ [H _]]]. discriminate H. reflexivity. }
  destruct (String.eqb_spec sel "all") as [->|Ha].
  { cbn. split; [|reflexivity]. intros _. selector_cases. }
  cbn. rewrite negb_true_iff, negb_false_iff, Array_includes_iff. split.
  - intros H. repeat split; try contradiction. now intros _.
  - intros [_ [_ [_ H]]]. apply H. simpl. intuition congruence.
Qed.

Lemma keepNoteWith_selectsb lower sel term note :
  keepNoteWith lower sel term note =
  (selectsb sel note
   && (if truthy term then matchesSearchWith lower term note
       else negb (isArchived note) || (sel =? "archived")))%bool.
Proof.
  unfold keepNoteWith, selectsb.
  destruct ((sel =? "starred") && negb (isStarred note))%bool; [reflexivity|].
  destruct ((sel =? "archived") && negb (isArchived note))%bool; [reflexivity|].
  destruct ((sel =? "untagged") && Nat.ltb 0 (List.length (tags note)))%bool;
    [reflexivity|].
  destruct (negb (sel =? "all") && negb (sel =? "starred")
            && negb (sel =? "archived") && negb (sel =? "untagged")
            && negb (Array_includes (tags note) sel))%bool; reflexivity.
Qed.

Lemma keepNote_selectsb sel term note :
  keepNote sel term note =
  (selectsb sel note
   && (if truthy term then matchesSearch term note
       else negb (isArchived note) || (sel =? "archived")))%bool.
Proof. apply keepNoteWith_selectsb. Qed.

(** X1. The displayed list holds exactly the notes that the selector
    selects and that, with an empty search term, are not archived (or are
    listed under "archived"), and with a non-empty term match the search,
    archived or not. This holds whatever the lowercasing function of the
    platform does, so on every text. *)
Theorem filteredNotes_characterized
  (lower : string -> string)
  (notes : list Note) (selectedTag searchTerm : string) (note : Note) :
  In note (filteredNotesWith lower notes selectedTag searchTerm) <->
  In note notes /\ Selects selectedTag note /\
  match searchTerm with
  | EmptyString => isArchived note = false \/ selectedTag = "archived"
  | _ => SearchMatch lower searchTerm note
  end.
Proof.
  unfold filteredNotesWith.
  rewrite filter_In, keepNoteWith_selectsb, andb_true_iff, selectsb_iff.
  destruct searchTerm as [|c term]; cbn [truthy].
  - now rewrite orb_true_iff, negb_true_iff, String.eqb_eq.
  - now rewrite matchesSearchWith_iff.
Qed.

(** ** The counts of the sidebar *)

Lemma filter_length_ext {A : Type} (f g : A -> bool) (l : list A) :
  (forall x, f x = g x) -> List.length (filter f l) = List.length (filter g l).
Proof. intros H. now rewrite (filter_ext f g H). Qed.

(** X2. The count shown beside a selector is the number of notes the
    list shows under that selector when the search box is empty; for a tag
    this holds when the tag is not one of the four reserved words. *)
Theorem sidebar_counts_match_lists (notes : list Note) :
  countAll notes = List.length (filteredNotes notes "all" "")
  /\ countStarred notes = List.length (filteredNotes notes "starred" "")
  /\ countUntagged notes = List.length (filteredNotes notes "untagged" "")
  /\ countArchived notes = List.length (filteredNotes notes "archived" "")
  /\ (forall tag, ~ In tag reservedSelectors ->
        countTag tag notes = List.length (filteredNotes notes tag "")).
Proof.
  unfold countAll, countStarred, countUntagged, countArchived, countTag,
    filteredNotes.
  repeat split; try (apply filter_length_ext; intros n; unfold keepNote, keepNoteWith; cbn;
    destruct (isStarred n), (isArchived n), (tags n); reflexivity).
  intros tag Hr. apply filter_length_ext. intros n.
  rewrite reserved_iff in Hr. apply not_true_is_false in Hr.
  rewrite !orb_false_iff in Hr. destruct Hr as [[[Ha Hs] Har] Hu].
  unfold keepNote, keepNoteWith. rewrite Ha, Hs, Har, Hu. cbn.
  destruct (Array_includes (tags n) tag), (isArchived n); reflexivity.
Qed.

Lemma sidebar_counts_match_lists_witness :
  countTag "bar" [mkNote "2" "Bar" "plain #Bar" ["bar"] 3%Z 4%Z true false]
  = List.length
      (filteredNotes [mkNote "2" "Bar" "plain #Bar" ["bar"] 3%Z 4%Z true false] "bar" "").
Proof.
  apply (proj2 (proj2 (proj2 (proj2 (sidebar_counts_match_lists
           [mkNote "2" "Bar" "plain #Bar" ["bar"] 3%Z 4%Z true false]))))).
  intros [H|[H|[H|[H|[]]]]]; discriminate.
Defined.

(** ** The tag list of the sidebar *)

Lemma In_dedupe x l : In x (dedupe l) <-> In x l.
Proof.
  induction l as [|y l IH]; simpl; [tauto|].
  rewrite filter_In, IH, negb_true_iff, String.eqb_neq.
  destruct (string_dec y x) as [->|Hne]; [tauto|]. intuition congruence.
Qed.

Lemma NoDup_dedupe l : NoDup (dedupe l).
Proof.
  induction l as [|y l IH]; simpl; constructor.
  - rewrite filter_In, String.eqb_refl. intros [_ H]. discriminate.
  - now apply NoDup_filter.
Qed.

Lemma In_insertSorted x y l : In x (insertSorted y l) <-> x = y \/ In x l.
Proof.
  induction l as [|z l IH]; simpl; [intuition|].
  destruct (codeUnitsLeb y z); simpl; [intuition|]. rewrite IH. intuition.
Qed.

Lemma In_Array_sort x l : In x (Array_sort l) <-> In x l.
Proof.
  induction l as [|y l IH]; simpl; [tauto|].
  rewrite In_insertSorted, IH. intuition.
Qed.

Lemma NoDup_insertSorted y l :
  ~ In y l -> NoDup l -> NoDup (insertSorted y l).
Proof.
  induction l as [|z l IH]; intros Hy Hl; simpl.
  - constructor; [intros [] | constructor].
  - destruct (codeUnitsLeb y z); [now constructor|].
    inversion Hl as [|? ? Hz Hl']; subst. constructor.
    + rewrite In_insertSorted. intros [->|H]; [apply Hy; now left | contradiction].
    + apply IH; [|exact Hl']. intros H. apply Hy. now right.
Qed.

Lemma NoDup_Array_sort l : NoDup l -> NoDup (Array_sort l).
Proof.
  induction 1 as [|y l Hy _ IH]; simpl; [constructor|].
  apply NoDup_insertSorted; [|exact IH]. now rewrite In_Array_sort.
Qed.

(** [a] does not come behind [b] in the order of the code units. *)
Definition leUnits (a b : string) : Prop := codeUnitsLeb a b = true.

Lemma lexLeb_total xs ys : lexLeb xs ys = false -> lexLeb ys xs = true.
Proof.
  revert ys; induction xs as [|x xs IH]; intros [|y ys]; cbn [lexLeb];
    try discriminate; try reflexivity.
  destruct (N.ltb_spec x y); [discriminate|].
  destruct (N.ltb_spec y x); [reflexivity|]. apply IH.
Qed.

Lemma lexLeb_trans xs ys zs :
  lexLeb xs ys = true -> lexLeb ys zs = true -> lexLeb xs zs = true.
Proof.
  revert ys zs; induction xs as [|x xs IH]; intros [|y ys] [|z zs]; cbn [lexLeb];
    try discriminate; try reflexivity.
  destruct (N.ltb_spec x y), (N.ltb_spec y x), (N.ltb_spec y z), (N.ltb_spec z y),
    (N.ltb_spec x z), (N.ltb_spec z x);
    try discriminate; try reflexivity; try lia.
  apply IH.
Qed.

Lemma leUnits_trans a b c : leUnits a b -> leUnits b c -> leUnits a c.
Proof. apply lexLeb_trans. Qed.

Lemma HdRel_insertSorted a y l :
  leUnits a y -> HdRel leUnits a l -> HdRel leUnits a (insertSorted y l).
Proof.
  intros Hay H. destruct l as [|z l]; simpl; [now constructor|].
  destruct (codeUnitsLeb y z); constructor; [exact Hay|].
  now inversion H.
Qed.

Lemma Sorted_insertSorted y l :
  Sorted leUnits l -> Sorted leUnits (insertSorted y l).
Proof.
  induction 1 as [|z l Hl IH Hz]; simpl; [repeat constructor|].
  destruct (codeUnitsLeb y z) eqn:E.
  - constructor; [now constructor | now constructor].
  - constructor; [exact IH|]. apply HdRel_insertSorted; [|exact Hz].
    now apply lexLeb_total.
Qed.

Lemma Sorted_Array_sort l : Sorted leUnits (Array_sort l).
Proof.
  induction l as [|y l IH]; simpl; [constructor | now apply Sorted_insertSorted].
Qed.

(** X3. The tag list of the sidebar ascends in the order of the UTF-16
    code units, has no duplicates, and holds exactly the tags that some
    note carries. *)
Theorem allTags_sorted_and_complete (notes : list Note) :
  StronglySorted leUnits (allTags notes)
  /\ NoDup (allTags notes)
  /\ forall tag, In tag (allTags notes) <->
                 exists note, In note notes /\ In tag (tags note).
Proof.
  unfold allTags. split; [|split].
  - apply Sorted_StronglySorted; [exact leUnits_trans | apply Sorted_Array_sort].
  - apply NoDup_Array_sort, NoDup_dedupe.
  - intros tag. rewrite In_Array_sort, In_dedupe, in_flat_map. reflexivity.
Qed.

(** The order is not that of the bytes: a character beyond U+FFFF is
    written as two surrogates and comes before U+FF5E, whose bytes are
    smaller; a tag of ASCII letters comes before both. *)
Example allTags_orders_by_code_units :
  allTags [mkNote "1" "t" "" [utf8 [239; 189; 158]%N; "b"] 0%Z 0%Z false false;
           mkNote "2" "t" "" [utf8 [240; 159; 152; 128]%N; "a"; "b"] 0%Z 0%Z false false]
  = ["a"; "b"; utf8 [240; 159; 152; 128]%N; utf8 [239; 189; 158]%N]
  /\ codeUnits (utf8 [240; 159; 152; 128]%N) = [55357; 56832]%N
  /\ codeUnits (utf8 [239; 189; 158]%N) = [65374]%N.
Proof. repeat split; vm_compute; reflexivity. Qed.

(** ** The date shown beside a note *)

Lemma ceilDays_bounds (d : Z) :
  (millisecondsPerDay * (ceilDays d - 1) < d <= millisecondsPerDay * ceilDays d)%Z.
Proof.
  unfold ceilDays.
  assert (HD : (0 < millisecondsPerDay)%Z) by reflexivity.
  pose proof (Z.mul_div_le (- d) millisecondsPerDay HD).
  pose proof (Z.mul_succ_div_gt (- d) millisecondsPerDay HD).
  lia.
Qed.

(** X4. [formatDate] looks only at the distance between the date and
    now, in whichever direction: up to one day it says "Today", up to two
    "Yesterday", up to seven the number of whole days begun minus one,
    beyond that the calendar date. At distance zero it says
    "-1 days ago". *)
Theorem formatDate_by_distance (now date : Date) :
  let distance := Z.abs (now - date) in
  (distance = 0%Z -> formatDate now date = Text "-1 days ago")
  /\ ((0 < distance <= millisecondsPerDay)%Z -> formatDate now date = Text "Today")
  /\ ((millisecondsPerDay < distance <= 2 * millisecondsPerDay)%Z ->
      formatDate now date = Text "Yesterday")
  /\ (forall k, (2 <= k <= 6)%Z ->
        (k * millisecondsPerDay < distance <= (k + 1) * millisecondsPerDay)%Z ->
        formatDate now date = Text (JSON.Number_toString k ++ " days ago"))
  /\ ((7 * millisecondsPerDay < distance)%Z ->
      formatDate now date = LocaleDate date now).
Proof.
  intros distance. unfold formatDate. fold distance.
  pose proof (ceilDays_bounds distance) as Hb.
  assert (HD : millisecondsPerDay = 86400000%Z) by reflexivity.
  repeat split.
  - intros H0. assert (E : ceilDays distance = 0%Z) by lia. now rewrite E.
  - intros H. assert (E : ceilDays distance = 1%Z) by lia. now rewrite E.
  - intros H. assert (E : ceilDays distance = 2%Z) by lia. now rewrite E.
  - intros k Hk H. assert (E : ceilDays distance = (k + 1)%Z) by nia.
    rewrite E.
    destruct (Z.eqb_spec (k + 1) 1); [lia|].
    destruct (Z.eqb_spec (k + 1) 2); [lia|].
    destruct (Z.leb_spec (k + 1) 7); [|lia].
    now replace (k + 1 - 1)%Z with k by lia.
  - intros H.
    destruct (Z.eqb_spec (ceilDays distance) 1); [lia|].
    destruct (Z.eqb_spec (ceilDays distance) 2); [lia|].
    destruct (Z.leb_spec (ceilDays distance) 7); [lia | reflexivity].
Qed.

Lemma formatDate_by_distance_witness :
  formatDate 1700000000000%Z 1700000000000%Z = Text "-1 days ago"
  /\ formatDate 1700000000000%Z 1699999999999%Z = Text "Today"
  /\ formatDate 1700000000000%Z 1700086400001%Z = Text "Yesterday"
  /\ formatDate 1700000000000%Z 1699700000000%Z = Text "3 days ago"
  /\ formatDate 1700000000000%Z 0%Z = LocaleDate 0%Z 1700000000000%Z.
Proof.
  pose proof (formatDate_by_distance 1700000000000%Z 1700000000000%Z) as H0.
  pose proof (formatDate_by_distance 1700000000000%Z 1699999999999%Z) as H1.
  pose proof (formatDate_by_distance 1700000000000%Z 1700086400001%Z) as H2.
  pose proof (formatDate_by_distance 1700000000000%Z 1699700000000%Z) as H3.
  pose proof (formatDate_by_distance 1700000000000%Z 0%Z) as H4.
  cbv zeta in *. split; [|split; [|split; [|split]]].
  - apply H0. reflexivity.
  - apply H1. vm_compute. split; [reflexivity | discriminate].
  - apply H2. vm_compute. split; [reflexivity | discriminate].
  - apply (proj1 (proj2 (proj2 (proj2 H3))) 3%Z); vm_compute;
      split; (reflexivity || discriminate).
  - apply H4. reflexivity.
Defined.

(** ** Deleting *)

Lemma filter_all {A : Type} (f : A -> bool) (l : list A) :
  (forall x, In x l -> f x = true) -> filter f l = l.
Proof.
  induction l as [|x l IH]; intros H; simpl; [reflexivity|].
  rewrite (H x (or_introl eq_refl)), IH; [reflexivity|].
  intros y Hy. apply H. now right.
Qed.

Lemma deleteNote_absent noteId st :
  (forall n, In n (notes st) -> id n <> noteId) ->
  (forall sel, selectedNote st = Some sel -> id sel <> noteId) ->
  deleteNote noteId st = st.
Proof.
  intros Hn Hsel. unfold deleteNote.
  rewrite filter_all.
  2:{ intros n Hin. apply negb_true_iff, String.eqb_neq. now apply Hn. }
  destruct st as [ns sel term tag ed buf store]. cbn in *.
  destruct sel as [s|]; [|reflexivity].
  destruct (String.eqb_spec (id s) noteId) as [E|_]; [|reflexivity].
  now destruct (Hsel s eq_refl).
Qed.

Lemma selectedNote_saveEffect st : selectedNote (saveEffect st) = selectedNote st.
Proof. unfold saveEffect. now destruct (Nat.ltb 0 (List.length (notes st))). Qed.

Lemma saveEffect_idempotent st : saveEffect (saveEffect st) = saveEffect st.
Proof.
  destruct st as [ns sel term tag ed buf store].
  unfold saveEffect. cbn. destruct ns; reflexivity.
Qed.

Lemma selectedNote_deleteNote noteId st sel :
  selectedNote (deleteNote noteId st) = Some sel -> id sel <> noteId.
Proof.
  unfold deleteNote. destruct (selectedNote st) as [s|] eqn:E.
  - destruct (String.eqb_spec (id s) noteId) as [_|Hne]; cbn.
    + discriminate.
    + rewrite E. now intros [= <-].
  - cbn. rewrite E. discriminate.
Qed.

(** X5. Deleting by id removes every note with that id and nothing
    else, keeps the order of the others, and is idempotent: a second
    delete of the same id leaves the whole state, store included, as the
    first left it. *)
Theorem delete_removes_exactly_and_is_idempotent (noteId : string) (st : AppState) :
  (forall n, In n (notes (step st (Delete noteId))) <->
             In n (notes st) /\ id n <> noteId)
  /\ Subsequence (notes (step st (Delete noteId))) (notes st)
  /\ step (step st (Delete noteId)) (Delete noteId) = step st (Delete noteId).
Proof.
  cbn [step]. rewrite notes_saveEffect, notes_deleteNote.
  split; [|split].
  - intros n. now rewrite filter_In, negb_true_iff, String.eqb_neq.
  - apply filter_Subsequence.
  - rewrite deleteNote_absent; [apply saveEffect_idempotent | |].
    + intros n. rewrite notes_saveEffect, notes_deleteNote, filter_In,
        negb_true_iff, String.eqb_neq. tauto.
    + intros sel. rewrite selectedNote_saveEffect. apply selectedNote_deleteNote.
Qed.

(** ** Star and archive *)

(** Two notes that differ at most in [updatedAt]. *)
Definition SameButUpdatedAt (a b : Note) : Prop :=
  id a = id b /\ title a = title b /\ content a = content b
  /\ tags a = tags b /\ createdAt a = createdAt b
  /\ isStarred a = isStarred b /\ isArchived a = isArchived b.

Lemma SameButUpdatedAt_refl a : SameButUpdatedAt a a.
Proof. repeat split. Qed.

Lemma find_by_unique_id (ns : list Note) (n : Note) :
  NoDup (map id ns) -> In n ns ->
  find (fun m => id m =? id n) ns = Some n.
Proof.
  induction ns as [|m ns IH]; intros Hnd Hin; [destruct Hin|].
  simpl in Hnd. inversion Hnd as [|? ? Hm Hnd']; subst. cbn [find].
  destruct Hin as [->|Hin]; [now rewrite String.eqb_refl|].
  destruct (String.eqb_spec (id m) (id n)) as [E|_]; [|now apply IH].
  destruct Hm. rewrite E. now apply in_map.
Qed.

(** What a toggle does to one note: the note of the given id gets its flag
    negated and the current time, every other note stays as it is. *)
Definition Toggled (flip : Note -> Note -> Prop) (noteId : string) (now : Date)
  (old new : Note) : Prop :=
  if id old =? noteId then
    flip old new /\ id new = id old /\ title new = title old
    /\ content new = content old /\ tags new = tags old
    /\ createdAt new = createdAt old /\ updatedAt new = now
  else new = old.

Definition starFlipped (old new : Note) : Prop :=
  isStarred new = negb (isStarred old) /\ isArchived new = isArchived old.

Definition archiveFlipped (old new : Note) : Prop :=
  isArchived new = negb (isArchived old) /\ isStarred new = isStarred old.

Lemma negatedFlag_unique field (ns : list Note) (n : Note) :
  NoDup (map id ns) -> In n ns -> negatedFlag field (id n) ns = negb (field n).
Proof.
  intros Hnd Hin. unfold negatedFlag. now rewrite find_by_unique_id.
Qed.

Lemma Forall2_map_In {A : Type} (R : A -> A -> Prop) (f : A -> A) (l : list A) :
  (forall x, In x l -> R x (f x)) -> Forall2 R l (map f l).
Proof.
  induction l as [|x l IH]; intros H; simpl; constructor.
  - apply H. now left.
  - apply IH. intros y Hy. apply H. now right.
Qed.

(** X6. When the ids of the list are pairwise distinct, a click on the
    star negates [isStarred] of the note with the given id, sets its
    [updatedAt], and changes nothing else in the list; the archive button
    does the same with [isArchived]. *)
Theorem toggles_flip_one_flag (noteId : string) (now : Date) (st : AppState) :
  NoDup (map id (notes st)) ->
  Forall2 (Toggled starFlipped noteId now)
          (notes st) (notes (toggleStar noteId now st))
  /\ Forall2 (Toggled archiveFlipped noteId now)
             (notes st) (notes (toggleArchive noteId now st)).
Proof.
  intros Hnd. unfold toggleStar, toggleArchive. rewrite !notes_updateNote.
  split; apply Forall2_map_In; intros n Hin; unfold Toggled;
    (destruct (String.eqb_spec (id n) noteId) as [E|_]; [|reflexivity]);
    subst noteId; rewrite (negatedFlag_unique _ _ _ Hnd Hin);
    unfold starFlipped, archiveFlipped, merge; cbn; tauto.
Qed.

Lemma toggles_flip_one_flag_witness :
  Forall2 (Toggled starFlipped "welcome" 9%Z)
          (notes (seededState 5%Z))
          (notes (toggleStar "welcome" 9%Z (seededState 5%Z))).
Proof.
  apply (toggles_flip_one_flag "welcome" 9%Z (seededState 5%Z)).
  cbn. constructor; [intros [] | constructor].
Defined.

(** X7. With pairwise distinct ids, two clicks on the star, or two on
    the archive button, bring every note back to what it was, [updatedAt]
    apart. *)
Theorem toggle_twice_restores (noteId : string) (t1 t2 : Date) (st : AppState) :
  NoDup (map id (notes st)) ->
  Forall2 SameButUpdatedAt (notes st)
          (notes (toggleStar noteId t2 (toggleStar noteId t1 st)))
  /\ Forall2 SameButUpdatedAt (notes st)
             (notes (toggleArchive noteId t2 (toggleArchive noteId t1 st))).
Proof.
  intros Hnd.
  assert (Hids : forall u now,
            u_id u = None ->
            map id (notes (updateNote noteId u now st)) = map id (notes st)).
  { intros u now Hu. rewrite notes_updateNote. now apply map_id_merge. }
  split.
  - unfold toggleStar at 1. rewrite notes_updateNote.
    set (st1 := toggleStar noteId t1 st).
    assert (Hnd1 : NoDup (map id (notes st1))).
    { unfold st1, toggleStar. now rewrite Hids. }
    unfold st1 at 2, toggleStar. rewrite notes_updateNote, map_map.
    apply Forall2_map_In. intros n Hin.
    destruct (String.eqb_spec (id n) noteId) as [E|Hne].
    + subst noteId. cbn [merge id orElse u_id].
      rewrite String.eqb_refl.
      assert (Hin1 : In (merge n (mkUpdates None None None None None None
                                   (Some (negatedFlag isStarred (id n) (notes st))) None) t1)
                        (notes st1)).
      { unfold st1, toggleStar. rewrite notes_updateNote. apply in_map_iff.
        exists n. now rewrite String.eqb_refl. }
      pose proof (negatedFlag_unique isStarred _ _ Hnd1 Hin1) as H1.
      cbn [merge id orElse u_id] in H1. rewrite H1.
      rewrite (negatedFlag_unique isStarred _ _ Hnd Hin).
      unfold SameButUpdatedAt, merge. cbn. rewrite negb_involutive. tauto.
    + apply String.eqb_neq in Hne. rewrite Hne. apply SameButUpdatedAt_refl.
  - unfold toggleArchive at 1. rewrite notes_updateNote.
    set (st1 := toggleArchive noteId t1 st).
    assert (Hnd1 : NoDup (map id (notes st1))).
    { unfold st1, toggleArchive. now rewrite Hids. }
    unfold st1 at 2, toggleArchive. rewrite notes_updateNote, map_map.
    apply Forall2_map_In. intros n Hin.
    destruct (String.eqb_spec (id n) noteId) as [E|Hne].
    + subst noteId. cbn [merge id orElse u_id].
      rewrite String.eqb_refl.
      assert (Hin1 : In (merge n (mkUpdates None None None None None None None
                                   (Some (negatedFlag isArchived (id n) (notes st)))) t1)
                        (notes st1)).
      { unfold st1, toggleArchive. rewrite notes_updateNote. apply in_map_iff.
        exists n. now rewrite String.eqb_refl. }
      pose proof (negatedFlag_unique isArchived _ _ Hnd1 Hin1) as H1.
      cbn [merge id orElse u_id] in H1. rewrite H1.
      rewrite (negatedFlag_unique isArchived _ _ Hnd Hin).
      unfold SameButUpdatedAt, merge. cbn. rewrite negb_involutive. tauto.
    + apply String.eqb_neq in Hne. rewrite Hne. apply SameButUpdatedAt_refl.
Qed.

Lemma toggle_twice_restores_witness :
  Forall2 SameButUpdatedAt (notes (seededState 5%Z))
          (notes (toggleStar "welcome" 9%Z (toggleStar "welcome" 8%Z (seededState 5%Z)))).
Proof.
  apply (toggle_twice_restores "welcome" 8%Z 9%Z (seededState 5%Z)).
  cbn. constructor; [intros [] | constructor].
Defined.

(** ** Invariants of the reachable states *)

(** A property of notes that creating, saving and toggling establish or
    keep holds of every note after the action. *)
Lemma NotesChange_Forall (P : Note -> Prop) ns ns' :
  (forall now, P (mkNote (JSON.Number_toString now) "Untitled Note" "" [] now now
                         false false)) ->
  (forall n text now,
      P n -> P (merge n (mkUpdates None (Some (deriveTitle text)) (Some text)
                                   (Some (extractTags text)) None None None None) now)) ->
  (forall n star archive now,
      P n -> P (merge n (mkUpdates None None None None None None star archive) now)) ->
  NotesChange ns ns' -> Forall P ns -> Forall P ns'.
Proof.
  intros Hcreate Hsave Hflag Hc H.
  destruct Hc as [now|noteId text now|noteId star archive now|noteId|].
  - constructor; [apply Hcreate | exact H].
  - rewrite Forall_forall in *. intros n' Hin.
    apply in_map_iff in Hin. destruct Hin as [n [<- Hin]].
    destruct (id n =? noteId); [apply Hsave|]; now apply H.
  - rewrite Forall_forall in *. intros n' Hin.
    apply in_map_iff in Hin. destruct Hin as [n [<- Hin]].
    destruct (id n =? noteId); [apply Hflag|]; now apply H.
  - rewrite Forall_forall in *. intros n Hin.
    apply filter_In in Hin. now apply H.
  - exact H.
Qed.

Lemma dropBlanks_step c s :
  dropBlanks (String c s) =
  match stripBlank (String c s) with
  | Some rest => dropBlanks rest
  | None => String c s
  end.
Proof.
  simp dropBlanks.
  destruct (inspect (stripBlank (String c s))) as [[rest|] Heq];
    simp dropBlanks; rewrite Heq; reflexivity.
Qed.

(** [\s*] removes a beginning made of white space and stops at the first
    character that is none. *)
Lemma dropBlanks_suffix s :
  exists blanks, s = blanks ++ dropBlanks s /\ Blank blanks
                 /\ stripBlank (dropBlanks s) = None.
Proof.
  remember (String.length s) as n eqn:Hn. revert s Hn.
  induction n as [n IH] using lt_wf_ind. intros s Hn.
  destruct s as [|c s]; [exists ""; repeat split; constructor|].
  rewrite dropBlanks_step.
  destruct (stripBlank (String c s)) as [rest|] eqn:E.
  - pose proof (stripBlank_shorter _ _ E) as Hlt.
    destruct (stripAny_spec _ _ _ E) as [w [Hin Hs]].
    destruct (IH (String.length rest)) with (s := rest) as [bl [Hr [Hb Hnone]]];
      [lia | reflexivity |].
    exists (w ++ bl). split; [|split; [now constructor | exact Hnone]].
    rewrite Hs, append_assoc. now rewrite <- Hr.
  - exists "". repeat split; [constructor | exact E].
Qed.

Lemma AllChars_append_r p a b : AllChars p (a ++ b) -> AllChars p b.
Proof.
  intros H c Hc. apply H. clear H.
  induction a as [|x a IH]; [exact Hc | right; exact IH].
Qed.

Lemma AllChars_tail p c s : AllChars p (String c s) -> AllChars p s.
Proof. intros H x Hx. apply H. now right. Qed.

(** The derived title is never empty and holds no line feed. *)
Lemma deriveTitle_nonempty_single_line text :
  deriveTitle text <> "" /\ AllChars notLineFeed (deriveTitle text).
Proof.
  unfold deriveTitle.
  assert (Hline : AllChars notLineFeed (hd "" (splitLines text))).
  { pose proof (splitLines_no_newline text) as H.
    destruct (splitLines text) as [|l ls]; [intros c []|].
    inversion H; subst. now apply forallb_iff. }
  set (stripped := match hd "" (splitLines text) with
                   | String c r => if Ascii.eqb c "#" then dropBlanks r
                                   else hd "" (splitLines text)
                   | EmptyString => hd "" (splitLines text)
                   end).
  assert (Hs : AllChars notLineFeed stripped).
  { unfold stripped. destruct (hd "" (splitLines text)) as [|c r]; [exact Hline|].
    destruct (Ascii.eqb c "#"); [|exact Hline].
    destruct (dropBlanks_suffix r) as [bl [E _]].
    apply AllChars_tail in Hline. rewrite E in Hline.
    now apply AllChars_append_r in Hline. }
  destruct stripped as [|c s]; cbn [truthy].
  - split; [discriminate | apply forallb_iff; reflexivity].
  - split; [discriminate | exact Hs].
Qed.

(** X8. In every state reached from the seeded start, every note has a
    title that is not empty and holds no line feed. *)
Theorem reachable_titles_nonempty (st : AppState) :
  Reachable st ->
  forall n, In n (notes st) -> title n <> "" /\ AllChars notLineFeed (title n).
Proof.
  intros Hr. rewrite <- Forall_forall. induction Hr as [now|st a _ IH].
  - change (notes (seededState now)) with [welcomeNote now].
    constructor; [|constructor]. split; [discriminate|].
    apply forallb_iff. reflexivity.
  - eapply NotesChange_Forall; [| | |apply step_NotesChange | exact IH].
    + intros now. split; [discriminate | apply forallb_iff; reflexivity].
    + intros n text now _. apply deriveTitle_nonempty_single_line.
    + intros n star archive now H. exact H.
Qed.

Lemma reachable_titles_nonempty_witness :
  title (mkNote "7" "Untitled Note" "#" [] 7%Z 8%Z false false) <> ""
  /\ AllChars notLineFeed (title (mkNote "7" "Untitled Note" "#" [] 7%Z 8%Z false false)).
Proof.
  apply (reachable_titles_nonempty
           (step (step (step (seededState 5%Z) (NewNote 7%Z)) (TypeText "#")) (Save 8%Z))).
  - repeat apply reach_step. apply reach_seed.
  - vm_compute. left. reflexivity.
Defined.

(** The selected note agrees, [updatedAt] apart, with a note of the
    list. *)
Definition SelectedIsListed (st : AppState) : Prop :=
  forall sel, selectedNote st = Some sel ->
              exists n, In n (notes st) /\ SameButUpdatedAt sel n.

Lemma SameButUpdatedAt_merge sel n u t1 t2 :
  SameButUpdatedAt sel n -> SameButUpdatedAt (merge sel u t1) (merge n u t2).
Proof.
  intros [H1 [H2 [H3 [H4 [H5 [H6 H7]]]]]]. unfold SameButUpdatedAt, merge. cbn.
  now rewrite H1, H2, H3, H4, H5, H6, H7.
Qed.

Lemma SelectedIsListed_saveEffect st :
  SelectedIsListed st -> SelectedIsListed (saveEffect st).
Proof.
  unfold SelectedIsListed. now rewrite notes_saveEffect, selectedNote_saveEffect.
Qed.

Lemma SelectedIsListed_updateNote noteId u now st :
  SelectedIsListed st -> SelectedIsListed (updateNote noteId u now st).
Proof.
  intros H sel' Hsel'. rewrite notes_updateNote.
  unfold updateNote in Hsel'.
  destruct (selectedNote st) as [sel|] eqn:E; [|cbn in Hsel'; congruence].
  destruct (H sel E) as [n [Hin Hsame]].
  assert (Hid : id n = id sel) by (symmetry; apply Hsame).
  destruct (String.eqb_spec (id sel) noteId) as [Eid|Hne]; cbn in Hsel'.
  - injection Hsel' as <-. exists (merge n u now). split.
    + apply in_map_iff. exists n. split; [|exact Hin].
      rewrite Hid. apply String.eqb_eq in Eid. now rewrite Eid.
    + now apply SameButUpdatedAt_merge.
  - rewrite E in Hsel'. injection Hsel' as <-. exists n. split; [|exact Hsame].
    apply in_map_iff. exists n. split; [|exact Hin].
    rewrite Hid. apply String.eqb_neq in Hne. now rewrite Hne.
Qed.

(** X9. In every state reached from the seeded start, the selected note,
    if there is one, is a note of the list: same id, title, content, tags,
    flags and creation time. *)
Theorem reachable_selection_is_listed (st : AppState) :
  Reachable st -> SelectedIsListed st.
Proof.
  induction 1 as [now|st a _ IH].
  - intros sel [= <-]. exists (welcomeNote now). split; [now left|].
    apply SameButUpdatedAt_refl.
  - destruct a as [now|now|noteId now|noteId now|noteId| | |text|term|tag|index];
      cbn [step].
    + apply SelectedIsListed_saveEffect. intros sel [= <-].
      eexists. split; [now left | apply SameButUpdatedAt_refl].
    + unfold saveNote. destruct (selectedNote st) as [sel|] eqn:E; [|exact IH].
      apply SelectedIsListed_saveEffect.
      pose proof (SelectedIsListed_updateNote (id sel)
        (mkUpdates None (Some (deriveTitle (editContent st))) (Some (editContent st))
                   (Some (extractTags (editContent st))) None None None None)
        now st IH) as H.
      exact H.
    + apply SelectedIsListed_saveEffect. now apply SelectedIsListed_updateNote.
    + apply SelectedIsListed_saveEffect. now apply SelectedIsListed_updateNote.
    + apply SelectedIsListed_saveEffect. intros sel Hsel.
      rewrite notes_deleteNote.
      unfold deleteNote in Hsel.
      destruct (selectedNote st) as [s|] eqn:E; [|cbn in Hsel; congruence].
      destruct (String.eqb_spec (id s) noteId) as [_|Hne]; cbn in Hsel;
        [discriminate|].
      rewrite E in Hsel. injection Hsel as <-.
      destruct (IH s E) as [n [Hin Hsame]]. exists n. split; [|exact Hsame].
      apply filter_In. split; [exact Hin|].
      apply negb_true_iff, String.eqb_neq.
      destruct Hsame as [Hid _]. now rewrite <- Hid.
    + unfold startEditing. destruct (selectedNote st) eqn:E; [|exact IH].
      intros sel Hsel. cbn in Hsel. cbn. apply IH. exact Hsel.
    + exact IH.
    + exact IH.
    + exact IH.
    + exact IH.
    + unfold selectNote.
      destruct (nth_error _ index) as [note|] eqn:E; [|exact IH].
      intros sel [= <-]. exists note. split; [|apply SameButUpdatedAt_refl].
      apply nth_error_In in E. unfold filteredNotes in E.
      now apply filter_In in E.
Qed.

Lemma reachable_selection_is_listed_witness :
  SelectedIsListed (step (step (seededState 5%Z) (NewNote 7%Z)) (Star "welcome" 8%Z)).
Proof.
  apply reachable_selection_is_listed. repeat apply reach_step. apply reach_seed.
Defined.

(** ** Timestamps *)

Section ClockOrder.

Variable clock : nat -> Date.

(** The clock never goes back from one reading to a later one. *)
Definition ClockMonotone : Prop := forall i j, i <= j -> (clock i <= clock j)%Z.

(** A note updated no earlier than created, and created no later than
    any reading from the [k]-th on. *)
Definition TimesOrdered (k : nat) (n : Note) : Prop :=
  (createdAt n <= updatedAt n)%Z
  /\ forall j, k <= j -> (createdAt n <= clock j)%Z.

Lemma TimesOrdered_later k k' n : k <= k' -> TimesOrdered k n -> TimesOrdered k' n.
Proof.
  intros Hk [H1 H2]. split; [exact H1|]. intros j Hj. apply H2. lia.
Qed.

Lemma TimesOrdered_merge k j n u :
  u_createdAt u = None -> k <= j ->
  TimesOrdered k n -> TimesOrdered k (merge n u (clock j)).
Proof.
  intros Hu Hj [_ Hn]. split; cbn; rewrite Hu; cbn; [now apply Hn | exact Hn].
Qed.

(** The readings taken along the list start at [k], and every note keeps
    its order whichever reading it got. *)
Lemma mergeEachAt_ordered noteId u ns : forall k0 k,
  u_createdAt u = None -> k0 <= k ->
  Forall (TimesOrdered k0) ns ->
  k <= snd (mergeEachAt clock noteId u ns k)
  /\ Forall (TimesOrdered k0) (fst (mergeEachAt clock noteId u ns k)).
Proof.
  induction ns as [|n ns IH]; intros k0 k Hu Hk Hall; cbn [mergeEachAt].
  - split; [cbn; lia | constructor].
  - inversion Hall as [|? ? Hn Hns]; subst.
    destruct (id n =? noteId).
    + destruct (IH k0 (S k) Hu) as [Hk' Hrest]; [lia | exact Hns |].
      destruct (mergeEachAt clock noteId u ns (S k)) as [rest' k'].
      cbn [fst snd] in *. split; [lia|]. constructor; [|exact Hrest].
      now apply TimesOrdered_merge.
    + destruct (IH k0 k Hu Hk Hns) as [Hk' Hrest].
      destruct (mergeEachAt clock noteId u ns k) as [rest' k'].
      cbn [fst snd] in *. split; [exact Hk'|]. now constructor.
Qed.

Lemma updateNoteAt_ordered noteId u k st :
  u_createdAt u = None ->
  Forall (TimesOrdered k) (notes st) ->
  k <= snd (updateNoteAt clock noteId u k st)
  /\ Forall (TimesOrdered k) (notes (fst (updateNoteAt clock noteId u k st))).
Proof.
  intros Hu Hall. unfold updateNoteAt.
  destruct (mergeEachAt_ordered noteId u (notes st) k k Hu (le_n k) Hall) as [Hk Hns].
  destruct (mergeEachAt clock noteId u (notes st) k) as [ns k1].
  cbn [fst snd] in *.
  destruct (selectedNote st) as [sel|]; [destruct (id sel =? noteId)|];
    cbn [fst snd notes setNotes setSelectedNote]; split; try exact Hns; lia.
Qed.

(** Every note of the state is in order, for the readings taken so far. *)
Definition AllOrdered (r : AppState * nat) : Prop :=
  Forall (TimesOrdered (snd r)) (notes (fst r)).

Lemma AllOrdered_later st k k' ns :
  k <= k' -> Forall (TimesOrdered k) ns -> notes st = ns -> AllOrdered (st, k').
Proof.
  intros Hk H <-. unfold AllOrdered. cbn [fst snd].
  eapply Forall_impl; [|exact H]. intros n. now apply TimesOrdered_later.
Qed.

Lemma AllOrdered_thenSave u k st noteId :
  u_createdAt u = None ->
  Forall (TimesOrdered k) (notes st) ->
  AllOrdered (thenSave (updateNoteAt clock noteId u k st)).
Proof.
  intros Hu Hall. destruct (updateNoteAt_ordered noteId u k st Hu Hall) as [Hk Hns].
  destruct (updateNoteAt clock noteId u k st) as [st' k'].
  cbn [fst snd thenSave] in *.
  apply (AllOrdered_later _ k k' (notes st')); [exact Hk | exact Hns|].
  apply notes_saveEffect.
Qed.

Hypothesis Hclock : ClockMonotone.

Lemma AllOrdered_seeded : AllOrdered (seededAt clock).
Proof.
  unfold AllOrdered, seededAt, welcomeNoteAt. cbn [fst snd].
  rewrite notes_saveEffect. cbn [notes setSelectedNote setNotes].
  constructor; [|constructor]. split; cbn; [apply Hclock; lia|].
  intros j Hj. apply Hclock. lia.
Qed.

Lemma AllOrdered_stepAt r g : AllOrdered r -> AllOrdered (stepAt clock r g).
Proof.
  destruct r as [st k]. unfold AllOrdered at 1. cbn [fst snd]. intros Hall.
  destruct g as [| |noteId|noteId|noteId| | |text|term|tag|index]; cbn [stepAt].
  - unfold createNoteAt, thenSave, AllOrdered. cbn [fst snd].
    rewrite notes_saveEffect.
    cbn [notes setEditContent setIsEditing setSelectedNote setNotes].
    constructor.
    + split; cbn; [apply Hclock; lia|]. intros j Hj. apply Hclock. lia.
    + eapply Forall_impl; [|exact Hall]. intros n. apply TimesOrdered_later. lia.
  - unfold saveNoteAt. destruct (selectedNote st) as [sel|] eqn:Hsel; [|exact Hall].
    match goal with
    | |- context [updateNoteAt clock ?i ?u k st] =>
        pose proof (updateNoteAt_ordered i u k st eq_refl Hall) as [Hk Hns];
        destruct (updateNoteAt clock i u k st) as [st' k']
    end.
    cbn [fst snd thenSave] in *.
    apply (AllOrdered_later _ k k' (notes st')); [exact Hk | exact Hns|].
    now rewrite notes_saveEffect.
  - now apply AllOrdered_thenSave.
  - now apply AllOrdered_thenSave.
  - unfold AllOrdered. cbn [fst snd].
    rewrite notes_saveEffect, notes_deleteNote.
    apply Forall_forall. intros n Hin. apply filter_In in Hin.
    rewrite Forall_forall in Hall. now apply Hall.
  - unfold AllOrdered. cbn [fst snd]. now rewrite notes_startEditing.
  - exact Hall.
  - exact Hall.
  - exact Hall.
  - exact Hall.
  - unfold AllOrdered. cbn [fst snd]. now rewrite notes_selectNote.
Qed.

Lemma AllOrdered_run gestures : forall r,
  AllOrdered r -> AllOrdered (fold_left (stepAt clock) gestures r).
Proof.
  induction gestures as [|g gestures IH]; intros r H; [exact H|].
  cbn [fold_left]. apply IH. now apply AllOrdered_stepAt.
Qed.

End ClockOrder.

(** X10. With every [new Date()] and [Date.now()] taking its own reading
    of the clock: as long as the clock never goes back from one reading to
    a later one, every note of a state reached from the seeded start was
    updated no earlier than it was created. *)
Theorem updatedAt_not_before_createdAt
  (clock : nat -> Date) (gestures : list Gesture) :
  ClockMonotone clock ->
  forall n, In n (notes (fst (runAt clock gestures))) ->
            (createdAt n <= updatedAt n)%Z.
Proof.
  intros Hm n Hin.
  pose proof (AllOrdered_run clock Hm gestures (seededAt clock)
                (AllOrdered_seeded clock Hm)) as H.
  unfold AllOrdered in H. rewrite Forall_forall in H.
  now destruct (H n Hin).
Qed.

Lemma updatedAt_not_before_createdAt_witness :
  (createdAt (mkNote "2" "Untitled Note" "" [] 3%Z 5%Z true false)
   <= updatedAt (mkNote "2" "Untitled Note" "" [] 3%Z 5%Z true false))%Z.
Proof.
  apply (updatedAt_not_before_createdAt Z.of_nat [ClickNew; ClickStar "2"]).
  - intros i j Hij. lia.
  - vm_compute. left. reflexivity.
Defined.

(** Without that, [updatedAt] can precede [createdAt], already between
    the two readings of one creation. *)
Example clock_going_back_breaks_order :
  map (fun n => (createdAt n, updatedAt n))
      (notes (fst (runAt (fun k => if Nat.eqb k 3 then 9%Z else 5%Z) [ClickNew])))
  = [(9%Z, 5%Z); (5%Z, 5%Z)].
Proof. reflexivity. Qed.

(** ** What is stored is read back *)

Module RoundTrip.
Import JSON.

Lemma isHex_hexChar d : (d < 16)%N -> isHex (hexChar d) = true.
Proof.
  intros H.
  assert (E : In d [0; 1; 2; 3; 4; 5; 6; 7; 8; 9; 10; 11; 12; 13; 14; 15]%N).
  { simpl. lia. }
  simpl in E. repeat (destruct E as [<-|E]; [reflexivity|]). destruct E.
Qed.

(** The escaped form of a character is read back as itself. *)
Lemma parseChars_escapeChar c tail l r :
  parseChars tail = Some (l, r) ->
  parseChars (escapeChar c ++ tail) = Some (escapeChar c ++ l, r).
Proof.
  intros H. unfold escapeChar.
  destruct (Ascii.eqb_spec c "034") as [->|H1]; [cbn; now rewrite H|].
  destruct (Ascii.eqb_spec c "092") as [->|H2]; [cbn; now rewrite H|].
  destruct (Ascii.eqb_spec c "008") as [->|H3]; [cbn; now rewrite H|].
  destruct (Ascii.eqb_spec c "009") as [->|H4]; [cbn; now rewrite H|].
  destruct (Ascii.eqb_spec c "010") as [->|H5]; [cbn; now rewrite H|].
  destruct (Ascii.eqb_spec c "012") as [->|H6]; [cbn; now rewrite H|].
  destruct (Ascii.eqb_spec c "013") as [->|H7]; [cbn; now rewrite H|].
  destruct (N_of_ascii c <? 32)%N eqn:Hc.
  - apply N.ltb_lt in Hc.
    cbn [append backslash parseChars]. cbn [Ascii.eqb Bool.eqb isSimpleEscape orb].
    change (isHex "0") with true. cbn [andb].
    rewrite !isHex_hexChar.
    + cbn [andb]. rewrite H. reflexivity.
    + apply N.mod_lt. discriminate.
    + apply N.Div0.div_lt_upper_bound. lia.
  - cbn [append parseChars].
    apply Ascii.eqb_neq in H1, H2. rewrite H1, H2, Hc, H. reflexivity.
Qed.

Lemma parseChars_escaped s rest :
  parseChars (escape s ++ dquote ++ rest) = Some (escape s, rest).
Proof.
  induction s as [|c s IH]; [reflexivity|].
  cbn [escape]. rewrite append_assoc.
  now apply parseChars_escapeChar.
Qed.

Lemma skipWs_nonblank c r : isWs c = false -> skipWs (String c r) = String c r.
Proof. intros H. unfold skipWs. cbn. now rewrite H. Qed.

Lemma parseValue_string fuel s rest :
  parseValue (S fuel) (quote s ++ rest) = Some (JString (escape s), rest).
Proof.
  unfold quote. rewrite !append_assoc. cbn [dquote append].
  cbn [parseValue]. rewrite skipWs_nonblank by reflexivity.
  cbn [Ascii.eqb Bool.eqb]. cbn.
  change (String "034" rest) with (dquote ++ rest).
  now rewrite parseChars_escaped.
Qed.

Lemma parseValue_bool fuel b rest :
  parseValue (S fuel) (stringifyBool b ++ rest) = Some (JBool b, rest).
Proof.
  destruct b; cbn [stringifyBool append parseValue];
    rewrite skipWs_nonblank by reflexivity; cbn; unfold literal.
  - change (String "t" (String "r" (String "u" (String "e" rest))))
      with ("true" ++ rest).
    now rewrite prefix_append, slice_append.
  - change (String "f" (String "a" (String "l" (String "s" (String "e" rest)))))
      with ("false" ++ rest).
    now rewrite prefix_append, slice_append.
Qed.

(** The text of a value begins with a character that is neither a blank
    nor a closing bracket. *)
Definition OpensValue (text : string) : Prop :=
  exists c t, text = String c t /\ isWs c = false /\ Ascii.eqb c "]" = false
              /\ Ascii.eqb c "}" = false.

Section Elements.

Context {A : Type} (pv : string -> option (value * string))
        (write : A -> string) (tree : A -> value).

Hypothesis pv_reads : forall x rest, pv (write x ++ rest) = Some (tree x, rest).

(** The elements behind the first, each with its comma. *)
Fixpoint elementsTail (xs : list A) : string :=
  match xs with
  | [] => EmptyString
  | x :: xs' => "," ++ write x ++ elementsTail xs'
  end.

Lemma concat_elements x xs :
  String.concat "," (map write (x :: xs)) = write x ++ elementsTail xs.
Proof.
  revert x; induction xs as [|y xs IH]; intros x.
  - cbn. now rewrite append_nil_r.
  - change (String.concat "," (map write (x :: y :: xs)))
      with (write x ++ "," ++ String.concat "," (map write (y :: xs))).
    now rewrite IH.
Qed.

Lemma parseItems_elements xs : forall k rest,
  List.length xs < k ->
  parseItems pv k (elementsTail xs ++ "]" ++ rest) = Some (map tree xs, rest).
Proof.
  induction xs as [|x xs IH]; intros k rest Hk;
    (destruct k as [|k]; [simpl in Hk; lia|]).
  - cbn [elementsTail append parseItems]. now rewrite skipWs_nonblank by reflexivity.
  - cbn [elementsTail]. rewrite !append_assoc.
    change ("," ++ ?z) with (String "," z). cbn [parseItems].
    rewrite skipWs_nonblank by reflexivity.
    change (Ascii.eqb "," "]") with false. change (Ascii.eqb "," ",") with true.
    cbv iota. rewrite pv_reads, IH by (simpl in Hk; lia). reflexivity.
Qed.

Lemma elementsTail_length xs rest :
  List.length xs < String.length (elementsTail xs ++ "]" ++ rest).
Proof.
  induction xs as [|x xs IH]; [cbn; lia|].
  cbn [elementsTail]. rewrite !append_assoc. cbn [append String.length List.length].
  rewrite length_append. cbn [append] in IH. lia.
Qed.

End Elements.

Lemma parseValue_array {A : Type} fuel (write : A -> string) (tree : A -> value) xs rest :
  (forall x rest', parseValue fuel (write x ++ rest') = Some (tree x, rest')) ->
  (forall x, OpensValue (write x)) ->
  parseValue (S fuel) (stringifyArray write xs ++ rest)
  = Some (JArray (map tree xs), rest).
Proof.
  intros Hread Hopen. unfold stringifyArray. rewrite !append_assoc.
  change ("[" ++ ?z) with (String "[" z). cbn [parseValue].
  rewrite skipWs_nonblank by reflexivity.
  change (Ascii.eqb "[" "[") with true. cbv iota.
  destruct xs as [|x xs].
  - cbn [map String.concat]. change ("" ++ ?z) with z.
    change ("]" ++ rest) with (String "]" rest).
    now rewrite skipWs_nonblank by reflexivity.
  - rewrite (concat_elements write), append_assoc.
    set (tail := elementsTail write xs ++ "]" ++ rest).
    destruct (Hopen x) as [c [t [E [Hws [Hb _]]]]].
    assert (Hsk : skipWs (write x ++ tail) = String c (t ++ tail)).
    { rewrite E. cbn [append]. now apply skipWs_nonblank. }
    rewrite Hsk, Hb, Hread. unfold tail.
    rewrite (parseItems_elements (parseValue fuel) write tree Hread)
      by apply elementsTail_length.
    reflexivity.
Qed.

(** A member as written: its name, the text of its value, and the tree the
    value is read as. *)
Definition Member : Type := string * string * value.

Definition memberText (m : Member) : string := member (fst (fst m)) (snd (fst m)).
Definition memberTree (m : Member) : string * value := (escape (fst (fst m)), snd m).

Definition ReadsMember (pv : string -> option (value * string)) (m : Member) : Prop :=
  forall rest, pv (snd (fst m) ++ rest) = Some (snd m, rest).

Lemma parseMember_member pv m rest :
  ReadsMember pv m -> parseMember pv (memberText m ++ rest) = Some (memberTree m, rest).
Proof.
  intros H. destruct m as [[name text] v]. unfold ReadsMember in H.
  unfold memberText, memberTree, member, quote.
  cbn [fst snd] in *. rewrite !append_assoc.
  change (dquote ++ ?z) with (String "034" z) at 1.
  unfold parseMember. rewrite skipWs_nonblank by reflexivity.
  change (Ascii.eqb "034" "034") with true. cbv iota.
  rewrite parseChars_escaped.
  change (":" ++ ?z) with (String ":" z).
  rewrite skipWs_nonblank by reflexivity.
  change (Ascii.eqb ":" ":") with true. cbv iota.
  now rewrite (H rest).
Qed.

Lemma parseMembers_elements pv ms : forall k rest,
  Forall (ReadsMember pv) ms -> List.length ms < k ->
  parseMembers pv k (elementsTail memberText ms ++ "}" ++ rest)
  = Some (map memberTree ms, rest).
Proof.
  induction ms as [|m ms IH]; intros k rest Hms Hk;
    (destruct k as [|k]; [simpl in Hk; lia|]).
  - cbn [elementsTail append parseMembers]. now rewrite skipWs_nonblank by reflexivity.
  - inversion Hms as [|? ? Hm Hms']; subst.
    cbn [elementsTail]. rewrite !append_assoc.
    change ("," ++ ?z) with (String "," z). cbn [parseMembers].
    rewrite skipWs_nonblank by reflexivity.
    change (Ascii.eqb "," "}") with false. change (Ascii.eqb "," ",") with true.
    cbv iota. rewrite (parseMember_member pv m _ Hm).
    rewrite IH by (try assumption; simpl in Hk; lia). reflexivity.
Qed.

Lemma membersTail_length ms rest :
  List.length ms < String.length (elementsTail memberText ms ++ "}" ++ rest).
Proof.
  induction ms as [|m ms IH]; [cbn; lia|].
  cbn [elementsTail]. rewrite !append_assoc. cbn [append String.length List.length].
  rewrite length_append. cbn [append] in IH. lia.
Qed.

Lemma parseValue_object fuel m ms rest :
  Forall (ReadsMember (parseValue fuel)) (m :: ms) ->
  parseValue (S fuel)
    ("{" ++ String.concat "," (map memberText (m :: ms)) ++ "}" ++ rest)
  = Some (JObject (map memberTree (m :: ms)), rest).
Proof.
  intros Hms. inversion Hms as [|? ? Hm Hms']; subst.
  change ("{" ++ ?z) with (String "{" z). cbn [parseValue].
  rewrite skipWs_nonblank by reflexivity.
  change (Ascii.eqb "{" "[") with false. change (Ascii.eqb "{" "{") with true.
  cbv iota.
  rewrite (concat_elements memberText), append_assoc.
  set (tail := elementsTail memberText ms ++ "}" ++ rest).
  assert (Hsk : exists t, skipWs (memberText m ++ tail) = String "034" t).
  { destruct m as [[name text] v]. unfold memberText, member, quote. cbn [fst snd].
    rewrite !append_assoc. change (dquote ++ ?z) with (String "034" z) at 1.
    eexists. now apply skipWs_nonblank. }
  destruct Hsk as [t Hsk]. rewrite Hsk.
  change (Ascii.eqb "034" "}") with false. cbv iota.
  rewrite (parseMember_member _ m tail Hm). unfold tail.
  rewrite (parseMembers_elements _ ms _ rest Hms') by apply membersTail_length.
  reflexivity.
Qed.

(** The tree a note is read as: its eight members in the order they are
    written, the strings as their escaped lexemes. *)
Definition stringTree (s : string) : value := JString (escape s).

Definition noteMembers (note : Note) : list Member :=
  [ ("id", quote (id note), stringTree (id note));
    ("title", quote (title note), stringTree (title note));
    ("content", quote (content note), stringTree (content note));
    ("tags", stringifyArray quote (tags note), JArray (map stringTree (tags note)));
    ("createdAt", quote (toISOString (createdAt note)),
       stringTree (toISOString (createdAt note)));
    ("updatedAt", quote (toISOString (updatedAt note)),
       stringTree (toISOString (updatedAt note)));
    ("isStarred", stringifyBool (isStarred note), JBool (isStarred note));
    ("isArchived", stringifyBool (isArchived note), JBool (isArchived note)) ].

Definition noteTree (note : Note) : value := JObject (map memberTree (noteMembers note)).

Lemma quote_opens s : OpensValue (quote s).
Proof.
  unfold quote. exists "034"%char, (escape s ++ dquote). repeat split.
Qed.

Lemma parseValue_note fuel note rest :
  parseValue (S (S (S fuel))) (stringifyNote note ++ rest) = Some (noteTree note, rest).
Proof.
  unfold stringifyNote, noteTree. rewrite !append_assoc.
  change [member "id" (quote (id note)); member "title" (quote (title note));
          member "content" (quote (content note));
          member "tags" (stringifyArray quote (tags note));
          member "createdAt" (quote (toISOString (createdAt note)));
          member "updatedAt" (quote (toISOString (updatedAt note)));
          member "isStarred" (stringifyBool (isStarred note));
          member "isArchived" (stringifyBool (isArchived note))]
    with (map memberText (noteMembers note)).
  apply parseValue_object. unfold noteMembers.
  repeat constructor; intros r; cbn [fst snd].
  - apply parseValue_string.
  - apply parseValue_string.
  - apply parseValue_string.
  - apply parseValue_array; [intros; apply parseValue_string | apply quote_opens].
  - apply parseValue_string.
  - apply parseValue_string.
  - apply parseValue_bool.
  - apply parseValue_bool.
Qed.

Lemma stringifyNote_opens note : OpensValue (stringifyNote note).
Proof. unfold stringifyNote. eexists "{"%char, _. repeat split. Qed.

Lemma parseValue_notes fuel notes rest :
  parseValue (S (S (S (S fuel)))) (stringify notes ++ rest)
  = Some (JArray (map noteTree notes), rest).
Proof.
  unfold stringify. apply parseValue_array.
  - intros. apply parseValue_note.
  - apply stringifyNote_opens.
Qed.

(** [JSON.parse] reads what [JSON.stringify] wrote of a note list: an
    array with one object for each note. *)
Lemma parse_stringify notes : parse (stringify notes) = Some (JArray (map noteTree notes)).
Proof.
  unfold parse.
  rewrite (JSONFacts.parseValue_fuel (String.length (stringify notes)) (stringify notes)
             (S (String.length (stringify notes)))
             (S (S (S (S (String.length (stringify notes)))))))
    by lia.
  rewrite <- (append_nil_r (stringify notes)) at 2.
  now rewrite parseValue_notes.
Qed.

End RoundTrip.


Lemma loadEffect_stringify (notes : list Note) :
  loadEffect (Some (JSON.stringify notes)) = Restored (map RoundTrip.noteTree notes).
Proof.
  unfold loadEffect.
  assert (Ht : truthy (JSON.stringify notes) = true) by reflexivity.
  rewrite Ht, RoundTrip.parse_stringify.
  assert (Hr : List.forallb revivable (map RoundTrip.noteTree notes) = true).
  { apply forallb_forall. intros v Hv. apply in_map_iff in Hv.
    now destruct Hv as [n [<- _]]. }
  now rewrite Hr.
Qed.

(** X11. Whatever note list the save effect wrote, the load effect of the
    next start reads it back without throwing: [JSON.parse] accepts the
    text, and one object is restored for each note, with the eight members
    in the order written. *)
Theorem stored_list_is_restored (notes : list Note) :
  JSON.parse (JSON.stringify notes) = Some (JSON.JArray (map RoundTrip.noteTree notes))
  /\ loadEffect (Some (JSON.stringify notes)) = Restored (map RoundTrip.noteTree notes).
Proof. split; [apply RoundTrip.parse_stringify | apply loadEffect_stringify]. Qed.

Lemma nonmutating_step st a :
  mutates st a = false ->
  notes (step st a) = notes st /\ localStorage (step st a) = localStorage st.
Proof.
  destruct a as [now|now|noteId now|noteId now|noteId| | |text|term|tag|index];
    cbn [mutates step]; try discriminate; intros H; try (split; reflexivity).
  - unfold saveNote. destruct (selectedNote st); [discriminate | split; reflexivity].
  - unfold startEditing. destruct (selectedNote st); split; reflexivity.
  - unfold selectNote. destruct (nth_error _ index); split; reflexivity.
Qed.

(** The note list the save effect wrote last along the actions: the one
    of the latest state whose list was not empty, [last] when there was
    none. *)
Fixpoint lastWritten (st : AppState) (last : list Note) (actions : list Action)
  : list Note :=
  match actions with
  | [] => last
  | a :: rest =>
      lastWritten (step st a)
                  (match notes (step st a) with [] => last | ns => ns end) rest
  end.

(** The store holds the serialization of [last], a non-empty list, which
    is the current list unless that is empty. *)
Definition StoreHolds (st : AppState) (last : list Note) : Prop :=
  last <> [] /\ localStorage st = Some (JSON.stringify last)
  /\ (notes st <> [] -> last = notes st).

Lemma StoreHolds_step st last a :
  StoreHolds st last ->
  StoreHolds (step st a) (match notes (step st a) with [] => last | ns => ns end).
Proof.
  intros [Hne [Hs Hcur]]. unfold StoreHolds. destruct (mutates st a) eqn:Hm.
  - destruct (mutates_step st a Hm) as [st1 [Hstep Hst1]].
    destruct (saveEffect_cases st1) as [Hn Hsv]. rewrite Hstep.
    destruct (notes st1) as [|n l] eqn:E; rewrite Hn.
    + split; [exact Hne|]. split; [now rewrite Hsv, Hst1|].
      intros Hnil. now destruct Hnil.
    + split; [discriminate|]. split; [exact Hsv | reflexivity].
  - destruct (nonmutating_step st a Hm) as [Hn Hl]. rewrite Hn, Hl.
    destruct (notes st) as [|n l] eqn:E.
    + split; [exact Hne|]. split; [exact Hs|]. intros Hnil. now destruct Hnil.
    + split; [discriminate|]. split; [|reflexivity].
      rewrite Hs. f_equal. f_equal. apply Hcur. discriminate.
Qed.

Lemma StoreHolds_run actions : forall st last,
  StoreHolds st last -> StoreHolds (run st actions) (lastWritten st last actions).
Proof.
  induction actions as [|a actions IH]; intros st last H; [exact H|].
  cbn [run fold_left lastWritten]. apply IH. now apply StoreHolds_step.
Qed.

(** X12. After any actions from the seeded start the store holds the
    serialization of the last note list that was not empty, which is the
    current list unless every note has been deleted, and the next start
    restores that list: the welcome note is never seeded a second time. *)
Theorem reachable_store_restores (now0 : Date) (actions : list Action) :
  lastWritten (seededState now0) [welcomeNote now0] actions <> []
  /\ localStorage (run (seededState now0) actions)
     = Some (JSON.stringify
               (lastWritten (seededState now0) [welcomeNote now0] actions))
  /\ loadEffect (localStorage (run (seededState now0) actions))
     = Restored (map RoundTrip.noteTree
                     (lastWritten (seededState now0) [welcomeNote now0] actions))
  /\ (notes (run (seededState now0) actions) <> [] ->
      lastWritten (seededState now0) [welcomeNote now0] actions
      = notes (run (seededState now0) actions)).
Proof.
  destruct (StoreHolds_run actions (seededState now0) [welcomeNote now0])
    as [Hne [Hs Hcur]].
  { split; [discriminate|]. split; reflexivity. }
  split; [exact Hne|]. split; [exact Hs|]. split; [|exact Hcur].
  rewrite Hs. apply loadEffect_stringify.
Qed.

(** After the welcome note, a new note and then both deletions, the store
    still holds the list with the new note alone. *)
Example store_keeps_last_list_after_deleting_all :
  notes (run (seededState 5%Z) [NewNote 7%Z; Delete "welcome"; Delete "7"]) = []
  /\ lastWritten (seededState 5%Z) [welcomeNote 5%Z]
                 [NewNote 7%Z; Delete "welcome"; Delete "7"]
     = [mkNote "7" "Untitled Note" "" [] 7%Z 7%Z false false].
Proof. split; vm_compute; reflexivity. Qed.

(** ** The shape of extracted tags *)

(** The characters of a stored tag: lower case letters, digits, [_], [-]. *)
Definition isStoredTagChar (c : ascii) : bool :=
  (isLower c || isDigit c || Ascii.eqb c "_" || Ascii.eqb c "-")%bool.

Definition ValidToken (tok : string) : Prop :=
  tok <> "" /\ AllChars isTagChar tok.

Lemma lowerChar_tagChar c : isTagChar c = true -> isStoredTagChar (lowerChar c) = true.
Proof. destruct c as [[] [] [] [] [] [] [] []]; try discriminate; reflexivity. Qed.

Lemma lowerChar_idempotent c : lowerChar (lowerChar c) = lowerChar c.
Proof. destruct c as [[] [] [] [] [] [] [] []]; reflexivity. Qed.

Lemma storedTagChar_tagChar c : isStoredTagChar c = true -> isTagChar c = true.
Proof. destruct c as [[] [] [] [] [] [] [] []]; try discriminate; reflexivity. Qed.

Lemma toLowerCase_idempotent s : toLowerCase (toLowerCase s) = toLowerCase s.
Proof.
  induction s as [|c s IH]; [reflexivity|]. cbn. now rewrite lowerChar_idempotent, IH.
Qed.

Lemma toLowerCase_token tok :
  ValidToken tok ->
  toLowerCase tok <> "" /\ AllChars isStoredTagChar (toLowerCase tok).
Proof.
  intros [Hne Hall]. split; [now destruct tok|].
  induction tok as [|c tok IH]; [intros x []|].
  intros x [<-|Hx].
  - apply lowerChar_tagChar, Hall. now left.
  - destruct tok as [|d tok]; [destruct Hx|].
    apply IH; [discriminate | | exact Hx].
    intros y Hy. apply Hall. now right.
Qed.

Lemma TagScan_valid text toks : TagScan text toks -> Forall ValidToken toks.
Proof.
  induction 1 as [|c s toks _ _ IH|tok rest toks Hne Htok _ _ IH];
    [constructor | exact IH | constructor; [now split | exact IH]].
Qed.

(** X13. Every tag that [extractTags] returns is non-empty and made of
    lower case letters, digits, [_] and [-] only. *)
Theorem extracted_tags_are_lowercase_words (text tag : string) :
  In tag (extractTags text) -> tag <> "" /\ AllChars isStoredTagChar tag.
Proof.
  destruct (TagScan_total text) as [toks Hscan].
  rewrite extractTags_matches, (TagScan_matches _ _ Hscan), map_map.
  cbn [slice]. intros Hin. apply in_map_iff in Hin.
  destruct Hin as [tok [<- Hin]]. apply toLowerCase_token.
  pose proof (TagScan_valid _ _ Hscan) as Hv. rewrite Forall_forall in Hv.
  now apply Hv.
Qed.

Lemma extracted_tags_are_lowercase_words_witness :
  "getting-started" <> "" /\ AllChars isStoredTagChar "getting-started".
Proof.
  apply (extracted_tags_are_lowercase_words "Done? #Getting-Started!").
  vm_compute. left. reflexivity.
Defined.

(** The tokens written one after the other, each behind its [#], with
    blanks between. *)
Definition hashtagLine (toks : list string) : string :=
  String.concat " " (map (fun tok => "#" ++ tok) toks).

Lemma TagScan_hashtagLine toks :
  Forall ValidToken toks -> TagScan (hashtagLine toks) toks.
Proof.
  unfold hashtagLine. induction 1 as [|tok toks [Hne Htok] Hrest IH];
    [constructor|].
  destruct toks as [|tok' toks].
  - cbn [map String.concat].
    replace ("#" ++ tok) with ("#" ++ tok ++ "") by (now rewrite append_nil_r).
    apply scan_token; [exact Hne | exact Htok | | constructor].
    intros [c [r [E _]]]. discriminate.
  - change (String.concat " " (map (fun t => "#" ++ t) (tok :: tok' :: toks)))
      with (("#" ++ tok) ++ " " ++ String.concat " " (map (fun t => "#" ++ t) (tok' :: toks))).
    rewrite append_assoc.
    apply scan_token; try assumption.
    + intros [c [r [E Hc]]]. injection E as <- _. discriminate.
    + cbn [append]. apply scan_other; [left; discriminate | exact IH].
Qed.

(** X14. Tokens written as [#token] with blanks between are extracted
    back, lowercased, in the same order; in particular writing the tags
    extracted from a text as hashtags and extracting again gives the same
    tags. *)
Theorem extractTags_reads_back_hashtags :
  (forall toks, Forall ValidToken toks ->
                extractTags (hashtagLine toks) = map toLowerCase toks)
  /\ (forall text, extractTags (hashtagLine (extractTags text)) = extractTags text).
Proof.
  assert (H : forall toks, Forall ValidToken toks ->
                           extractTags (hashtagLine toks) = map toLowerCase toks).
  { intros toks Hv. pose proof (TagScan_hashtagLine toks Hv) as Hscan.
    now rewrite extractTags_matches, (TagScan_matches _ _ Hscan), map_map. }
  split; [exact H|].
  intros text. rewrite H.
  - destruct (TagScan_total text) as [toks Hscan].
    rewrite extractTags_matches, (TagScan_matches _ _ Hscan), !map_map.
    apply map_ext. intros tok. cbn [slice]. apply toLowerCase_idempotent.
  - apply Forall_forall. intros tag Hin.
    destruct (TagScan_total text) as [toks Hscan].
    rewrite extractTags_matches, (TagScan_matches _ _ Hscan), map_map in Hin.
    cbn [slice] in Hin. apply in_map_iff in Hin. destruct Hin as [tok [<- Hin]].
    pose proof (TagScan_valid _ _ Hscan) as Hv. rewrite Forall_forall in Hv.
    destruct (toLowerCase_token tok (Hv tok Hin)) as [Hne Hall].
    split; [exact Hne|]. intros c Hc. now apply storedTagChar_tagChar, Hall.
Qed.

Lemma extractTags_reads_back_hashtags_witness :
  extractTags (hashtagLine ["Work"; "to-do"]) = ["work"; "to-do"].
Proof.
  apply (proj1 extractTags_reads_back_hashtags ["Work"; "to-do"]).
  repeat constructor; try discriminate; apply forallb_iff; reflexivity.
Defined.

(** ** One marked span amid plain text *)

(** No line terminator stands in [s]. *)
Definition NoLineTerminator (s : string) : Prop :=
  forall w, In w lineTerminators -> ~ Substring w s.

Lemma AllChars_append p a b : AllChars p a -> AllChars p b -> AllChars p (a ++ b).
Proof.
  intros Ha Hb c Hc. induction a as [|x a IH]; [now apply Hb|].
  destruct Hc as [<-|Hc]; [apply Ha; now left|].
  apply IH; [|exact Hc]. intros y Hy. apply Ha. now right.
Qed.

Lemma NoChar_literal d s :
  JSString.forallb (fun c => negb (Ascii.eqb c d)) s = true -> NoChar d s.
Proof. intros H. now apply forallb_iff. Qed.

Lemma stripAny_prefix ws s r :
  stripAny ws s = Some r -> exists w, In w ws /\ String.prefix w s = true.
Proof.
  intros H. destruct (stripAny_spec _ _ _ H) as [w [Hin ->]].
  exists w. split; [exact Hin | apply prefix_append].
Qed.

Lemma lineTerminators_NoChar d w :
  In w lineTerminators -> isMarkerChar d = true -> NoChar d w.
Proof.
  intros Hin Hd.
  assert (Hcases : d = "*"%char \/ d = "`"%char \/ d = "#"%char).
  { unfold isMarkerChar in Hd. rewrite !orb_true_iff in Hd.
    destruct Hd as [[H|H]|H]; apply Ascii.eqb_eq in H; auto. }
  unfold lineTerminators in Hin. cbn in Hin.
  destruct Hcases as [-> | [-> | ->]];
    repeat (destruct Hin as [<-|Hin]; [apply forallb_iff; reflexivity|]);
    destruct Hin.
Qed.

(** Before a marker character no line terminator begins, unless it stands
    in the text before. *)
Lemma startsWithAny_before_marker d post tail :
  isMarkerChar d = true ->
  (forall w, In w lineTerminators -> String.prefix w post = false) ->
  startsWithAny lineTerminators (post ++ String d tail) = false.
Proof.
  intros Hd Hpost. unfold startsWithAny.
  destruct (stripAny lineTerminators (post ++ String d tail)) as [r|] eqn:E;
    [|reflexivity].
  destruct (stripAny_prefix _ _ _ E) as [w [Hin Hp]].
  apply prefix_iff in Hp. destruct Hp as [rest Hp]. symmetry in Hp.
  destruct (prefix_before_char d w rest post tail
              (lineTerminators_NoChar d w Hin Hd) Hp) as [post' ->].
  specialize (Hpost w Hin). now rewrite prefix_append in Hpost.
Qed.

Lemma NoLineTerminator_tail c s : NoLineTerminator (String c s) -> NoLineTerminator s.
Proof.
  intros H w Hin [pre [post E]]. apply (H w Hin).
  exists (String c pre), post. cbn. now rewrite E.
Qed.

Lemma NoLineTerminator_prefix s w :
  NoLineTerminator s -> In w lineTerminators -> String.prefix w s = false.
Proof.
  intros H Hin. destruct (String.prefix w s) eqn:E; [|reflexivity].
  apply prefix_iff in E. destruct E as [post ->].
  destruct (H w Hin). now exists "", post.
Qed.

(** The lazy group stops at the first closing delimiter when the text
    before it holds neither the marker's character nor a line
    terminator. *)
Lemma findClose_plain m inner rest :
  NoChar (markerChar m) inner -> NoLineTerminator inner ->
  findClose (delimiter m) (inner ++ delimiter m ++ rest) = Some (inner, rest).
Proof.
  intros Hd Hl. induction inner as [|c inner IH].
  - cbn [append]. destruct m; cbn [delimiter append];
      unfold findClose; destruct rest; cbn;
      repeat (destruct (ascii_dec _ _); [|congruence]); reflexivity.
  - destruct (NoChar_cons _ _ _ Hd) as [Hc Hd'].
    cbn [append findClose].
    assert (Hp : String.prefix (delimiter m) (String c (inner ++ delimiter m ++ rest))
                 = false).
    { destruct m; cbn [delimiter String.prefix markerChar] in *;
        (destruct (ascii_dec _ c) as [E|_]; [now destruct Hc | reflexivity]). }
    rewrite Hp.
    assert (Ht : startsWithAny lineTerminators
                   (String c (inner ++ delimiter m ++ rest)) = false).
    { assert (Hm : isMarkerChar (markerChar m) = true) by now destruct m.
      assert (E : exists tail, delimiter m ++ rest = String (markerChar m) tail)
        by (destruct m; eexists; reflexivity).
      destruct E as [tail E]. rewrite E.
      apply (startsWithAny_before_marker (markerChar m) (String c inner) tail Hm).
      intros w Hin. now apply NoLineTerminator_prefix. }
    rewrite Ht, IH; [reflexivity | exact Hd' | now apply NoLineTerminator_tail in Hl].
Qed.

Lemma findClose_none m s :
  NoChar (markerChar m) s -> findClose (delimiter m) s = None.
Proof.
  induction s as [|c s IH]; intros Hd.
  - destruct m; reflexivity.
  - destruct (NoChar_cons _ _ _ Hd) as [Hc Hd'].
    cbn [findClose].
    assert (Hp : String.prefix (delimiter m) (String c s) = false).
    { destruct m; cbn [delimiter String.prefix markerChar] in *;
        (destruct (ascii_dec _ c) as [E|_]; [now destruct Hc | reflexivity]). }
    rewrite Hp. destruct (startsWithAny lineTerminators (String c s)); [reflexivity|].
    now rewrite IH.
Qed.

Lemma matchDelimitedAt_span m inner rest :
  NoChar (markerChar m) inner -> NoLineTerminator inner ->
  matchDelimitedAt m (delimiter m ++ inner ++ delimiter m ++ rest) = Some (inner, rest).
Proof.
  intros Hd Hl. unfold matchDelimitedAt.
  rewrite prefix_append, slice_append. now apply findClose_plain.
Qed.

Lemma replaceDelimited_identity m s :
  NoChar (markerChar m) s -> replaceDelimited m s = s.
Proof.
  intros H. rewrite <- (append_nil_r s) at 1.
  rewrite replaceDelimited_plain by exact H. now rewrite append_nil_r.
Qed.

Lemma replaceTags_identity s : NoChar "#" s -> replaceTags s = s.
Proof.
  intros H. rewrite <- (append_nil_r s) at 1.
  rewrite replaceTags_plain by exact H. now rewrite append_nil_r.
Qed.

(** The substitution of the one span that stands amid text without the
    marker's character. *)
Lemma replaceDelimited_span m pre inner post :
  NoChar (markerChar m) pre -> NoChar (markerChar m) inner ->
  NoLineTerminator inner -> NoChar (markerChar m) post ->
  replaceDelimited m (pre ++ delimiter m ++ inner ++ delimiter m ++ post)
  = pre ++ wrap m inner ++ post.
Proof.
  intros Hpre Hin Hl Hpost. rewrite replaceDelimited_plain by exact Hpre.
  f_equal.
  assert (E : exists c s, delimiter m ++ inner ++ delimiter m ++ post = String c s)
    by (destruct m; eexists _, _; reflexivity).
  destruct E as [c [s E]].
  pose proof (matchDelimitedAt_span m inner post Hin Hl) as Hm.
  rewrite E in *. rewrite replaceDelimited_step, Hm.
  now rewrite replaceDelimited_identity.
Qed.

(** The bold substitution leaves a span between single stars alone. *)
Lemma replaceDelimited_Bold_single_stars a b :
  NoChar "*" a -> NoChar "*" b ->
  replaceDelimited Bold ("*" ++ a ++ "*" ++ b) = "*" ++ a ++ "*" ++ b.
Proof.
  intros Ha Hb.
  assert (Hb1 : replaceDelimited Bold ("*" ++ b) = "*" ++ b).
  { cbn [append]. rewrite replaceDelimited_step.
    assert (E : matchDelimitedAt Bold (String "*" b) = None).
    { unfold matchDelimitedAt. cbn [delimiter String.prefix].
      destruct (ascii_dec "*" "*"); [|congruence].
      destruct b as [|c b]; [reflexivity|].
      destruct (NoChar_cons _ _ _ Hb) as [Hc _].
      cbn [String.prefix]. destruct (ascii_dec "*" c) as [E|_]; [now destruct Hc|].
      reflexivity. }
    rewrite E. now rewrite (replaceDelimited_identity Bold b Hb). }
  cbn [append]. rewrite replaceDelimited_step.
  assert (E : matchDelimitedAt Bold (String "*" (a ++ String "*" b)) = None).
  { unfold matchDelimitedAt. cbn [delimiter String.prefix].
    destruct (ascii_dec "*" "*"); [|congruence].
    destruct a as [|c a].
    - cbn [append String.prefix]. destruct (ascii_dec "*" "*"); [|congruence].
      cbn [String.length slice].
      replace (String.prefix "" b) with true by (now destruct b).
      apply (findClose_none Bold b Hb).
    - destruct (NoChar_cons _ _ _ Ha) as [Hc _].
      cbn [append String.prefix]. destruct (ascii_dec "*" c) as [E|_]; [now destruct Hc|].
      reflexivity. }
  rewrite E. f_equal.
  rewrite (replaceDelimited_plain Bold a (String "*" b) Ha). f_equal. exact Hb1.
Qed.

Definition Plain (s : string) : Prop := AllChars notMarkerChar s.

Lemma Plain_append a b : Plain a -> Plain b -> Plain (a ++ b).
Proof. apply AllChars_append. Qed.

Lemma wrap_Plain m inner : Plain inner -> Plain (wrap m inner).
Proof.
  intros H. destruct m; cbn [wrap]; repeat apply Plain_append; try exact H;
    apply forallb_iff; reflexivity.
Qed.

Lemma formatInline_after s :
  Plain s ->
  replaceTags (replaceDelimited Code (replaceDelimited Italic s)) = s
  /\ replaceTags (replaceDelimited Code s) = s /\ replaceTags s = s.
Proof.
  intros H. destruct (notMarker_NoChar s H) as [Hstar [Hquote Hhash]].
  rewrite (replaceDelimited_identity Italic s Hstar),
    (replaceDelimited_identity Code s Hquote), (replaceTags_identity s Hhash).
  auto.
Qed.

(** X15. One span between a pair of markers, amid text that holds none of
    the marker characters [*], backquote and [#], is replaced by its
    element and the text around it is kept: [**] gives [strong], [*] gives
    [em], the backquote gives [code]. The span must not run over a line
    terminator. *)
Theorem single_span_renders (m : Marker) (pre inner post : string) :
  Plain pre -> Plain inner -> NoLineTerminator inner -> Plain post ->
  formatInline (pre ++ delimiter m ++ inner ++ delimiter m ++ post)
  = pre ++ wrap m inner ++ post.
Proof.
  intros Hpre Hin Hl Hpost.
  destruct (notMarker_NoChar pre Hpre) as [Ps [Pq Ph]].
  destruct (notMarker_NoChar inner Hin) as [Is [Iq Ih]].
  destruct (notMarker_NoChar post Hpost) as [Os [Oq Oh]].
  assert (Hout : Plain (pre ++ wrap m inner ++ post)).
  { apply Plain_append; [exact Hpre|]. apply Plain_append; [|exact Hpost].
    now apply wrap_Plain. }
  destruct (formatInline_after _ Hout) as [H1 [H2 H3]].
  unfold formatInline. destruct m.
  - rewrite (replaceDelimited_span Bold) by assumption. exact H1.
  - cbn [delimiter].
    rewrite (replaceDelimited_plain Bold pre) by exact Ps.
    rewrite (replaceDelimited_Bold_single_stars inner post Is Os).
    pose proof (replaceDelimited_span Italic pre inner post Ps Is Hl Os) as E.
    cbn [delimiter] in E. rewrite E. exact H2.
  - cbn [delimiter].
    assert (Hstar : NoChar "*" (pre ++ "`" ++ inner ++ "`" ++ post)).
    { repeat apply AllChars_append; try assumption; apply forallb_iff; reflexivity. }
    rewrite (replaceDelimited_identity Bold _ Hstar),
      (replaceDelimited_identity Italic _ Hstar).
    pose proof (replaceDelimited_span Code pre inner post Pq Iq Hl Oq) as E.
    cbn [delimiter] in E. rewrite E. exact H3.
Qed.

Lemma single_span_renders_witness :
  formatInline "a **b c** d" = "a <strong>b c</strong> d".
Proof.
  apply (single_span_renders Bold "a " "b c" " d");
    try (apply forallb_iff; reflexivity).
  intros w Hin. rewrite <- includes_iff.
  repeat (destruct Hin as [<-|Hin]; [vm_compute; discriminate|]).
  destruct Hin.
Defined.

(** ** The substitutions of a paragraph keep the tag tokens *)

Lemma takeWhile_before p u c v :
  p c = false ->
  takeWhile p (u ++ String c v) = takeWhile p u
  /\ dropWhile p (u ++ String c v) = dropWhile p u ++ String c v.
Proof.
  intros Hc. induction u as [|a u [IH1 IH2]]; cbn [append takeWhile dropWhile].
  - now rewrite Hc.
  - destruct (p a); [now rewrite IH1, IH2 | auto].
Qed.

(** A character that no token holds ends the scan of what stands before
    it: the tokens of the two sides are found independently. *)
Lemma matchAllTags_split u c v :
  isTagChar c = false ->
  matchAllTags (u ++ String c v) = (matchAllTags u ++ matchAllTags (String c v))%list.
Proof.
  intros Hc. remember (String.length u) as n eqn:Hn.
  revert u Hn. induction n as [n IH] using lt_wf_ind. intros u Hn.
  destruct u as [|a u]; [reflexivity|].
  cbn [append]. rewrite (matchAllTags_step a u), (matchAllTags_step a (u ++ String c v)).
  cbn [matchTagAt].
  destruct (takeWhile_before isTagChar u c v Hc) as [-> ->].
  destruct (Ascii.eqb a "#").
  - destruct (takeWhile isTagChar u) as [|x tok] eqn:E.
    + apply (IH (String.length u)); [simpl in Hn; lia | reflexivity].
    + rewrite <- app_comm_cons. f_equal.
      apply (IH (String.length (dropWhile isTagChar u))); [|reflexivity].
      pose proof (dropWhile_length isTagChar u). simpl in Hn. lia.
  - apply (IH (String.length u)); [simpl in Hn; lia | reflexivity].
Qed.

Lemma matchAllTags_skip w v : NoChar "#" w -> matchAllTags (w ++ v) = matchAllTags v.
Proof.
  induction w as [|c w IH]; intros Hw; [reflexivity|].
  destruct (NoChar_cons _ _ _ Hw) as [Hc Hw'].
  cbn [append]. rewrite matchAllTags_step, matchTagAt_other by now left.
  now apply IH.
Qed.

(** A piece without [#] that begins with a character no token holds
    separates the tokens before it from those behind it. *)
Lemma matchAllTags_separator u c w v :
  isTagChar c = false -> NoChar "#" (String c w) ->
  matchAllTags (u ++ String c w ++ v) = (matchAllTags u ++ matchAllTags v)%list.
Proof.
  intros Hc Hw. cbn [append]. rewrite (matchAllTags_split u c (w ++ v) Hc).
  f_equal. exact (matchAllTags_skip (String c w) v Hw).
Qed.

(** Replacing one delimited span by its element leaves the tokens alone. *)
Lemma matchAllTags_wrap m p inner rest :
  matchAllTags (p ++ wrap m inner ++ rest)
  = matchAllTags (p ++ delimiter m ++ inner ++ delimiter m ++ rest).
Proof.
  assert (Hopen : forall c w u v, isTagChar c = false -> NoChar "#" (String c w) ->
    matchAllTags (u ++ (String c w) ++ v) = (matchAllTags u ++ matchAllTags v)%list)
    by (intros; now apply matchAllTags_separator).
  destruct m; cbn [wrap delimiter]; rewrite !append_assoc.
  - rewrite (Hopen "<"%char "strong>" p), (Hopen "<"%char "/strong>" inner),
      (Hopen "*"%char "*" p), (Hopen "*"%char "*" inner);
      try reflexivity; apply NoChar_literal; reflexivity.
  - rewrite (Hopen "<"%char "em>" p), (Hopen "<"%char "/em>" inner),
      (Hopen "*"%char "" p), (Hopen "*"%char "" inner);
      try reflexivity; apply NoChar_literal; reflexivity.
  - change ("<code class=" ++ dquote ++ "bg-gray-100 px-1 py-0.5 rounded text-sm"
            ++ dquote ++ ">" ++ inner ++ "</code>" ++ rest)
      with (String "<" ("code class=" ++ dquote
                        ++ "bg-gray-100 px-1 py-0.5 rounded text-sm" ++ dquote ++ ">")
            ++ inner ++ "</code>" ++ rest).
    rewrite (Hopen "<"%char _ p), (Hopen "<"%char "/code>" inner),
      (Hopen "`"%char "" p), (Hopen "`"%char "" inner);
      try reflexivity; apply NoChar_literal; reflexivity.
Qed.

Lemma matchAllTags_replaceDelimited_under m s :
  forall p, matchAllTags (p ++ replaceDelimited m s) = matchAllTags (p ++ s).
Proof.
  remember (String.length s) as n eqn:Hn.
  revert s Hn. induction n as [n IH] using lt_wf_ind. intros s Hn p.
  destruct s as [|c s]; [reflexivity|].
  rewrite replaceDelimited_step.
  destruct (matchDelimitedAt m (String c s)) as [[inner rest]|] eqn:E.
  - pose proof (matchDelimitedAt_shorter _ _ _ _ E) as Hlt.
    rewrite (matchDelimitedAt_spec _ _ _ _ E).
    rewrite <- (append_assoc p).
    rewrite (IH (String.length rest)) with (s := rest); [|lia|reflexivity].
    rewrite append_assoc. apply matchAllTags_wrap.
  - change (p ++ String c (replaceDelimited m s))
      with (p ++ String c "" ++ replaceDelimited m s).
    change (p ++ String c s) with (p ++ String c "" ++ s).
    rewrite <- !(append_assoc p).
    apply (IH (String.length s)); [simpl in Hn; lia | reflexivity].
Qed.

Lemma matchAllTags_single tok :
  tok <> "" -> AllChars isTagChar tok -> matchAllTags ("#" ++ tok) = ["#" ++ tok].
Proof.
  intros Hne Htok.
  assert (E : TagScan ("#" ++ tok ++ "") [tok]).
  { apply scan_token; [exact Hne | exact Htok | | constructor].
    intros [c [r [H _]]]. discriminate. }
  rewrite append_nil_r in E. exact (TagScan_matches _ _ E).
Qed.

Lemma matchAllTags_replaceTags_under s :
  forall p, matchAllTags (p ++ replaceTags s) = matchAllTags (p ++ s).
Proof.
  remember (String.length s) as n eqn:Hn.
  revert s Hn. induction n as [n IH] using lt_wf_ind. intros s Hn p.
  destruct s as [|c s]; [reflexivity|].
  rewrite replaceTags_step.
  destruct (matchTagAt (String c s)) as [[m rest]|] eqn:E.
  - pose proof (matchTagAt_shorter _ _ _ E) as Hlt.
    destruct (matchTagAt_inv _ _ _ E) as [tok [-> [Hs [Hne [Htok Hrest]]]]].
    rewrite Hs.
    change (slice 1 ("#" ++ tok)) with tok.
    replace (p ++ spanOpen ++ "#" ++ tok ++ "</span>" ++ replaceTags rest)
      with ((p ++ spanOpen ++ "#" ++ tok ++ "</span>") ++ replaceTags rest)
      by (now rewrite !append_assoc).
    rewrite (IH (String.length rest)) with (s := rest); [|lia|reflexivity].
    rewrite !append_assoc.
    change spanOpen with (String "<" ("span class=" ++ dquote
                          ++ "text-blue-600 font-medium" ++ dquote ++ ">")).
    rewrite (matchAllTags_separator p "<"); [|reflexivity|apply NoChar_literal; reflexivity].
    change (p ++ "#" ++ tok ++ rest) with (p ++ String "#" (tok ++ rest)).
    rewrite (matchAllTags_split p "#" (tok ++ rest)) by reflexivity.
    f_equal.
    rewrite <- (append_assoc "#" tok).
    rewrite (matchAllTags_separator ("#" ++ tok) "<" "/span>" rest);
      [|reflexivity|apply NoChar_literal; reflexivity].
    rewrite (matchAllTags_single tok Hne Htok).
    rewrite matchAllTags_step.
    change (String "#" (tok ++ rest)) with ("#" ++ tok ++ rest).
    now rewrite matchTagAt_token by assumption.
  - change (p ++ String c (replaceTags s)) with (p ++ String c "" ++ replaceTags s).
    change (p ++ String c s) with (p ++ String c "" ++ s).
    rewrite <- !(append_assoc p).
    apply (IH (String.length s)); [simpl in Hn; lia | reflexivity].
Qed.

Lemma matchAllTags_replaceDelimited m s :
  matchAllTags (replaceDelimited m s) = matchAllTags s.
Proof. exact (matchAllTags_replaceDelimited_under m s ""). Qed.

Lemma matchAllTags_replaceTags s : matchAllTags (replaceTags s) = matchAllTags s.
Proof. exact (matchAllTags_replaceTags_under s ""). Qed.

(** X16. The four substitutions of a paragraph line neither add a tag
    token nor remove one: the matches of the tag expression in the
    fragment are those in the line, in the same order, and extracting the
    tags of the fragment gives the tags of the line. *)
Theorem fragment_keeps_tag_tokens (line : string) :
  matchAllTags (formatInline line) = matchAllTags line
  /\ extractTags (formatInline line) = extractTags line.
Proof.
  assert (E : matchAllTags (formatInline line) = matchAllTags line).
  { unfold formatInline.
    now rewrite matchAllTags_replaceTags, !matchAllTags_replaceDelimited. }
  split; [exact E|]. now rewrite !extractTags_matches, E.
Qed.

(** ** A new note in the list *)

(** The note that [createNote] builds at the instant [now]. *)
Definition newNote (now : Date) : Note :=
  mkNote (JSON.Number_toString now) "Untitled Note" "" [] now now false false.

Lemma createNote_newNote now st :
  notes (createNote now st) = newNote now :: notes st
  /\ selectedNote (createNote now st) = Some (newNote now).
Proof. destruct st. split; reflexivity. Qed.

Lemma Selects_newNote tag now :
  Selects tag (newNote now) <-> tag = "all" \/ tag = "untagged".
Proof.
  unfold Selects, reservedSelectors. cbn [isStarred isArchived tags newNote].
  split.
  - intros [Hs [Ha [_ Ht]]].
    destruct (String.eqb_spec tag "all") as [->|H1]; [now left|].
    destruct (String.eqb_spec tag "untagged") as [->|H2]; [now right|].
    destruct (String.eqb_spec tag "starred") as [E|H3]; [now specialize (Hs E)|].
    destruct (String.eqb_spec tag "archived") as [E|H4]; [now specialize (Ha E)|].
    destruct Ht. cbn. intros [E | [E | [E | [E | []]]]]; congruence.
  - intros [-> | ->]; (split; [discriminate|]; split; [discriminate|];
      split; [reflexivity|]); intros H; destruct H; cbn; auto.
Qed.

Lemma matchesSearch_newNote term now :
  matchesSearch term (newNote now) = true
  <-> Substring (toLowerCase term) "untitled note".
Proof.
  unfold matchesSearch, matchesSearchWith. cbn [title content tags newNote existsb].
  change (toLowerCase "Untitled Note") with "untitled note".
  change (toLowerCase "") with "".
  rewrite orb_false_r, orb_true_iff, !includes_iff. split; [|now left].
  intros [H | [pre [post H]]]; [exact H|].
  destruct pre; [|discriminate]. cbn [append] in H.
  destruct (toLowerCase term); [|discriminate].
  now exists "", "untitled note".
Qed.

(** X17. The note made by [createNote] is put first in the list and is the
    selected one; it is shown under the selectors [all] and [untagged]
    alone, and only while the search term, lowercased, is a piece of
    [untitled note] (the empty term is). The notes shown before it are
    the ones shown before the creation. *)
Theorem new_note_listing (now : Date) (st : AppState) (tag term : string) :
  selectedNote (createNote now st) = Some (newNote now)
  /\ (keepNote tag term (newNote now) = true
      <-> (tag = "all" \/ tag = "untagged")
          /\ Substring (toLowerCase term) "untitled note")
  /\ filteredNotes (notes (createNote now st)) tag term
     = (if keepNote tag term (newNote now)
        then newNote now :: filteredNotes (notes st) tag term
        else filteredNotes (notes st) tag term).
Proof.
  destruct (createNote_newNote now st) as [Hn Hs].
  split; [exact Hs|]. split.
  - rewrite keepNote_selectsb, andb_true_iff, selectsb_iff, Selects_newNote.
    apply and_iff_compat_l.
    destruct term as [|c term].
    + cbn [truthy isArchived newNote negb orb]. split; [|reflexivity].
      intros _. now exists "", "untitled note".
    + cbn [truthy]. apply matchesSearch_newNote.
  - rewrite Hn. unfold filteredNotes. cbn [filter].
    now destruct (keepNote tag term (newNote now)).
Qed.
